(** * HPDDM [Schwarz] preconditioner: a shallow embedding of [schwarz.hpp]

    The class [Schwarz<Solver, CoarseSolver, S, K>] is embedded method by
    method.  Scalars of type [K] and of its underlying real type are
    rationals.  The kernels are stated on exact rationals; the one
    computation whose results are compared across evaluation orders and with
    closed forms, the rule of [multiplicityScaling], rounds the result of
    each of its operations, with the rounding as a parameter of which
    [binary64] is an instance.  Raw arrays are lists, pointer arguments
    are named buffers of a store, and every call of a kernel or of an
    injected capability (local solver, coarse operator, halo exchange) is
    appended to a trace, so that both the values and the order of the calls
    of a method can be stated. *)

From Stdlib Require Import Floats.
From Stdlib Require Import QArith Qabs Qround Qpower Lqa Lia List Permutation.
From stdpp Require Import base list functions gmap strings.

Local Open Scope Q_scope.

(** ** Scalars and raw arrays *)

(** The scalar type [K] and its underlying real type. *)
Abbreviation K := Q (only parsing).
Abbreviation ul_type := Q (only parsing).

(** [v[i]], reading 0 outside of the array. *)
Definition rd (v : list K) (i : nat) : K := nth i v 0.
Definition rdn (v : list nat) (i : nat) : nat := nth i v 0%nat.

Definition Qsum (l : list K) : K := foldr Qplus 0 l.

(** Writing [vals] at offset [off] of [dst]; the destination is extended
    with zeros when it is too short to hold the offset. *)
Definition store_at (off : nat) (vals dst : list K) : list K :=
  take off (dst ++ replicate (off - length dst) 0)
    ++ vals ++ drop (off + length vals) dst.

(** [std::copy_n(src + soff, n, dst + doff)] *)
Definition copy_n (src : list K) (soff n : nat) (dst : list K) (doff : nat) : list K :=
  store_at doff (map (rd src) (seq soff n)) dst.

(** [std::abs] and [std::norm] on the idealised scalars. *)
Definition Kabs (x : K) : ul_type := Qabs x.
Definition norm (x : K) : ul_type := x * x.

(** ** Prcndtnr and MatrixCSR *)

Inductive Prcndtnr : Set := NO | SY | GE | OS | OG | AD | BA.

#[global] Instance Prcndtnr_eq_dec : EqDecision Prcndtnr.
Proof. solve_decision. Defined.

(** [MatrixCSR<K>]: compressed rows with C numbering; with [_sym] only the
    lower triangle of a row is stored. *)
Record MatrixCSR : Type := {
  _sym : bool;
  _ia : list nat;
  _ja : list nat;
  _a : list K
}.

(** Positions of the stored entries of row [i]. *)
Definition row_range (A : MatrixCSR) (i : nat) : list nat :=
  seq (rdn (_ia A) i) (rdn (_ia A) (i + 1) - rdn (_ia A) i).

(** ** Kernels of [Wrapper<K>] *)

Module Wrapper.

(** Modelled from the spec: the constants [Wrapper<K>::d__0], [d__1] and
    [d__2] are declared outside of [schwarz.hpp].  They are the scalars 0,
    1 and -1: with [d__2] the residual [in - A Z E \ Z^T in] is formed by
    [csrmv] and the difference between [A x] and [f] by [axpy]. *)
Definition d__0 : K := 0.
Definition d__1 : K := 1.
Definition d__2 : K := - (1).

(** Modelled from the spec: [Wrapper<K>::diag(m, n, d, in, out)], the
    diagonal scaling kernel, is declared outside of [schwarz.hpp]; it
    writes [out[i + k m] = d[i] in[i + k m]] for [n] vectors of [m]
    entries.  The overloads without [in], and the call with a null [in]
    that [deflation(out, fuse)] makes, scale [out] in place: [src] is then
    [dst]. *)
Definition diag (m n : nat) (d : list ul_type) (src dst : list K) : list K :=
  store_at 0 (map (fun i => rd d (i mod m) * rd src i) (seq 0 (m * n))) dst.

(** Dot product of column [j] of the column-major array [A] with [x]. *)
Definition col_dot (m lda : nat) (A x : list K) (j : nat) : K :=
  Qsum (map (fun i => rd A (i + j * lda) * rd x i) (seq 0 m)).

Definition row_dot (n lda : nat) (A x : list K) (i : nat) : K :=
  Qsum (map (fun j => rd A (i + j * lda) * rd x j) (seq 0 n)).

(** Modelled from the spec: BLAS [gemv] on a column-major [m] x [n]
    array, [y = alpha op(A) x + beta y], where [y] is not read when [beta]
    is zero. *)
Definition gemv (trans : bool) (m n : nat) (alpha : K) (A : list K) (lda : nat)
    (x : list K) (beta : K) (y : list K) : list K :=
  let upd (s : K) (i : nat) :=
    if Qeq_bool beta 0 then alpha * s else alpha * s + beta * rd y i in
  if trans
  then store_at 0 (map (fun j => upd (col_dot m lda A x j) j) (seq 0 n)) y
  else store_at 0 (map (fun i => upd (row_dot n lda A x i) i) (seq 0 m)) y.

(** Modelled from the spec: BLAS [axpy], [y = alpha x + y] on [n] entries. *)
Definition axpy (n : nat) (alpha : K) (x y : list K) : list K :=
  store_at 0 (map (fun i => alpha * rd x i + rd y i) (seq 0 n)) y.

(** Entry [i] of the product of the stored rows with [x]. *)
Definition row_mul (A : MatrixCSR) (x : list K) (i : nat) : K :=
  Qsum (map (fun p => rd (_a A) p * rd x (rdn (_ja A) p)) (row_range A i)).

(** Contribution to entry [i] of the entries mirrored from the rows below,
    for a symmetric matrix stored by its lower triangle. *)
Definition mirror_mul (A : MatrixCSR) (m : nat) (x : list K) (i : nat) : K :=
  Qsum (flat_map (fun r =>
          flat_map (fun p =>
            if (rdn (_ja A) p =? i)%nat && negb (r =? i)%nat
            then [rd (_a A) p * rd x r] else [])
            (row_range A r))
          (seq 0 m)).

(** The sparse product [A x] of an [m]-row matrix. *)
Definition spmv (A : MatrixCSR) (m : nat) (x : list K) : list K :=
  map (fun i => if _sym A then row_mul A x i + mirror_mul A m x i
                else row_mul A x i) (seq 0 m).

(** Modelled from the spec: [csrmv], [y = alpha A x + beta y]. *)
Definition csrmv (m : nat) (alpha : K) (A : MatrixCSR) (x : list K) (beta : K)
    (y : list K) : list K :=
  store_at 0 (map (fun i => alpha * rd (spmv A m x) i + beta * rd y i) (seq 0 m)) y.

(** Modelled from the spec: [csrmm], [Y = A X] for [n] vectors of [m]
    entries stored one after the other. *)
Definition csrmm (m n : nat) (A : MatrixCSR) (x y : list K) : list K :=
  store_at 0 (flat_map (fun k => spmv A m (drop (k * m) x)) (seq 0 n)) y.

End Wrapper.

(** ** The store, the trace and the steps of a method *)

Inductive buffer : Set := b_in | b_out | b_work | b_uc | b_tmp.

#[global] Instance buffer_eq_dec : EqDecision buffer.
Proof. solve_decision. Defined.

Inductive event : Type :=
| Ecopy_n (src dst : buffer)
| Ediag (src : option buffer) (dst : buffer)
| Egemv (trans : bool) (x y : buffer)
| EcallSolver
| EIcallSolver
| Esolve (x y : buffer)
| Eexchange (b : buffer)
| Ecsrmv (x y : buffer)
| Ecsrmm (x y : buffer)
| Eaxpy (alpha : K) (x y : buffer)
| EWait.

(** [mem] holds the arrays behind the pointers, [opt] is the singleton
    [Option], [pending] the result of a coarse solve that was started and
    not yet waited for, [clock] counts the communications issued so far. *)
Record state : Type := {
  mem : buffer -> list K;
  opt : gmap string Q;
  pending : option (list K);
  clock : nat;
  trace : list event
}.

Definition step : Type := state -> state.

Definition skip : step := fun s => s.
Definition seq_step (f g : step) : step := fun s => g (f s).
Definition when (b : bool) (f : step) : step := if b then f else skip.

Declare Scope step_scope.
Delimit Scope step_scope with step.
Bind Scope step_scope with step.
Notation "x ;; z" := (seq_step x z)
  (at level 100, z at level 200, right associativity) : step_scope.

(** A kernel call: [b] receives [v], computed from the store. *)
Definition kernel (e : event) (b : buffer) (v : (buffer -> list K) -> list K) : step :=
  fun s => {| mem := <[b := v (mem s)]> (mem s); opt := opt s;
              pending := pending s; clock := clock s;
              trace := trace s ++ [e] |}.

(** A communication: as a kernel call, and the clock advances. *)
Definition comm (e : event) (b : buffer)
    (v : nat -> (buffer -> list K) -> list K) : step :=
  fun s => {| mem := <[b := v (clock s) (mem s)]> (mem s); opt := opt s;
              pending := pending s; clock := S (clock s);
              trace := trace s ++ [e] |}.

(** [Option::val]: the value of a key, if it is set. *)
Definition Option_val (o : gmap string Q) (key : string) : option Q := o !! key.

(** Conversion of a [double] to [int]: truncation towards zero. *)
Definition to_int (q : Q) : Z := Z.quot (Qnum q) (Zpos (Qden q)).

Definition Qmax (x y : Q) : Q := if Qlt_le_dec x y then y else x.

(** ** The object *)

(** The members of [Schwarz] and of its bases [Subdomain<K>] and
    [Preconditioner] (the latter is [super]) that the methods read.
    [super_ev] holds the deflation vectors, one list per vector, and
    [super_co] tells whether the coarse operator [super::_co] is set. *)
Record Schwarz : Type := {
  Subdomain_dof : nat;
  Subdomain_a : MatrixCSR;
  Subdomain_map : list (nat * list nat);
  super_ev : list (list K);
  super_co : bool;
  _d : list ul_type;
  _type : Prcndtnr
}.

(** Modelled from the spec: [super::getLocal()] is declared outside of
    [schwarz.hpp]; it is the number of local coarse unknowns, one per
    deflation vector. *)
Definition getLocal (P : Schwarz) : nat := length (super_ev P).

(** [*super::_ev]: the deflation vectors are stored one after the other. *)
Definition ev_array (P : Schwarz) : list K := concat (super_ev P).

Section Methods.

(** Injected capabilities.  [solve mu x] is the local solve of [mu]
    right-hand sides, [callSolver t fuse uc] the coarse solve and
    [exchange t mu v] the halo exchange; the latter two depend on what the
    other processes contribute, which is indexed by the number [t] of
    communications issued before. *)
Variable solve : nat -> list K -> list K.
Variable callSolver : nat -> nat -> list K -> list K.
Variable exchange : nat -> nat -> list K -> list K.

(** The macro [HPDDM_ICOLLECTIVE]. *)
Variable HPDDM_ICOLLECTIVE : bool.

Variable P : Schwarz.

Local Abbreviation dof := (Subdomain_dof P).

Local Open Scope step_scope.

(** *** Calls, as steps *)

Definition do_copy_n (src : buffer) (soff n : nat) (dst : buffer) (doff : nat) : step :=
  kernel (Ecopy_n src dst) dst (fun m => copy_n (m src) soff n (m dst) doff).

(** [Wrapper<K>::diag(dof, mu, _d, in, out)]; without [in] the scaling is
    done in place. *)
Definition do_diag (mu : nat) (src : option buffer) (dst : buffer) : step :=
  kernel (Ediag src dst) dst
    (fun m => Wrapper.diag dof mu (_d P) (m (default dst src)) (m dst)).

(** [gemv(&transc, &dof, getAddrLocal(), &d__1, *_ev, &dof, x, &i__1, &d__0, _uc, &i__1)] *)
Definition do_gemv_T (x : buffer) : step :=
  kernel (Egemv true x b_uc) b_uc
    (fun m => Wrapper.gemv true dof (getLocal P) Wrapper.d__1 (ev_array P) dof
                (m x) Wrapper.d__0 (m b_uc)).

(** [gemv(&transa, &dof, getAddrLocal(), &d__1, *_ev, &dof, _uc, &i__1, &d__0, y, &i__1)] *)
Definition do_gemv_N (y : buffer) : step :=
  kernel (Egemv false b_uc y) y
    (fun m => Wrapper.gemv false dof (getLocal P) Wrapper.d__1 (ev_array P) dof
                (m b_uc) Wrapper.d__0 (m y)).

Definition do_axpy (alpha : K) (x y : buffer) : step :=
  kernel (Eaxpy alpha x y) y (fun m => Wrapper.axpy dof alpha (m x) (m y)).

(** [csrmv(&transa, &dof, &dof, &d__2, ..., x, &d__1, y)] *)
Definition do_csrmv (x y : buffer) : step :=
  kernel (Ecsrmv x y) y
    (fun m => Wrapper.csrmv dof Wrapper.d__2 (Subdomain_a P) (m x) Wrapper.d__1 (m y)).

Definition do_csrmm (mu : nat) (x y : buffer) : step :=
  kernel (Ecsrmm x y) y (fun m => Wrapper.csrmm dof mu (Subdomain_a P) (m x) (m y)).

(** [super::_s.solve(x, y, mu)]; [super::_s.solve(x, mu)] is [do_solve mu x x]. *)
Definition do_solve (mu : nat) (x y : buffer) : step :=
  kernel (Esolve x y) y (fun m => copy_n (solve mu (m x)) 0 (mu * dof) (m y) 0).

(** [Subdomain<K>::exchange(b, mu)] *)
Definition do_exchange (mu : nat) (b : buffer) : step :=
  comm (Eexchange b) b (fun t m => copy_n (exchange t mu (m b)) 0 (mu * dof) (m b) 0).

(** [super::_co->callSolver(super::_uc, fuse)] *)
Definition do_callSolver (fuse : nat) : step :=
  comm EcallSolver b_uc (fun t m => callSolver t fuse (m b_uc)).

(** [super::_co->IcallSolver(super::_uc, rq, fuse)]: the coarse solve is
    started, its result reaches [_uc] when the request is waited for. *)
Definition do_IcallSolver (fuse : nat) : step :=
  fun s => {| mem := mem s; opt := opt s;
              pending := Some (callSolver (clock s) fuse (mem s b_uc));
              clock := S (clock s); trace := trace s ++ [EIcallSolver] |}.

(** [MPI_Waitall(2, rq, ...)] and [MPI_Wait(rq + 1, ...)] *)
Definition do_Wait : step :=
  fun s => {| mem := match pending s with
                     | Some v => <[b_uc := v]> (mem s)
                     | None => mem s
                     end;
              opt := opt s; pending := None; clock := clock s;
              trace := trace s ++ [EWait] |}.

(** [new K[n]]: a fresh array; no call is traced.  The array is a list of
    [n] entries: the list is longer after a call that writes beyond them,
    which is how a write beyond the allocation shows. *)
Definition do_new (b : buffer) (n : nat) : step :=
  fun s => {| mem := <[b := replicate n 0]> (mem s); opt := opt s;
              pending := pending s; clock := clock s; trace := trace s |}.

(** [reallocateRHS] followed by the copy of the fused unknowns. *)
Definition fuse_in (out : buffer) (fuse : nat) : step :=
  when (0 <? fuse)%nat (do_copy_n out dof fuse b_uc (getLocal P)).

Definition fuse_out (out : buffer) (fuse : nat) : step :=
  when (0 <? fuse)%nat (do_copy_n b_uc (getLocal P) fuse out dof).

(** *** deflation *)

Definition deflation (excluded : bool) (in_ : option buffer) (out : buffer)
    (fuse : nat) : step :=
  fuse_in out fuse ;;
  (if excluded then do_callSolver fuse
   else
     do_diag 1 in_ out ;;
     do_gemv_T out ;;
     do_callSolver fuse ;;
     do_gemv_N out ;;
     when (bool_decide (_type P <> AD))
       (do_diag 1 None out ;; do_exchange 1 out)) ;;
  fuse_out out fuse.

(** *** Ideflation *)

Definition Ideflation (excluded : bool) (in_ : option buffer) (out : buffer)
    (fuse : nat) : step :=
  fuse_in out fuse ;;
  (if excluded then do_IcallSolver fuse
   else
     do_diag 1 in_ out ;;
     do_gemv_T out ;;
     do_IcallSolver fuse) ;;
  fuse_out out fuse.

(** *** GMV *)

Definition GMV (in_ out : buffer) (mu : nat) : step :=
  do_csrmm mu in_ out ;;
  do_diag mu None out ;;
  do_exchange mu out.

(** *** apply *)

(** [std::max(Option::get()->val("schwarz_coarse_correction"), -1.0)]
    converted to [int]; an unset key reads as the lowest [double]. *)
Definition correction_of (o : gmap string Q) : Z :=
  match Option_val o "schwarz_coarse_correction" with
  | Some v => to_int (Qmax v (- (1)))
  | None => (-1)%Z
  end.

Definition apply_one_level (excluded : bool) (in_ out : buffer) (mu : nat) : step :=
  match _type P with
  | NO => do_copy_n in_ 0 (mu * dof) out 0
  | GE | OG =>
      when (negb excluded)
        (do_solve mu in_ out ;;
         do_diag mu None out ;;
         do_exchange mu out)
  | _ =>
      when (negb excluded)
        ((if bool_decide (_type P = OS)
          then do_diag mu (Some in_) out ;;
               do_solve mu out out ;;
               do_diag mu None out
          else do_solve mu in_ out) ;;
         do_exchange mu out)
  end.

Definition apply_additive (excluded : bool) (in_ out work : buffer) (fuse : nat) : step :=
  if HPDDM_ICOLLECTIVE then
    Ideflation excluded (Some in_) out fuse ;;
    (if excluded then do_Wait
     else
       do_solve 1 work work ;;
       do_Wait ;;
       do_gemv_N out ;;
       do_axpy Wrapper.d__1 work out ;;
       do_diag 1 None out ;;
       do_exchange 1 out)
  else
    deflation excluded (Some in_) out fuse ;;
    when (negb excluded)
      (do_solve 1 work work ;;
       do_axpy Wrapper.d__1 work out ;;
       do_diag 1 None out ;;
       do_exchange 1 out).

(** The round that correction 2 adds, on the temporary [tmp]. *)
Definition balancing_round (excluded : bool) (work : buffer) (mu fuse : nat) : step :=
  do_new b_tmp dof ;;
  GMV work b_tmp mu ;;
  deflation excluded None b_tmp fuse ;;
  do_axpy Wrapper.d__2 b_tmp work.

(** The residual of the coarse correction and its local solve. *)
Definition local_correction (out work : buffer) : step :=
  do_csrmv out work ;;
  do_diag 1 None work ;;
  do_exchange 1 work ;;
  when (bool_decide (_type P = OS)) (do_diag 1 None work) ;;
  do_solve 1 work work ;;
  do_diag 1 None work ;;
  do_exchange 1 work.

Definition apply_deflated (excluded : bool) (correction : Z) (in_ out work : buffer)
    (mu fuse : nat) : step :=
  deflation excluded (Some in_) out fuse ;;
  when (negb excluded)
    (local_correction out work ;;
     when (correction =? 2)%Z (balancing_round excluded work mu fuse) ;;
     do_axpy Wrapper.d__1 work out).

(** [work] is the caller's buffer, if any. *)
Definition apply (excluded : bool) (in_ out : buffer) (mu : nat)
    (work : option buffer) (fuse : nat) : step :=
  fun s =>
    let correction := correction_of (opt s) in
    if negb (super_co P) || (correction =? -1)%Z
    then apply_one_level excluded in_ out mu s
    else
      let w := default in_ work in
      (match work with
       | None => skip
       | Some w' => do_copy_n in_ 0 dof w' 0
       end ;;
       if (correction =? 1)%Z
       then apply_additive excluded in_ out w fuse
       else apply_deflated excluded correction in_ out w mu fuse) s.

End Methods.

(** ** multiplicityScaling *)

Definition Qltb (x y : Q) : bool := negb (Qle_bool y x).

(** [Wrapper::gthr(n, d, send, idx)]: [send[j] = d[idx[j]]]. *)
Definition gthr (d : list ul_type) (idx : list nat) : list ul_type := map (rd d) idx.

(** *** Rounding

    The weights are of the type [ul_type], a binary floating-point type:
    each operation on them yields the rounding of its exact result.
    [rounding u fl] says that [fl] rounds with the unit roundoff [u]: the
    relative error of a result is at most [u], a larger number is not
    rounded to a smaller one, and 1 is not rounded.  Rounding to nearest
    does so as long as no result overflows or underflows; without rounding
    [u] is 0. *)
Record rounding (u : Q) (fl : Q -> Q) : Prop := {
  rounding_unit : 0 <= u /\ u < 1;
  rounding_error : forall x, Qabs (fl x - x) <= u * Qabs x;
  rounding_mono : forall x y, x <= y -> fl x <= fl y;
  rounding_one : fl 1 == 1
}.

(** The factors by which the four roundings of one update of a weight can
    lower and raise the reciprocal of the weight: to the first order
    [1 - 4 u] and [1 + 4 u]; both are 1 without rounding. *)
Definition update_lo (u : Q) : Q := (1 - u) * (1 - u) * (1 - u) / (1 + u).
Definition update_hi (u : Q) : Q := (1 + u) * (1 + u) * (1 + u) / (1 - u).

(** **** binary64

    The rounding of [double]: to the nearest number with a significand of
    53 bits, to the one with an even significand when two are as near.
    The exponent is not bounded: overflow and underflow are left out. *)

(** The nearest integer, the even one of two. *)
Definition rne (q : Q) : Z :=
  let f := Qfloor q in
  match Qcompare (q - inject_Z f) (1 # 2) with
  | Lt => f
  | Gt => (f + 1)%Z
  | Eq => if Z.even f then f else (f + 1)%Z
  end.

(** The exponent [k] of a positive [x]: [2 ^ k <= x < 2 ^ (k + 1)]. *)
Definition ilog2 (x : Q) : Z :=
  let l := (Z.log2 (Qnum x) - Z.log2 (Zpos (Qden x)))%Z in
  if Qle_bool (2 ^ l) x then l else (l - 1)%Z.

Definition round_pos (x : Q) : Q :=
  let e := (ilog2 x - 52)%Z in inject_Z (rne (x / 2 ^ e)) * 2 ^ e.

Definition binary64 (x : Q) : Q :=
  match Qcompare x 0 with
  | Eq => 0
  | Gt => round_pos x
  | Lt => - round_pos (- x)
  end.

(** The unit roundoff of [binary64], [2 ^ -53]. *)
Definition u64 : Q := 1 # 9007199254740992.

(** **** The floats of the kernel

    The primitive floats are the numbers of [double] with its operations.
    [Q_of_float] is the value of a finite float and [quotient64] the
    right-hand side of line 128 on floats: the examples of the rule are
    evaluated with [binary64] and on the floats. *)
Definition Q_of_float (f : float) : Q :=
  match Prim2SF f with
  | S754_finite s m e => (if s then - (1) else 1) * inject_Z (Zpos m) * 2 ^ e
  | _ => 0
  end.

(** [d / (1.0 + d * recv / send)] for [d = w], [recv = r] and [send = s]. *)
Definition quotient64 (s r w : float) : float :=
  PrimFloat.div w (PrimFloat.add 1%float (PrimFloat.div (PrimFloat.mul w r) s)).

Section Scaling.

Variable HPDDM_EPS : Q.

(** The rounding of [ul_type].  Every operation of the rule is rounded by
    it, as the operations are for [double], the type of the literal [1.0]
    of the rule. *)
Variable fl : Q -> Q.

(** [1.0 + d[...] * recv[j] / send[j]] for the weight [w], a sent value
    [s] and a received value [r]: a product, a quotient and a sum. *)
Definition divisor (s r w : ul_type) : ul_type := fl (1 + fl (fl (w * r) / s)).

(** [d[...] /= 1.0 + d[...] * recv[j] / send[j]] *)
Definition quotient (s r w : ul_type) : ul_type := fl (w / divisor s r w).

(** The rule applied to the weight [w] for a sent value [s] and a received
    value [r]. *)
Definition rescale (s r w : ul_type) : ul_type :=
  if Qltb (Kabs s) HPDDM_EPS then 0 else quotient s r w.

(** The updates of the weight [w] by the received values [rs] divide by no
    zero.  Where a divisor is zero the code stores an infinity or a NaN,
    which the rationals do not have: the quotients are stated under this
    condition. *)
Fixpoint divisors_nonzero (s w : ul_type) (rs : list ul_type) : Prop :=
  match rs with
  | [] => True
  | r :: rs' =>
      ~ s == 0 /\ ~ divisor s r w == 0 /\ divisors_nonzero s (quotient s r w) rs'
  end.

(** Body of the inner loop, at position [j] of the list [idx] of indices
    shared with one neighbour.  An index beyond the array, which the
    neighbour map of a subdomain does not hold, leaves the array as it
    is. *)
Definition scale_entry (send recv : list ul_type) (idx : list nat)
    (d : list ul_type) (j : nat) : list ul_type :=
  <[rdn idx j := rescale (rd send j) (rd recv j) (rd d (rdn idx j))]> d.

(** Body of the second loop, for the neighbour [index] whose receive
    completed. *)
Definition scale_neighbour (map_ : list (nat * list nat))
    (sbuff rbuff : list (list ul_type)) (d : list ul_type) (index : nat)
    : list ul_type :=
  let idx := (nth index map_ (0%nat, [])).2 in
  foldl (scale_entry (nth index sbuff []) (nth index rbuff []) idx) d
    (seq 0 (length idx)).

(** [multiplicityScaling(d)] on one process.  [rbuff] is what the
    neighbours send and [order] the indices that [MPI_Waitany] yields, one
    per iteration.  The result is the send buffers and the array [d]. *)
Definition multiplicityScaling (P : Schwarz) (rbuff : list (list ul_type))
    (order : list nat) (d : list ul_type) : list (list ul_type) * list ul_type :=
  let sbuff := map (fun nb => gthr d nb.2) (Subdomain_map P) in
  let d1 := store_at 0 (replicate (Subdomain_dof P) 1) d in
  (sbuff, foldl (scale_neighbour (Subdomain_map P) sbuff rbuff) d1 order).

(** *** The array, index by index *)

(** The indices that the process shares with its neighbour [k]. *)
Definition shared_with (map_ : list (nat * list nat)) (k : nat) : list nat :=
  (nth k map_ (0%nat, [])).2.

(** The values received from the neighbour [k] for the index [idx], one
    per position of [idx] in the list of that neighbour. *)
Definition received_from (map_ : list (nat * list nat))
    (rbuff : list (list ul_type)) (idx k : nat) : list ul_type :=
  flat_map (fun j => if (rdn (shared_with map_ k) j =? idx)%nat
                     then [rd (nth k rbuff []) j] else [])
           (seq 0 (length (shared_with map_ k))).

(** The values received for [idx], in the order of completion. *)
Definition received (map_ : list (nat * list nat))
    (rbuff : list (list ul_type)) (order : list nat) (idx : nat) : list ul_type :=
  flat_map (received_from map_ rbuff idx) order.

(** The neighbours of [order] that share [idx]. *)
Definition sharing (map_ : list (nat * list nat)) (order : list nat) (idx : nat)
    : list nat :=
  List.filter (fun k => bool_decide (idx ∈ shared_with map_ k)) order.

(** No neighbour lists an index twice. *)
Definition map_wf (map_ : list (nat * list nat)) : Prop :=
  Forall (fun nb : nat * list nat => NoDup nb.2) map_.

(** *** All the processes together *)

(** What process [from] sends to process [to]: the gathered values of its
    own array on the indices that it shares with [to]. *)
Definition message (world : list (Schwarz * list ul_type)) (from to : nat)
    : list ul_type :=
  match world !! from with
  | Some (Pf, df) =>
      match find (fun nb => (nb.1 =? to)%nat) (Subdomain_map Pf) with
      | Some nb => gthr df nb.2
      | None => []
      end
  | None => []
  end.

Definition rbuff_of (world : list (Schwarz * list ul_type)) (i : nat)
    (P : Schwarz) : list (list ul_type) :=
  map (fun nb => message world nb.1 i) (Subdomain_map P).

(** The array [d] of process [i] after every process has run
    [multiplicityScaling]; [orders i] is the completion order on [i]. *)
Definition scaled (world : list (Schwarz * list ul_type))
    (orders : nat -> list nat) (i : nat) : list ul_type :=
  match world !! i with
  | Some (Pi, di) => (multiplicityScaling Pi (rbuff_of world i Pi) (orders i) di).2
  | None => []
  end.

End Scaling.

(** ** scaleIntoOverlap and solveGEVP *)

Section GenEO.

Variables HPDDM_EPS HPDDM_PEN : Q.

(** The eigensolver [Eps<K>]: from the threshold, the dimension, the
    requested number of vectors, the pencil and whether the local solver
    is handed over, the vectors written to [super::_ev] and [getNu()]. *)
Variable Eps_solve :
  Q -> nat -> nat -> MatrixCSR -> MatrixCSR -> bool -> list (list K) * nat.

(** [MatrixCSR::sameSparsity] *)
Variable sameSparsity : MatrixCSR -> MatrixCSR -> bool.

Variable P : Schwarz.

Local Abbreviation dof := (Subdomain_dof P).

(** The ordered set [intoOverlap]. *)
Definition intoOverlap : list nat :=
  List.filter (fun i => existsb (fun nb : nat * list nat =>
                              existsb (fun k => (k =? i)%nat && Qltb HPDDM_EPS (rd (_d P) k)) nb.2)
                     (Subdomain_map P))
         (seq 0 dof).

(** [tmp[k]] for the row [i] of the overlap. *)
Definition overlap_row (A : MatrixCSR) (i : nat) : list (nat * K) :=
  flat_map (fun j =>
    let value := rd (_d P) i * rd (_d P) (rdn (_ja A) j) * rd (_a A) j in
    if Qltb HPDDM_EPS (Kabs value) && bool_decide (rdn (_ja A) j ∈ intoOverlap)
    then [(rdn (_ja A) j, value)] else [])
    (row_range A i).

(** [std::fill(ia + lo, ia + hi, v)] *)
Definition fill_nat (ia : list nat) (lo hi v : nat) : list nat :=
  take lo ia ++ replicate (hi - lo) v ++ drop (Nat.max lo hi) ia.

(** The last loop of [scaleIntoOverlap], on [(ia, ja, a, iPrev)]. *)
Definition overlap_fill (A : MatrixCSR)
    (acc : list nat * list nat * list K * nat) (i : nat)
    : list nat * list nat * list K * nat :=
  let '(ia, ja, a, iPrev) := acc in
  (fill_nat ia iPrev (i + 1) (length ja),
   ja ++ map fst (overlap_row A i),
   a ++ map snd (overlap_row A i),
   (i + 1)%nat).

Definition scaleIntoOverlap (A : MatrixCSR) : MatrixCSR :=
  let '(ia, ja, a, iPrev) :=
    foldl (overlap_fill A) (replicate (dof + 1) 0%nat, [], [], 0%nat) intoOverlap in
  {| _sym := _sym A; _ia := fill_nat ia iPrev (dof + 1) (length ja);
     _ja := ja; _a := a |}.

(** The predicate and the replacement of [std::replace_if]. *)
Definition prune_entry (x : K) : K :=
  if Qltb (Kabs x) (1 / (HPDDM_EPS * HPDDM_PEN)) then 0 else x.

Definition prune (n : nat) (v : list K) : list K :=
  map prune_entry (take n v) ++ drop n v.

(** What [solveGEVP] leaves behind: the deflation vectors, [nu], the
    options and the matrix [A]. *)
Record gevp : Type := {
  gevp_ev : list (list K);
  gevp_nu : nat;
  gevp_opt : gmap string Q;
  gevp_A : MatrixCSR
}.

(** Whether the sparsity of [A] is that of the pattern, or of the matrix
    of the subdomain. *)
Definition gevp_free (A : MatrixCSR) (pattern : option MatrixCSR) : bool :=
  match pattern with
  | Some p => sameSparsity p A
  | None => sameSparsity (Subdomain_a P) A
  end.

Definition gevp_rhs (A : MatrixCSR) (B : option MatrixCSR) : MatrixCSR :=
  match B with
  | Some b => b
  | None => scaleIntoOverlap A
  end.

(** What the eigensolver yields for the call of [solveGEVP]. *)
Definition gevp_solved (A : MatrixCSR) (nu : nat) (threshold : Q)
    (B pattern : option MatrixCSR) : list (list K) * nat :=
  Eps_solve threshold dof nu A (gevp_rhs A B) (gevp_free A pattern).

Definition solveGEVP (o : gmap string Q) (A : MatrixCSR) (nu : nat) (threshold : Q)
    (B pattern : option MatrixCSR) : gevp :=
  let free := gevp_free A pattern in
  let '(ev, achieved) := gevp_solved A nu threshold B pattern in
  {| gevp_ev := map (prune dof) (take achieved ev) ++ drop achieved ev;
     gevp_nu := achieved;
     gevp_opt := <["geneo_nu" := inject_Z (Z.of_nat achieved)]> o;
     gevp_A := if free
               then {| _sym := _sym A; _ia := []; _ja := []; _a := _a A |}
               else A |}.

(** Modelled from the spec: the eigensolver [Eps<K>] is declared outside
    of [schwarz.hpp]; it achieves at most the requested number of
    vectors. *)
Definition Eps_bounded : Prop :=
  forall threshold n nu A B free, ((Eps_solve threshold n nu A B free).2 <= nu)%nat.

End GenEO.

(** ** computeError *)

(** Number of leading elements of [l] that satisfy [f]. *)
Fixpoint leading (f : nat -> bool) (l : list nat) : nat :=
  match l with
  | [] => 0
  | c :: l' => if f c then S (leading f l') else 0
  end.

Section ErrorEstimator.

Variables HPDDM_EPS HPDDM_PEN : Q.
Variable exchange : nat -> nat -> list K -> list K.
Variable P : Schwarz.

Local Abbreviation dof := (Subdomain_dof P).
Local Abbreviation A := (Subdomain_a P).

(** [std::upper_bound(ja + lo, ja + hi, v) - ja] on a sorted row: the
    position after the last column that is at most [v]. *)
Definition upper_bound (ja : list nat) (lo hi v : nat) : nat :=
  (lo + leading (fun c => (c <=? v)%nat) (take (hi - lo) (drop lo ja)))%nat.

Definition row_stop (i : nat) : nat :=
  if negb (_sym A)
  then upper_bound (_ja A) (rdn (_ia A) i) (rdn (_ia A) (i + 1)) i
  else rdn (_ia A) (i + 1).

(** The test before [continue].  In a row that stores an entry up to its
    diagonal [stop] is positive; for [stop = 0] the index [stop - 1] of the
    source wraps around, and what is read then is not modelled. *)
Definition row_skipped (i : nat) : bool :=
  Qltb (HPDDM_EPS * HPDDM_PEN) (Kabs (rd (_a A) (row_stop i - 1))).

(** One iteration of the loop over [j]. *)
Definition boundary_test (i : nat) (isBoundaryCond : bool) (j : nat) : bool :=
  if negb isBoundaryCond then isBoundaryCond
  else if negb (i =? rdn (_ja A) j)%nat && Qltb HPDDM_EPS (Kabs (rd (_a A) j))
  then false
  else if (i =? rdn (_ja A) j)%nat && Qltb HPDDM_EPS (Kabs (rd (_a A) j - 1))
  then false
  else isBoundaryCond.

Definition isBoundaryCond (i : nat) : bool :=
  foldl (boundary_test i) true (seq (rdn (_ia A) i) (row_stop i - rdn (_ia A) i)).

(** [storage[k] += v] *)
Definition accumulate (storage : list ul_type) (k : nat) (v : ul_type) : list ul_type :=
  <[k := rd storage k + v]> storage.

(** One iteration of the loop over [nu]. *)
Definition error_rhs (tmp f : list K) (i : nat) (bc : bool)
    (storage : list ul_type) (nu : nat) : list ul_type :=
  let storage1 :=
    if negb bc
    then accumulate storage (2 * nu + 1) (rd (_d P) i * norm (rd tmp (nu * dof + i)))
    else storage in
  if Qltb (HPDDM_EPS * HPDDM_PEN) (Kabs (rd f (nu * dof + i)))
  then accumulate storage1 (2 * nu) (rd (_d P) i * norm (rd f (nu * dof + i) / HPDDM_PEN))
  else accumulate storage1 (2 * nu) (rd (_d P) i * norm (rd f (nu * dof + i))).

(** One iteration of the loop over the rows. *)
Definition error_row (tmp f : list K) (mu : nat) (storage : list ul_type) (i : nat)
    : list ul_type :=
  if row_skipped i then storage
  else foldl (error_rhs tmp f i (isBoundaryCond i)) storage (seq 0 mu).

(** [computeError(x, f, storage, mu)] up to the loop over the rows: the
    sums of this process, which [MPI_Allreduce] then adds over the
    processes before the square roots are taken. *)
Definition computeError (x f : buffer) (mu : nat) (s : state) : list ul_type * state :=
  let s1 := (do_new b_tmp (mu * dof) ;; GMV exchange P x b_tmp mu ;;
             kernel (Eaxpy Wrapper.d__2 f b_tmp) b_tmp
               (fun m => Wrapper.axpy (mu * dof) Wrapper.d__2 (m f) (m b_tmp)))%step s in
  (foldl (error_row (mem s1 b_tmp) (mem s1 f) mu) (replicate (2 * mu) 0) (seq 0 dof), s1).

End ErrorEstimator.

(** ** The coarse correction in terms of [D], [Z] and the coarse solve *)

Section CoarseCorrection.

Variable callSolver : nat -> nat -> list K -> list K.
Variable exchange : nat -> nat -> list K -> list K.
Variable P : Schwarz.

Local Abbreviation dof := (Subdomain_dof P).

Definition dot (n : nat) (u v : list K) : K :=
  Qsum (map (fun i => rd u i * rd v i) (seq 0 n)).

(** [D x], the product with the diagonal scaling. *)
Definition D_mul (x : list K) : list K :=
  map (fun i => rd (_d P) i * rd x i) (seq 0 dof).

(** [Z^T x], one dot product per deflation vector. *)
Definition Zt_mul (x : list K) : list K :=
  map (fun z => dot dof z x) (super_ev P).

(** [Z y], the combination of the deflation vectors. *)
Definition Z_mul (y : list K) : list K :=
  map (fun i => Qsum (map (fun j => rd (nth j (super_ev P) []) i * rd y j)
                        (seq 0 (getLocal P))))
      (seq 0 dof).

(** The coarse right-hand side with the fused unknowns of [out]. *)
Definition fused_rhs (fuse : nat) (out uc : list K) : list K :=
  if (0 <? fuse)%nat then copy_n out dof fuse uc (getLocal P) else uc.

(** The fused unknowns copied back behind the [dof] entries of [out]. *)
Definition fused_sol (fuse : nat) (uc out : list K) : list K :=
  if (0 <? fuse)%nat then copy_n uc (getLocal P) fuse out dof else out.

(** The coarse unknowns [E \ Z^T D x] at communication time [t]. *)
Definition coarse_solution (t fuse : nat) (x out uc : list K) : list K :=
  callSolver t fuse (store_at 0 (Zt_mul (D_mul x)) (fused_rhs fuse out uc)).

(** [out] after the coarse correction of [x]: [Z E \ Z^T D x] on its first
    [dof] entries, scaled and exchanged unless the type is [AD]. *)
Definition coarse_correction (t fuse : nat) (x out uc : list K) : list K :=
  let y := Z_mul (coarse_solution t fuse x out uc) in
  let out1 :=
    if bool_decide (_type P <> AD)
    then copy_n (exchange (S t) 1 (store_at 0 (D_mul y) out)) 0 dof
                (store_at 0 (D_mul y) out) 0
    else store_at 0 y out in
  fused_sol fuse (coarse_solution t fuse x out uc) out1.

(** The calls of a coarse correction on a process with a subdomain. *)
Definition fuse_in_calls (out : buffer) (fuse : nat) : list event :=
  if (0 <? fuse)%nat then [Ecopy_n out b_uc] else [].

Definition fuse_out_calls (out : buffer) (fuse : nat) : list event :=
  if (0 <? fuse)%nat then [Ecopy_n b_uc out] else [].

Definition deflation_calls (in_ : option buffer) (out : buffer) : list event :=
  [Ediag in_ out; Egemv true out b_uc; EcallSolver; Egemv false b_uc out]
    ++ (if bool_decide (_type P <> AD) then [Ediag None out; Eexchange out] else []).

(** Every deflation vector has [dof] entries. *)
Definition ev_wf : Prop := Forall (fun z => length z = dof) (super_ev P).

(** *** The global product and the balancing round *)

(** [out] after [GMV]: the sparse product, scaled and exchanged. *)
Definition GMV_result (t mu : nat) (x y : list K) : list K :=
  let y1 := Wrapper.csrmm dof mu (Subdomain_a P) x y in
  let y2 := Wrapper.diag dof mu (_d P) y1 y1 in
  copy_n (exchange t mu y2) 0 (mu * dof) y2 0.

Definition GMV_calls (in_ out : buffer) : list event :=
  [Ecsrmm in_ out; Ediag None out; Eexchange out].

(** [GMV] as the specification words it: the scaling is applied before
    and after the sparse product. *)
Definition GMV_result_claimed (t mu : nat) (x y : list K) : list K :=
  let x1 := Wrapper.diag dof mu (_d P) x x in
  let y1 := Wrapper.csrmm dof mu (Subdomain_a P) x1 y in
  let y2 := Wrapper.diag dof mu (_d P) y1 y1 in
  copy_n (exchange t mu y2) 0 (mu * dof) y2 0.

(** The coarse correction of the global product of [w]. *)
Definition balancing_term (t mu fuse : nat) (w uc : list K) : list K :=
  let g := GMV_result t mu w (replicate dof 0) in
  coarse_correction (S t) fuse g g uc.

(** [work] after the balancing round: the term is added with the factor
    -1, the value of [d__2]. *)
Definition balanced_work (t mu fuse : nat) (w uc : list K) : list K :=
  Wrapper.axpy dof (- (1)) (balancing_term t mu fuse w uc) w.

(** The round as the specification words it: the product minus its
    coarse correction, with the factor -2. *)
Definition balanced_work_claimed (t mu fuse : nat) (w uc : list K) : list K :=
  let g := GMV_result t mu w (replicate dof 0) in
  let q := coarse_correction (S t) fuse g g uc in
  store_at 0 (map (fun i => - (2) * (rd g i - rd q i) + rd w i) (seq 0 dof)) w.

(** A second reading: the coarse correction of the product, with the
    factor -2. *)
Definition balanced_work_doubled (t mu fuse : nat) (w uc : list K) : list K :=
  Wrapper.axpy dof (- (2)) (balancing_term t mu fuse w uc) w.

Definition balancing_calls (work : buffer) (fuse : nat) : list event :=
  GMV_calls work b_tmp ++ fuse_in_calls b_tmp fuse
    ++ deflation_calls None b_tmp ++ fuse_out_calls b_tmp fuse
    ++ [Eaxpy (- (1)) b_tmp work].

(** *** The calls of [apply] *)

Definition all_deflation_calls (excluded : bool) (in_ : option buffer)
    (out : buffer) (fuse : nat) : list event :=
  fuse_in_calls out fuse
    ++ (if excluded then [EcallSolver] else deflation_calls in_ out)
    ++ fuse_out_calls out fuse.

Definition local_correction_calls (out work : buffer) : list event :=
  [Ecsrmv out work; Ediag None work; Eexchange work]
    ++ (if bool_decide (_type P = OS) then [Ediag None work] else [])
    ++ [Esolve work work; Ediag None work; Eexchange work].

Definition deflated_calls (excluded : bool) (correction : Z)
    (in_ out work : buffer) (fuse : nat) : list event :=
  all_deflation_calls excluded (Some in_) out fuse
    ++ (if excluded then []
        else local_correction_calls out work
               ++ (if (correction =? 2)%Z then balancing_calls work fuse else [])
               ++ [Eaxpy Wrapper.d__1 work out]).

Definition additive_calls (icollective excluded : bool) (in_ out work : buffer)
    (fuse : nat) : list event :=
  if icollective
  then
    fuse_in_calls out fuse
      ++ (if excluded then [EIcallSolver]
          else [Ediag (Some in_) out; Egemv true out b_uc; EIcallSolver])
      ++ fuse_out_calls out fuse
      ++ (if excluded then [EWait]
          else [Esolve work work; EWait; Egemv false b_uc out;
                Eaxpy Wrapper.d__1 work out; Ediag None out; Eexchange out])
  else
    all_deflation_calls excluded (Some in_) out fuse
      ++ (if excluded then []
          else [Esolve work work; Eaxpy Wrapper.d__1 work out;
                Ediag None out; Eexchange out]).

Definition one_level_all_calls (excluded : bool) (in_ out : buffer) : list event :=
  match _type P with
  | NO => [Ecopy_n in_ out]
  | GE | OG => if excluded then [] else [Esolve in_ out; Ediag None out; Eexchange out]
  | OS => if excluded then []
          else [Ediag (Some in_) out; Esolve out out; Ediag None out; Eexchange out]
  | SY | AD | BA => if excluded then [] else [Esolve in_ out; Eexchange out]
  end.

Definition apply_calls (icollective excluded : bool) (correction : Z)
    (in_ out : buffer) (work : option buffer) (fuse : nat) : list event :=
  if negb (super_co P) || (correction =? -1)%Z
  then one_level_all_calls excluded in_ out
  else
    match work with
    | None => []
    | Some w => [Ecopy_n in_ w]
    end
    ++ (if (correction =? 1)%Z
        then additive_calls icollective excluded in_ out (default in_ work) fuse
        else deflated_calls excluded correction in_ out (default in_ work) fuse).

(** The sparse products among the calls: [csrmv] is called by [apply]
    itself, [csrmm] by [GMV] only. *)
Definition is_sparse_product (e : event) : bool :=
  match e with
  | Ecsrmv _ _ | Ecsrmm _ _ => true
  | _ => false
  end.

Definition sparse_products (l : list event) : list event :=
  filter is_sparse_product l.

End CoarseCorrection.

(** ** The single-level branch of [apply], call by call *)

Section OneLevel.

Variable solve : nat -> list K -> list K.
Variable exchange : nat -> nat -> list K -> list K.
Variable P : Schwarz.

Local Abbreviation dof := (Subdomain_dof P).

(** The local solve of [mu] right-hand sides [x], written to [y]. *)
Definition solved (mu : nat) (x y : list K) : list K :=
  copy_n (solve mu x) 0 (mu * dof) y 0.

(** The diagonal scaling of [mu] vectors, in place. *)
Definition rescaled (mu : nat) (y : list K) : list K :=
  Wrapper.diag dof mu (_d P) y y.

(** The halo exchange of [mu] vectors at communication time [t]. *)
Definition exchanged (t mu : nat) (y : list K) : list K :=
  copy_n (exchange t mu y) 0 (mu * dof) y 0.

(** Calls and result of the branch on a process with a subdomain. *)
Definition one_level_calls (in_ out : buffer) : list event :=
  match _type P with
  | NO => [Ecopy_n in_ out]
  | GE | OG => [Esolve in_ out; Ediag None out; Eexchange out]
  | OS => [Ediag (Some in_) out; Esolve out out; Ediag None out; Eexchange out]
  | SY | AD | BA => [Esolve in_ out; Eexchange out]
  end.

Definition one_level_result (t mu : nat) (x y : list K) : list K :=
  match _type P with
  | NO => copy_n x 0 (mu * dof) y 0
  | GE | OG => exchanged t mu (rescaled mu (solved mu x y))
  | OS =>
      let y1 := Wrapper.diag dof mu (_d P) x y in
      exchanged t mu (rescaled mu (solved mu y1 y1))
  | SY | AD | BA => exchanged t mu (solved mu x y)
  end.

(** The same branch as the specification words it: [SY] is listed with
    [OS], scaling before and after the local solve. *)
Definition one_level_calls_claimed (in_ out : buffer) : list event :=
  match _type P with
  | NO => [Ecopy_n in_ out]
  | GE | OG => [Esolve in_ out; Ediag None out; Eexchange out]
  | SY | OS => [Ediag (Some in_) out; Esolve out out; Ediag None out; Eexchange out]
  | AD | BA => [Esolve in_ out; Eexchange out]
  end.

Definition one_level_result_claimed (t mu : nat) (x y : list K) : list K :=
  match _type P with
  | NO => copy_n x 0 (mu * dof) y 0
  | GE | OG => exchanged t mu (rescaled mu (solved mu x y))
  | SY | OS =>
      let y1 := Wrapper.diag dof mu (_d P) x y in
      exchanged t mu (rescaled mu (solved mu y1 y1))
  | AD | BA => exchanged t mu (solved mu x y)
  end.

(** The branch is taken without a coarse operator or with correction -1. *)
Definition one_level (s : state) : Prop :=
  super_co P = false \/ correction_of (opt s) = (-1)%Z.

End OneLevel.

(** ** A subdomain of one unknown

    The matrix is [(2)], the scaling [(1/2)], the deflation vector [(1)];
    the coarse operator is then [(2)].  There is no neighbour, so that the
    halo exchange leaves a vector as it is. *)

Module Example.

Definition A1 : MatrixCSR :=
  {| _sym := false; _ia := [0; 1]%nat; _ja := [0%nat]; _a := [2] |}.

Definition P1 (t : Prcndtnr) : Schwarz :=
  {| Subdomain_dof := 1; Subdomain_a := A1; Subdomain_map := [];
     super_ev := [[1]]; super_co := true; _d := [1 # 2]; _type := t |}.

Definition half (v : list K) : list K := map (fun x => Qred (x / 2)) v.

Definition solve1 (mu : nat) (v : list K) : list K := half v.
Definition callSolver1 (t fuse : nat) (v : list K) : list K := half v.
Definition exchange1 (t mu : nat) (v : list K) : list K := v.

Definition mem1 (b : buffer) : list K :=
  match b with
  | b_in => [1]
  | b_out | b_work | b_uc => [0]
  | b_tmp => []
  end.

(** The options hold [schwarz_coarse_correction = c]. *)
Definition state1 (c : Q) : state :=
  {| mem := mem1; opt := {["schwarz_coarse_correction" := c]};
     pending := None; clock := 0; trace := [] |}.

Definition apply1 (t : Prcndtnr) (c : Q) (work : option buffer) : state :=
  apply solve1 callSolver1 exchange1 false (P1 t) false b_in b_out 1 work 0 (state1 c).

End Example.

(** ** Frames and calls *)

(** The step [f] leaves the buffer [b] as it is. *)
Definition preserves (b : buffer) (f : step) : Prop :=
  forall s, mem (f s) b = mem s b.

(** The step [f] issues the calls [l], in this order. *)
Definition issues (f : step) (l : list event) : Prop :=
  forall s, trace (f s) = trace s ++ l.

(** ** The state of the example before the balancing round *)

Module ExampleRound.

Import Example.

(** [apply] with correction 2 and a work buffer, up to the local solve of
    the residual. *)
Definition before : state :=
  (do_copy_n b_in 0 1 b_work 0 ;;
   deflation callSolver1 exchange1 (P1 GE) false (Some b_in) b_out 0 ;;
   local_correction solve1 exchange1 (P1 GE) b_out b_work)%step (state1 2).

End ExampleRound.

(** ** A subdomain of two unknowns for the eigensolver *)

Module ExampleGEVP.

(** The values of the macros [HPDDM_EPS] and [HPDDM_PEN]. *)
Definition EPS : Q := 1 # 1000000000000.
Definition PEN : Q := 1000000000000000000000000000000 # 1.

Definition A2 : MatrixCSR :=
  {| _sym := false; _ia := [0; 1; 2]%nat; _ja := [0; 1]%nat; _a := [1; 1] |}.

Definition P2 : Schwarz :=
  {| Subdomain_dof := 2; Subdomain_a := A2; Subdomain_map := [];
     super_ev := []; super_co := false; _d := [1; 1]; _type := GE |}.

(** An eigensolver that finds one vector, whose second entry is tiny. *)
Definition Eps1 (threshold : Q) (n nu : nat) (A B : MatrixCSR) (free : bool)
    : list (list K) * nat :=
  ([[1; 1 # 100000000000000000000]; [0; 0]], Nat.min nu 1).

Definition same (A B : MatrixCSR) : bool := false.

End ExampleGEVP.

(** ** The sums of [computeError], row by row *)

Section ErrorTerms.

Variables HPDDM_EPS HPDDM_PEN : Q.
Variable exchange : nat -> nat -> list K -> list K.
Variable P : Schwarz.

Local Abbreviation dof := (Subdomain_dof P).
Local Abbreviation A := (Subdomain_a P).

(** [tmp] when the loop starts: the global product of [x] less [f]. *)
Definition residual (t mu : nat) (x f : list K) : list K :=
  Wrapper.axpy (mu * dof) (- (1)) f
    (GMV_result exchange P t mu x (replicate (mu * dof) 0)).

(** What the loop over [nu] adds to [storage[2 nu]] and to
    [storage[2 nu + 1]] for the row [i], a boundary row or not. *)
Definition row_rhs (f : list K) (i nu : nat) : ul_type :=
  if Qltb (HPDDM_EPS * HPDDM_PEN) (Kabs (rd f (nu * dof + i)))
  then rd (_d P) i * norm (rd f (nu * dof + i) / HPDDM_PEN)
  else rd (_d P) i * norm (rd f (nu * dof + i)).

Definition row_res (tmp : list K) (i : nat) (bc : bool) (nu : nat) : ul_type :=
  if bc then 0 else rd (_d P) i * norm (rd tmp (nu * dof + i)).

(** What row [i] adds to [storage[2 nu]] and to [storage[2 nu + 1]]. *)
Definition rhs_term (f : list K) (nu i : nat) : ul_type :=
  if row_skipped HPDDM_EPS HPDDM_PEN P i then 0
  else if Qltb (HPDDM_EPS * HPDDM_PEN) (Kabs (rd f (nu * dof + i)))
  then rd (_d P) i * norm (rd f (nu * dof + i) / HPDDM_PEN)
  else rd (_d P) i * norm (rd f (nu * dof + i)).

Definition res_term (r : list K) (nu i : nat) : ul_type :=
  if row_skipped HPDDM_EPS HPDDM_PEN P i then 0
  else if isBoundaryCond HPDDM_EPS P i then 0
  else rd (_d P) i * norm (rd r (nu * dof + i)).

(** The entries of row [i] that the loop over [j] inspects: those up to
    [row_stop]. *)
Definition inspected (i : nat) : list nat :=
  seq (rdn (_ia A) i) (row_stop P i - rdn (_ia A) i).

(** The entry at position [j] is as in a row of the identity. *)
Definition boundary_entry (i j : nat) : Prop :=
  (i <> rdn (_ja A) j -> Kabs (rd (_a A) j) <= HPDDM_EPS)
  /\ (i = rdn (_ja A) j -> Kabs (rd (_a A) j - 1) <= HPDDM_EPS).

Definition boundary_entryb (i j : nat) : bool :=
  negb (negb (i =? rdn (_ja A) j)%nat && Qltb HPDDM_EPS (Kabs (rd (_a A) j)))
  && negb ((i =? rdn (_ja A) j)%nat && Qltb HPDDM_EPS (Kabs (rd (_a A) j - 1))).

(** The rows as the specification words them: a row is a boundary row
    when all its entries are as in a row of the identity; a boundary row
    adds [f / HPDDM_PEN] to the first sum and nothing to the second, any
    other row adds its raw values to both. *)
Definition boundary_claimed (i : nat) : bool :=
  forallb (boundary_entryb i) (row_range A i).

Definition rhs_term_claimed (f : list K) (nu i : nat) : ul_type :=
  if boundary_claimed i
  then rd (_d P) i * norm (rd f (nu * dof + i) / HPDDM_PEN)
  else rd (_d P) i * norm (rd f (nu * dof + i)).

Definition res_term_claimed (r : list K) (nu i : nat) : ul_type :=
  if boundary_claimed i then 0 else rd (_d P) i * norm (rd r (nu * dof + i)).

(** *** The rows in terms of the position of their diagonal entry *)

(** Row [i] lies within the arrays of the matrix, its column indices
    increase, and its diagonal entry is stored, at the position [p]; with
    [_sym] the row stores no column beyond the diagonal. *)
Definition row_wf (i p : nat) : Prop :=
  let lo := rdn (_ia A) i in
  let hi := rdn (_ia A) (i + 1) in
  (lo <= p < hi)%nat
  /\ (hi <= length (_ja A))%nat /\ (hi <= length (_a A))%nat
  /\ rdn (_ja A) p = i
  /\ (forall q q', (lo <= q)%nat -> (q < q')%nat -> (q' < hi)%nat ->
        (rdn (_ja A) q < rdn (_ja A) q')%nat)
  /\ (_sym A = true -> forall q, (lo <= q < hi)%nat -> (rdn (_ja A) q <= i)%nat).

(** The positions of the entries of row [i] before its diagonal entry at
    the position [p]. *)
Definition before_diagonal (i p : nat) : list nat :=
  seq (rdn (_ia A) i) (p - rdn (_ia A) i).

(** The entry at the position [p] exceeds [HPDDM_EPS * HPDDM_PEN] in
    magnitude. *)
Definition diagonal_exceeds (p : nat) : bool :=
  Qltb (HPDDM_EPS * HPDDM_PEN) (Kabs (rd (_a A) p)).

(** Up to its diagonal entry at the position [p], row [i] is a row of the
    identity within [HPDDM_EPS]. *)
Definition identity_up_to (i p : nat) : bool :=
  forallb (fun j => Qle_bool (Kabs (rd (_a A) j)) HPDDM_EPS) (before_diagonal i p)
  && Qle_bool (Kabs (rd (_a A) p - 1)) HPDDM_EPS.

(** What row [i], with its diagonal entry at the position [pos i], adds to
    [storage[2 nu]] and to [storage[2 nu + 1]]. *)
Definition rhs_row (pos : nat -> nat) (f : list K) (nu i : nat) : ul_type :=
  if diagonal_exceeds (pos i) then 0 else row_rhs f i nu.

Definition res_row (pos : nat -> nat) (r : list K) (nu i : nat) : ul_type :=
  if diagonal_exceeds (pos i) || identity_up_to i (pos i) then 0
  else rd (_d P) i * norm (rd r (nu * dof + i)).

End ErrorTerms.

(** ** A subdomain of one unknown whose row is a row of the identity *)

Module ExampleError.

Definition EPS : Q := 1 # 1000000000000.
Definition PEN : Q := 1000000000000000000000000000000 # 1.

Definition I1 : MatrixCSR :=
  {| _sym := false; _ia := [0; 1]%nat; _ja := [0%nat]; _a := [1] |}.

Definition P3 : Schwarz :=
  {| Subdomain_dof := 1; Subdomain_a := I1; Subdomain_map := [];
     super_ev := []; super_co := false; _d := [1]; _type := GE |}.

(** The solution [x] is in [b_in], the right-hand side [f] in [b_work]. *)
Definition mem3 (b : buffer) : list K :=
  match b with
  | b_in => [1]
  | b_work => [1]
  | _ => []
  end.

Definition state3 : state :=
  {| mem := mem3; opt := ∅; pending := None; clock := 0; trace := [] |}.

Definition sums : list ul_type :=
  (computeError EPS PEN Example.exchange1 P3 b_in b_work 1 state3).1.

(** The same subdomain with the penalty on the diagonal, the solution 0 and
    the right-hand side 1. *)
Definition T1 : MatrixCSR :=
  {| _sym := false; _ia := [0; 1]%nat; _ja := [0%nat]; _a := [PEN] |}.

Definition P4 : Schwarz :=
  {| Subdomain_dof := 1; Subdomain_a := T1; Subdomain_map := [];
     super_ev := []; super_co := false; _d := [1]; _type := GE |}.

Definition mem4 (b : buffer) : list K :=
  match b with
  | b_in => [0]
  | b_work => [1]
  | _ => []
  end.

Definition state4 : state :=
  {| mem := mem4; opt := ∅; pending := None; clock := 0; trace := [] |}.

Definition sums4 : list ul_type :=
  (computeError EPS PEN Example.exchange1 P4 b_in b_work 1 state4).1.

(** A subdomain of two unknowns: the first row is a row of the identity up
    to its diagonal entry and holds the entry 5 behind it; the second row
    is a row of the identity.  The solution is 0 and the right-hand side
    1. *)
Definition U2 : MatrixCSR :=
  {| _sym := false; _ia := [0; 2; 3]%nat; _ja := [0; 1; 1]%nat; _a := [1; 5; 1] |}.

Definition P6 : Schwarz :=
  {| Subdomain_dof := 2; Subdomain_a := U2; Subdomain_map := [];
     super_ev := []; super_co := false; _d := [1; 1]; _type := GE |}.

(** The positions of the diagonal entries of [U2]. *)
Definition pos6 (i : nat) : nat :=
  match i with
  | 0%nat => 0%nat
  | _ => 2%nat
  end.

Definition mem6 (b : buffer) : list K :=
  match b with
  | b_in => [0; 0]
  | b_work => [1; 1]
  | _ => []
  end.

Definition state6 : state :=
  {| mem := mem6; opt := ∅; pending := None; clock := 0; trace := [] |}.

Definition sums6 : list ul_type :=
  (computeError EPS PEN Example.exchange1 P6 b_in b_work 1 state6).1.

End ExampleError.

(** ** The decomposition behind the neighbour maps *)

Section Decomposition.

(** The processes by rank, each with its object and its array before the
    call, and the global unknown [glob i a] that the index [a] of the
    process [i] stands for. *)
Variable world : list (Schwarz * list ul_type).
Variable glob : nat -> nat -> nat.

Definition dof_of (i : nat) : nat :=
  match world !! i with
  | Some (P, _) => Subdomain_dof P
  | None => 0%nat
  end.

Definition map_of (i : nat) : list (nat * list nat) :=
  match world !! i with
  | Some (P, _) => Subdomain_map P
  | None => []
  end.

Definition init_of (i : nat) : list ul_type :=
  match world !! i with
  | Some (_, d) => d
  | None => []
  end.

(** The indices that the process [p] lists for its neighbour [i]. *)
Definition list_for (p i : nat) : list nat :=
  match find (fun nb : nat * list nat => (nb.1 =? i)%nat) (map_of p) with
  | Some nb => nb.2
  | None => []
  end.

(** The indices of the process [p] that stand for the global unknown [g],
    and the unknowns of all processes that do. *)
Definition locals (p g : nat) : list nat :=
  List.filter (fun b => (glob p b =? g)%nat) (seq 0 (dof_of p)).

Definition owners (g : nat) : list (nat * nat) :=
  flat_map (fun p => map (pair p) (locals p g)) (seq 0 (length world)).

(** The sum over the owners of [g] of their entries in the arrays [vals]. *)
Definition sum_over (vals : nat -> list ul_type) (g : nat) : ul_type :=
  Qsum (map (fun pb : nat * nat => rd (vals pb.1) pb.2) (owners g)).

(** The neighbour maps are those of a decomposition: an array has [dof]
    entries; a list holds no index twice and a map no neighbour twice; an
    index stands for one global unknown; the lists that two neighbours
    keep for each other name the same global unknowns in the same order;
    and two processes that share a global unknown are neighbours that
    list it. *)
Record decomposition_wf : Prop := {
  wf_length : forall i, length (init_of i) = dof_of i;
  wf_lists : forall i, map_wf (map_of i);
  wf_ranks : forall i, List.NoDup (map fst (map_of i));
  wf_inj : forall i a b,
    (a < dof_of i)%nat -> (b < dof_of i)%nat -> glob i a = glob i b -> a = b;
  wf_pair : forall i p idxs,
    In (p, idxs) (map_of i) ->
    p <> i
    /\ length (list_for p i) = length idxs
    /\ forall j, (j < length idxs)%nat ->
         (rdn idxs j < dof_of i)%nat
         /\ (rdn (list_for p i) j < dof_of p)%nat
         /\ glob p (rdn (list_for p i) j) = glob i (rdn idxs j);
  wf_complete : forall i p a b,
    i <> p -> (a < dof_of i)%nat -> (b < dof_of p)%nat -> glob i a = glob p b ->
    exists idxs, In (p, idxs) (map_of i) /\ In a idxs
}.

(** Every receive completes once. *)
Definition orders_wf (orders : nat -> list nat) : Prop :=
  forall i, Permutation (orders i) (seq 0 (length (map_of i))).

Definition init_nonneg : Prop :=
  forall i, Forall (fun x => 0 <= x) (init_of i).

(** The sum over the indices of the process [p] that stand for [g] of
    their entries in the arrays [vals]. *)
Definition share_of (vals : nat -> list ul_type) (g p : nat) : ul_type :=
  Qsum (map (rd (vals p)) (locals p g)).

(** What the process [i] receives for its index [a] from the neighbour
    of the entry [nb] of its map. *)
Definition received_entry (i a : nat) (nb : nat * list nat) : list ul_type :=
  flat_map (fun j => if (rdn nb.2 j =? a)%nat
                     then [rd (gthr (init_of nb.1) (list_for nb.1 i)) j] else [])
           (seq 0 (length nb.2)).

(** The entry lists the index [a]. *)
Definition lists_index (a : nat) (nb : nat * list nat) : bool :=
  existsb (Nat.eqb a) nb.2.

(** The process [q] is another owner of [g] than [i]. *)
Definition other_owner (i g q : nat) : bool :=
  negb (q =? i)%nat && match locals q g with [] => false | _ => true end.

End Decomposition.

(** ** A subdomain of two unknowns with one neighbour *)

Module ExampleScaling.

Definition EPS : Q := 1 # 1000000000000.

(** Rank 0 shares its index 1 with rank 1, which shares its index 0. *)
Definition P0 : Schwarz :=
  {| Subdomain_dof := 2; Subdomain_a := Example.A1; Subdomain_map := [(1%nat, [1%nat])];
     super_ev := []; super_co := false; _d := []; _type := GE |}.

Definition P1 : Schwarz :=
  {| Subdomain_dof := 2; Subdomain_a := Example.A1; Subdomain_map := [(0%nat, [0%nat])];
     super_ev := []; super_co := false; _d := []; _type := GE |}.

(** Both arrays hold 1 everywhere. *)
Definition world : list (Schwarz * list ul_type) := [(P0, [1; 1]); (P1, [1; 1])].

(** The weights of both ranks on the shared unknown are 0 beforehand. *)
Definition world00 : list (Schwarz * list ul_type) := [(P0, [1; 0]); (P1, [0; 1])].

(** The weights on the shared unknown are 2 on rank 0 and 49 on rank 1
    beforehand. *)
Definition world2_49 : list (Schwarz * list ul_type) := [(P0, [1; 2]); (P1, [49; 1])].

(** Each rank waits for its one neighbour. *)
Definition orders (i : nat) : list nat :=
  if (i <? 2)%nat then [0%nat] else [].

(** Index 1 of rank 0 and index 0 of rank 1 are the global unknown 1. *)
Definition glob (i a : nat) : nat :=
  match i with
  | 0%nat => a
  | _ => S a
  end.

(** A process that shares its index 0 with two neighbours. *)
Definition Pmid : Schwarz :=
  {| Subdomain_dof := 2; Subdomain_a := Example.A1;
     Subdomain_map := [(1%nat, [0%nat]); (2%nat, [0%nat])];
     super_ev := []; super_co := false; _d := []; _type := GE |}.

End ExampleScaling.

(** ** callNumfact *)

(** The object with another type. *)
Definition with_type (P : Schwarz) (t : Prcndtnr) : Schwarz :=
  {| Subdomain_dof := Subdomain_dof P; Subdomain_a := Subdomain_a P;
     Subdomain_map := Subdomain_map P; super_ev := super_ev P;
     super_co := super_co P; _d := _d P; _type := t |}.

(** The arguments of a call of [super::_s.numfact]: the matrix to
    factorize, where [None] is a null pointer, and the flag that follows
    it. *)
Record numfact_call : Type := {
  numfact_matrix : option MatrixCSR;
  numfact_detection : bool
}.

Section ModeSelector.

(** The value of a key that is entered by a reference to it; it is left
    open. *)
Variable unset : Q.

(** Modelled from the spec: the class [Option] is declared outside of
    [schwarz.hpp].  [opt[key]] on the table [Option& opt] yields a reference
    to the value of [key], as the map that holds the options does: the
    table after the access and the value that the reference designates; a
    key that is not set is entered, with the value [unset]. *)
Definition Option_ref (o : gmap string Q) (key : string) : gmap string Q * Q :=
  match o !! key with
  | Some v => (o, v)
  | None => (<[key := unset]> o, unset)
  end.

(** [callNumfact(A)], where [None] is the default argument [nullptr]: the
    options, the object and the call of the local solver. *)
Definition callNumfact (A : option MatrixCSR) (o : gmap string Q) (P : Schwarz)
    : gmap string Q * Schwarz * numfact_call :=
  let '(o', t) :=
    match A with
    | Some _ =>
        let '(o1, v) := Option_ref o "schwarz_method" in
        (o1, if Qeq_bool v 1 then OS else OG)
    | None =>
        let '(o1, v) := Option_ref o "schwarz_method" in
        if Qeq_bool v 3 then (o1, SY)
        else
          let '(o2, v') := Option_ref o1 "schwarz_method" in
          if Qeq_bool v' 5 then (o2, NO)
          else (<["schwarz_method" := 0]> (Option_ref o2 "schwarz_method").1, GE)
    end in
  (o', with_type P t,
   {| numfact_matrix :=
        if bool_decide (t = OS) || bool_decide (t = OG) then A
        else Some (Subdomain_a P);
      numfact_detection := bool_decide (t = OS) |}).

End ModeSelector.

(** ** The two-level branches of [apply], value by value *)

(** A call that works on the vectors of the subdomain: everything but the
    copies of [std::copy_n], the coarse solves and the waits. *)
Definition is_local_call (e : event) : bool :=
  match e with
  | Ecopy_n _ _ | EcallSolver | EIcallSolver | EWait => false
  | _ => true
  end.


Section TwoLevel.

Variable solve : nat -> list K -> list K.
Variables callSolver exchange : nat -> nat -> list K -> list K.
Variable P : Schwarz.

Local Abbreviation dof := (Subdomain_dof P).

(** The work vector when the branch starts: the input itself, or the
    buffer of the caller with the first [dof] entries of the input. *)
Definition work_of (work : option (list K)) (x : list K) : list K :=
  match work with
  | None => x
  | Some w => copy_n x 0 dof w 0
  end.

(** The communication time after [deflation] on a process with a
    subdomain: one coarse solve and, unless the type is [AD], one
    exchange. *)
Definition after_deflation (t : nat) : nat :=
  if bool_decide (_type P <> AD) then (t + 2)%nat else (t + 1)%nat.

(** [out] at the end of the branch of correction 1 without
    [HPDDM_ICOLLECTIVE]: the local solution of [w] is added to the coarse
    correction [q], the sum is scaled and exchanged. *)
Definition additive_result (t : nat) (w q : list K) : list K :=
  exchanged exchange P t 1
    (rescaled P 1 (Wrapper.axpy dof 1 (solved solve P 1 w w) q)).

(** [work] after the local correction: the residual [w - A q] of the
    coarse correction [q] is scaled and exchanged, scaled once more for the
    type [OS], solved for, scaled and exchanged. *)
Definition local_correction_result (t : nat) (w q : list K) : list K :=
  let r := Wrapper.csrmv dof (- (1)) (Subdomain_a P) q 1 w in
  let r1 := exchanged exchange P t 1 (rescaled P 1 r) in
  let r2 := if bool_decide (_type P = OS) then rescaled P 1 r1 else r1 in
  let z := solved solve P 1 r2 r2 in
  exchanged exchange P (S t) 1 (rescaled P 1 z).

End TwoLevel.

(** ** The rows of a matrix *)

(** The stored entries of row [i]: column and value. *)
Definition csr_row (B : MatrixCSR) (i : nat) : list (nat * K) :=
  map (fun p => (rdn (_ja B) p, rd (_a B) p)) (row_range B i).

(** ** A subdomain of two unknowns whose second unknown is shared *)

Module ExampleOverlap.

Definition EPS : Q := 1 # 1000000000000.
Definition PEN : Q := 1000000000000000000000000000000 # 1.

Definition A3 : MatrixCSR :=
  {| _sym := false; _ia := [0; 2; 4]%nat; _ja := [0; 1; 0; 1]%nat;
     _a := [2; - (1); - (1); 2] |}.

Definition P5 : Schwarz :=
  {| Subdomain_dof := 2; Subdomain_a := A3; Subdomain_map := [(1%nat, [1%nat])];
     super_ev := []; super_co := false; _d := [1; 1 # 2]; _type := GE |}.

End ExampleOverlap.

(** * Properties *)

(** ** Arrays *)

Lemma Qmult_1_l_eq (q : Q) : 1 * q = q.
Proof. destruct q as [n d]. unfold Qmult. simpl. f_equal. destruct n; reflexivity. Qed.

Lemma store_at_0 (vals dst : list K) :
  store_at 0 vals dst = vals ++ drop (length vals) dst.
Proof. reflexivity. Qed.

Lemma length_store_at_0 (vals dst : list K) :
  length (store_at 0 vals dst) = Nat.max (length vals) (length dst).
Proof. rewrite store_at_0, length_app, length_drop. lia. Qed.

Lemma rd_nil (i : nat) : rd [] i = 0.
Proof. now destruct i. Qed.

Lemma rd_app_l (u v : list K) (i : nat) :
  (i < length u)%nat -> rd (u ++ v) i = rd u i.
Proof. intros H. unfold rd. now rewrite app_nth1. Qed.

Lemma rd_app_r (u v : list K) (i : nat) :
  rd (u ++ v) (length u + i) = rd v i.
Proof. unfold rd. now rewrite app_nth2_plus. Qed.

Lemma rd_store_at_0 (vals dst : list K) (i : nat) :
  (i < length vals)%nat -> rd (store_at 0 vals dst) i = rd vals i.
Proof. intros H. rewrite store_at_0. now apply rd_app_l. Qed.

Lemma store_at_0_twice (a b l : list K) :
  length a = length b -> store_at 0 a (store_at 0 b l) = store_at 0 a l.
Proof.
  intros H. rewrite !store_at_0. f_equal.
  now rewrite H, drop_app_length.
Qed.

Lemma map_nth_seq {X Y : Type} (f : X -> Y) (l : list X) (d : X) :
  map (fun j => f (nth j l d)) (seq 0 (length l)) = map f l.
Proof.
  induction l as [|a l IH]; [reflexivity|].
  cbn [length seq map nth]. f_equal.
  rewrite <- seq_shift, map_map. exact IH.
Qed.

(** Entry [i] of vector [j] in the array of the vectors. *)
Lemma rd_concat (m : nat) (ev : list (list K)) (i j : nat) :
  Forall (fun z => length z = m) ev -> (i < m)%nat ->
  rd (concat ev) (i + j * m) = rd (nth j ev []) i.
Proof.
  intros Hev Hi. revert j.
  induction Hev as [|z ev Hz _ IH]; intros j.
  - cbn [concat]. rewrite !rd_nil. destruct j; cbn [nth]; now rewrite rd_nil.
  - destruct j as [|j]; cbn [concat nth].
    + rewrite Nat.add_0_r. apply rd_app_l. lia.
    + replace (i + S j * m)%nat with (length z + (i + j * m))%nat by lia.
      rewrite rd_app_r. apply IH.
Qed.

(** ** Kernels against the linear algebra *)

Section KernelFacts.

Variable P : Schwarz.

Local Abbreviation dof := (Subdomain_dof P).

Lemma length_D_mul (x : list K) : length (D_mul P x) = dof.
Proof. unfold D_mul. now rewrite length_map, length_seq. Qed.

Lemma length_Z_mul (y : list K) : length (Z_mul P y) = dof.
Proof. unfold Z_mul. now rewrite length_map, length_seq. Qed.

Lemma length_Zt_mul (x : list K) : length (Zt_mul P x) = getLocal P.
Proof. unfold Zt_mul, getLocal. now rewrite length_map. Qed.

(** [D] only reads the first [dof] entries. *)
Lemma D_mul_store_at (y dst : list K) :
  length y = dof -> D_mul P (store_at 0 y dst) = D_mul P y.
Proof.
  intros Hy. unfold D_mul. apply map_ext_in. intros i Hi.
  apply in_seq in Hi. rewrite rd_store_at_0 by lia. reflexivity.
Qed.

Lemma Zt_mul_store_at (y dst : list K) :
  length y = dof -> Zt_mul P (store_at 0 y dst) = Zt_mul P y.
Proof.
  intros Hy. unfold Zt_mul, dot. apply map_ext. intros z. f_equal.
  apply map_ext_in. intros i Hi.
  apply in_seq in Hi. rewrite rd_store_at_0 by lia. reflexivity.
Qed.

(** The scaling kernel on one vector is the product with [D]. *)
Lemma diag_one (src dst : list K) :
  Wrapper.diag dof 1 (_d P) src dst = store_at 0 (D_mul P src) dst.
Proof.
  unfold Wrapper.diag, D_mul. rewrite Nat.mul_1_r. f_equal.
  apply map_ext_in. intros i Hi. apply in_seq in Hi.
  rewrite Nat.mod_small by lia. reflexivity.
Qed.

(** [gemv] with [transc] on the array of the vectors is [Z^T]. *)
Lemma gemv_T_ev (x y : list K) :
  ev_wf P ->
  Wrapper.gemv true dof (getLocal P) Wrapper.d__1 (ev_array P) dof x Wrapper.d__0 y
  = store_at 0 (Zt_mul P x) y.
Proof.
  intros Hwf. unfold Wrapper.gemv, Zt_mul, getLocal, ev_array.
  change (Qeq_bool Wrapper.d__0 0) with true. cbn iota. f_equal.
  rewrite <- (map_nth_seq (fun z => dot dof z x) (super_ev P) []).
  apply map_ext. intros j. unfold Wrapper.d__1. rewrite Qmult_1_l_eq.
  unfold Wrapper.col_dot, dot. f_equal.
  apply map_ext_in. intros i Hi. apply in_seq in Hi.
  rewrite (rd_concat dof) by (assumption || lia). reflexivity.
Qed.

(** [gemv] with [transa] on the array of the vectors is [Z]. *)
Lemma gemv_N_ev (x y : list K) :
  ev_wf P ->
  Wrapper.gemv false dof (getLocal P) Wrapper.d__1 (ev_array P) dof x Wrapper.d__0 y
  = store_at 0 (Z_mul P x) y.
Proof.
  intros Hwf. unfold Wrapper.gemv, Z_mul, ev_array.
  change (Qeq_bool Wrapper.d__0 0) with true. cbn iota. f_equal.
  apply map_ext_in. intros i Hi. apply in_seq in Hi.
  unfold Wrapper.d__1. rewrite Qmult_1_l_eq.
  unfold Wrapper.row_dot. f_equal.
  apply map_ext. intros j.
  rewrite (rd_concat dof) by (assumption || lia). reflexivity.
Qed.

End KernelFacts.

(** ** Reading the store *)

Ltac unfold_steps :=
  unfold deflation, Ideflation, GMV, fuse_in, fuse_out, do_copy_n, do_diag,
    do_gemv_T, do_gemv_N, do_axpy, do_csrmv, do_csrmm, do_solve, do_exchange,
    do_callSolver, do_IcallSolver, do_Wait, do_new, when, seq_step, skip, kernel, comm;
  cbn [mem opt pending clock trace].

Ltac mem_simpl :=
  repeat first
    [ rewrite fn_lookup_insert
    | rewrite fn_lookup_insert_ne by congruence ].

(** ** The calls of a step *)

Lemma issues_skip : issues skip [].
Proof. intros s. unfold skip. now rewrite app_nil_r. Qed.

Lemma issues_seq (f g : step) (l1 l2 : list event) :
  issues f l1 -> issues g l2 -> issues (seq_step f g) (l1 ++ l2).
Proof. intros Hf Hg s. unfold seq_step. now rewrite Hg, Hf, app_assoc. Qed.

Lemma issues_when (c : bool) (f : step) (l : list event) :
  issues f l -> issues (when c f) (if c then l else []).
Proof. intros Hf. destruct c; [exact Hf | apply issues_skip]. Qed.

Lemma issues_if (c : bool) (f g : step) (l1 l2 : list event) :
  issues f l1 -> issues g l2 -> issues (if c then f else g) (if c then l1 else l2).
Proof. now destruct c. Qed.

Lemma issues_kernel (e : event) (b : buffer) v : issues (kernel e b v) [e].
Proof. now intros s. Qed.

Lemma issues_comm (e : event) (b : buffer) v : issues (comm e b v) [e].
Proof. now intros s. Qed.

Lemma issues_new (b : buffer) (n : nat) : issues (do_new b n) [].
Proof. intros s. unfold do_new. cbn [trace]. now rewrite app_nil_r. Qed.

Lemma issues_IcallSolver callSolver (fuse : nat) :
  issues (do_IcallSolver callSolver fuse) [EIcallSolver].
Proof. now intros s. Qed.

Lemma issues_Wait : issues do_Wait [EWait].
Proof. now intros s. Qed.

Lemma issues_eq (f : step) (l l' : list event) :
  issues f l -> l = l' -> issues f l'.
Proof. now intros H <-. Qed.

Ltac issues_step :=
  lazymatch goal with
  | |- issues (seq_step _ _) _ => eapply issues_seq
  | |- issues (when _ _) _ => eapply issues_when
  | |- issues (if _ then _ else _) _ => eapply issues_if
  | |- issues (kernel _ _ _) _ => apply issues_kernel
  | |- issues (comm _ _ _) _ => apply issues_comm
  | |- issues (do_new _ _) _ => apply issues_new
  | |- issues (do_IcallSolver _ _) _ => apply issues_IcallSolver
  | |- issues do_Wait _ => apply issues_Wait
  | |- issues skip _ => apply issues_skip
  end.

Ltac issues_prim :=
  unfold fuse_in, fuse_out, do_copy_n, do_diag, do_gemv_T, do_gemv_N, do_axpy,
    do_csrmv, do_csrmm, do_solve, do_exchange, do_callSolver;
  repeat issues_step.

Lemma deflation_issues callSolver exchange (P : Schwarz) (excluded : bool)
    (in_ : option buffer) (out : buffer) (fuse : nat) :
  issues (deflation callSolver exchange P excluded in_ out fuse)
         (all_deflation_calls P excluded in_ out fuse).
Proof.
  eapply issues_eq; [unfold deflation; issues_prim|].
  unfold all_deflation_calls, fuse_in_calls, fuse_out_calls, deflation_calls.
  now destruct (0 <? fuse)%nat, excluded, (bool_decide (_type P <> AD)).
Qed.

Lemma GMV_issues exchange (P : Schwarz) (in_ out : buffer) (mu : nat) :
  issues (GMV exchange P in_ out mu) (GMV_calls in_ out).
Proof. eapply issues_eq; [unfold GMV; issues_prim|]. reflexivity. Qed.

(** ** deflation *)

Lemma deflation_value
    (callSolver exchange : nat -> nat -> list K -> list K) (P : Schwarz)
    (in_ : option buffer) (out : buffer) (fuse : nat) (s : state) :
  ev_wf P -> out <> b_uc -> in_ <> Some b_uc ->
  mem (deflation callSolver exchange P false in_ out fuse s) out
  = coarse_correction callSolver exchange P (clock s) fuse
      (mem s (default out in_)) (mem s out) (mem s b_uc).
Proof.
  intros Hwf Hout Hin.
  unfold coarse_correction, coarse_solution, fused_rhs, fused_sol. unfold_steps.
  assert (Hx : default out in_ <> b_uc) by (destruct in_; cbn; congruence).
  generalize dependent (default out in_). intros bx Hx.
  destruct (0 <? fuse)%nat, (bool_decide (_type P <> AD)); unfold_steps; mem_simpl.
  all: rewrite ?diag_one, ?gemv_T_ev, ?gemv_N_ev by assumption.
  all: rewrite ?Zt_mul_store_at by apply length_D_mul.
  all: rewrite ?store_at_0_twice
         by (rewrite ?length_Z_mul, ?length_D_mul; reflexivity).
  all: rewrite ?D_mul_store_at by apply length_Z_mul.
  all: rewrite ?store_at_0_twice
         by (rewrite ?length_Z_mul, ?length_D_mul; reflexivity).
  all: rewrite ?Nat.mul_1_l; reflexivity.
Qed.

Lemma deflation_excluded_value
    (callSolver exchange : nat -> nat -> list K -> list K) (P : Schwarz)
    (in_ : option buffer) (out : buffer) (fuse : nat) (s : state) :
  out <> b_uc ->
  let s' := deflation callSolver exchange P true in_ out fuse s in
  mem s' b_uc = callSolver (clock s) fuse (fused_rhs P fuse (mem s out) (mem s b_uc))
  /\ mem s' out = fused_sol P fuse (mem s' b_uc) (mem s out).
Proof.
  intros Hout. unfold fused_rhs, fused_sol. unfold_steps.
  destruct (0 <? fuse)%nat; unfold_steps; mem_simpl; auto.
Qed.

(** C1: on a process with a subdomain [deflation] scales the input by
    [D], reduces it with [Z^T], calls the coarse solver, projects back with
    [Z] and, exactly when the type is not [AD], scales [out] again and
    exchanges it, so that [out] holds [Z E \ Z^T D in]; on an excluded
    process it only calls the coarse solver (next to the copies of the
    fused unknowns). *)
Theorem deflation_coarse_correction
    (callSolver exchange : nat -> nat -> list K -> list K) (P : Schwarz)
    (excluded : bool) (in_ : option buffer) (out : buffer) (fuse : nat) (s : state) :
  ev_wf P -> out <> b_uc -> in_ <> Some b_uc ->
  let s' := deflation callSolver exchange P excluded in_ out fuse s in
  if excluded
  then
    trace s' = trace s ++ fuse_in_calls out fuse ++ [EcallSolver] ++ fuse_out_calls out fuse
    /\ mem s' b_uc = callSolver (clock s) fuse (fused_rhs P fuse (mem s out) (mem s b_uc))
    /\ mem s' out = fused_sol P fuse (mem s' b_uc) (mem s out)
  else
    trace s' = trace s ++ fuse_in_calls out fuse ++ deflation_calls P in_ out
                 ++ fuse_out_calls out fuse
    /\ mem s' out = coarse_correction callSolver exchange P (clock s) fuse
                      (mem s (default out in_)) (mem s out) (mem s b_uc).
Proof.
  intros Hwf Hout Hin s'. subst s'.
  destruct excluded.
  - split; [apply (deflation_issues callSolver exchange P true)|].
    now apply deflation_excluded_value.
  - split; [apply (deflation_issues callSolver exchange P false)|].
    now apply deflation_value.
Qed.

Lemma deflation_coarse_correction_witness :
  let s' := deflation Example.callSolver1 Example.exchange1 (Example.P1 GE) false
              (Some b_in) b_out 0 (Example.state1 0) in
  trace s' = deflation_calls (Example.P1 GE) (Some b_in) b_out
  /\ mem s' b_out = coarse_correction Example.callSolver1 Example.exchange1
                      (Example.P1 GE) 0 0 [1] [0] [0].
Proof.
  apply (deflation_coarse_correction Example.callSolver1 Example.exchange1
           (Example.P1 GE) false (Some b_in) b_out 0 (Example.state1 0)).
  - repeat constructor.
  - discriminate.
  - discriminate.
Defined.

(** ** The single-level branch *)

Lemma rd_map_seq (f : nat -> K) (a n i : nat) :
  (i < n)%nat -> rd (map f (seq a n)) i = f (a + i)%nat.
Proof.
  intros Hi. unfold rd.
  rewrite (nth_indep _ 0 (f 0%nat)) by (rewrite length_map, length_seq; lia).
  rewrite map_nth, seq_nth by lia. reflexivity.
Qed.

Lemma rd_copy_n_0 (src dst : list K) (n i : nat) :
  (i < n)%nat -> rd (copy_n src 0 n dst 0) i = rd src i.
Proof.
  intros Hi. unfold copy_n.
  rewrite rd_store_at_0 by (rewrite length_map, length_seq; lia).
  now rewrite rd_map_seq.
Qed.

Lemma one_level_branch (P : Schwarz) (s : state) :
  one_level P s ->
  negb (super_co P) || (correction_of (opt s) =? -1)%Z = true.
Proof.
  intros [H|H]; rewrite H; [reflexivity|]. now rewrite orb_true_r.
Qed.

(** C2, as amended: in the single-level branch, on a process with a
    subdomain, type [NO] copies the input, [GE] and [OG] solve, scale and
    exchange, [OS] scales, solves, scales and exchanges, and [SY] solves and
    exchanges without any scaling. *)
Theorem apply_one_level_modes
    (solve : nat -> list K -> list K)
    (callSolver exchange : nat -> nat -> list K -> list K) (icollective : bool)
    (P : Schwarz) (in_ out : buffer) (mu : nat) (work : option buffer)
    (fuse : nat) (s : state) :
  one_level P s ->
  let s' := apply solve callSolver exchange icollective P false in_ out mu work fuse s in
  trace s' = trace s ++ one_level_calls P in_ out
  /\ mem s' out = one_level_result solve exchange P (clock s) mu (mem s in_) (mem s out).
Proof.
  intros Hone s'. subst s'. unfold apply.
  rewrite (one_level_branch P s Hone).
  unfold apply_one_level, one_level_calls, one_level_result, exchanged, rescaled, solved.
  destruct (_type P); try case_bool_decide; try discriminate; try congruence;
    cbn [negb]; unfold_steps; mem_simpl; cbn [default]; mem_simpl;
    rewrite <- ?app_assoc; split; reflexivity.
Qed.

Lemma apply_one_level_modes_witness :
  let s' := Example.apply1 OS (-1) None in
  trace s' = one_level_calls (Example.P1 OS) b_in b_out
  /\ mem s' b_out = one_level_result Example.solve1 Example.exchange1 (Example.P1 OS)
                      0 1 [1] [0].
Proof.
  apply (apply_one_level_modes Example.solve1 Example.callSolver1 Example.exchange1
           false (Example.P1 OS) b_in b_out 1 None 0 (Example.state1 (-1))).
  right. reflexivity.
Defined.

(** With type [SY] the branch neither issues the calls nor produces the
    vector that the specification lists: no scaling takes place. *)
Lemma apply_one_level_SY_counterexample :
  let s' := Example.apply1 SY (-1) None in
  trace s' <> one_level_calls_claimed (Example.P1 SY) b_in b_out
  /\ ~ rd (mem s' b_out) 0
       == rd (one_level_result_claimed Example.solve1 Example.exchange1
                (Example.P1 SY) 0 1 [1] [0]) 0.
Proof.
  split.
  - vm_compute. discriminate.
  - vm_compute. discriminate.
Qed.

(** C9, as amended: with type [NO], and in the single-level branch, [apply]
    copies the [mu * dof] entries of the input to the output and touches
    nothing else, on every process. *)
Theorem apply_NO_copies
    (solve : nat -> list K -> list K)
    (callSolver exchange : nat -> nat -> list K -> list K) (icollective : bool)
    (P : Schwarz) (excluded : bool) (in_ out : buffer) (mu : nat)
    (work : option buffer) (fuse : nat) (s : state) :
  _type P = NO -> one_level P s ->
  let s' := apply solve callSolver exchange icollective P excluded in_ out mu work fuse s in
  trace s' = trace s ++ [Ecopy_n in_ out]
  /\ (forall i, (i < mu * Subdomain_dof P)%nat -> rd (mem s' out) i = rd (mem s in_) i)
  /\ (forall b, b <> out -> mem s' b = mem s b).
Proof.
  intros HNO Hone s'. subst s'. unfold apply.
  rewrite (one_level_branch P s Hone).
  unfold apply_one_level. rewrite HNO. unfold_steps. mem_simpl.
  split; [reflexivity|]. split.
  - intros i Hi. now apply rd_copy_n_0.
  - intros b Hb. now mem_simpl.
Qed.

Lemma apply_NO_copies_witness :
  let s' := Example.apply1 NO (-1) None in
  trace s' = [Ecopy_n b_in b_out]
  /\ (forall i, (i < 1)%nat -> rd (mem s' b_out) i = rd [1] i)
  /\ (forall b, b <> b_out -> mem s' b = Example.mem1 b).
Proof.
  apply (apply_NO_copies Example.solve1 Example.callSolver1 Example.exchange1
           false (Example.P1 NO) false b_in b_out 1 None 0 (Example.state1 (-1))).
  - reflexivity.
  - right. reflexivity.
Defined.

(** With a coarse operator and correction 0 the output of type [NO] is not
    the input. *)
Lemma apply_NO_two_level_counterexample :
  let s' := Example.apply1 NO 0 (Some b_work) in
  ~ rd (mem s' b_out) 0 == rd (Example.mem1 b_in) 0.
Proof. vm_compute. discriminate. Qed.

(** ** What a call leaves untouched *)

Create HintDb frame.

Lemma preserves_skip (b : buffer) : preserves b skip.
Proof. now intros s. Qed.

Lemma preserves_seq (b : buffer) (f g : step) :
  preserves b f -> preserves b g -> preserves b (seq_step f g).
Proof. intros Hf Hg s. unfold seq_step. now rewrite Hg, Hf. Qed.

Lemma preserves_when (b : buffer) (c : bool) (f : step) :
  preserves b f -> preserves b (when c f).
Proof. intros Hf. destruct c; [exact Hf | apply preserves_skip]. Qed.

Lemma preserves_if (b : buffer) (c : bool) (f g : step) :
  preserves b f -> preserves b g -> preserves b (if c then f else g).
Proof. now destruct c. Qed.

Lemma preserves_kernel (b t : buffer) (e : event) v :
  b <> t -> preserves b (kernel e t v).
Proof. intros Hb s. unfold kernel. cbn [mem]. now mem_simpl. Qed.

Lemma preserves_comm (b t : buffer) (e : event) v :
  b <> t -> preserves b (comm e t v).
Proof. intros Hb s. unfold comm. cbn [mem]. now mem_simpl. Qed.

Lemma preserves_new (b t : buffer) (n : nat) :
  b <> t -> preserves b (do_new t n).
Proof. intros Hb s. unfold do_new. cbn [mem]. now mem_simpl. Qed.

Lemma preserves_IcallSolver (b : buffer) callSolver (fuse : nat) :
  preserves b (do_IcallSolver callSolver fuse).
Proof. now intros s. Qed.

Lemma preserves_Wait (b : buffer) : b <> b_uc -> preserves b do_Wait.
Proof.
  intros Hb s. unfold do_Wait. cbn [mem].
  destruct (pending s); [now mem_simpl | reflexivity].
Qed.

#[local] Hint Resolve preserves_skip preserves_seq preserves_when preserves_if
  preserves_kernel preserves_comm preserves_new preserves_IcallSolver
  preserves_Wait : frame.

Ltac frame :=
  unfold fuse_in, fuse_out, do_copy_n, do_diag, do_gemv_T, do_gemv_N, do_axpy,
    do_csrmv, do_csrmm, do_solve, do_exchange, do_callSolver;
  auto 40 with frame.

Lemma preserves_deflation (b : buffer) callSolver exchange (P : Schwarz)
    (excluded : bool) (in_ : option buffer) (out : buffer) (fuse : nat) :
  b <> out -> b <> b_uc ->
  preserves b (deflation callSolver exchange P excluded in_ out fuse).
Proof. intros Ho Hu. unfold deflation. frame. Qed.

Lemma preserves_Ideflation (b : buffer) callSolver (P : Schwarz)
    (excluded : bool) (in_ : option buffer) (out : buffer) (fuse : nat) :
  b <> out -> b <> b_uc ->
  preserves b (Ideflation callSolver P excluded in_ out fuse).
Proof. intros Ho Hu. unfold Ideflation. frame. Qed.

Lemma preserves_GMV (b : buffer) exchange (P : Schwarz) (in_ out : buffer) (mu : nat) :
  b <> out -> preserves b (GMV exchange P in_ out mu).
Proof. intros Ho. unfold GMV. frame. Qed.

#[local] Hint Resolve preserves_deflation preserves_Ideflation preserves_GMV : frame.




(** ** The calls of [apply] *)

Lemma local_correction_issues solve exchange (P : Schwarz) (out work : buffer) :
  issues (local_correction solve exchange P out work) (local_correction_calls P out work).
Proof.
  eapply issues_eq; [unfold local_correction; issues_prim|].
  unfold local_correction_calls. now destruct (bool_decide (_type P = OS)).
Qed.

Lemma balancing_round_issues callSolver exchange (P : Schwarz) (work : buffer)
    (mu fuse : nat) :
  issues (balancing_round callSolver exchange P false work mu fuse)
         (balancing_calls P work fuse).
Proof.
  eapply issues_eq.
  - unfold balancing_round.
    eapply issues_seq; [apply issues_new|].
    eapply issues_seq; [apply GMV_issues|].
    eapply issues_seq; [apply deflation_issues|].
    unfold do_axpy. apply issues_kernel.
  - unfold balancing_calls, all_deflation_calls. cbn [app].
    now rewrite <- !app_assoc.
Qed.

Lemma apply_deflated_issues solve callSolver exchange (P : Schwarz)
    (excluded : bool) (correction : Z) (in_ out work : buffer) (mu fuse : nat) :
  issues (apply_deflated solve callSolver exchange P excluded correction in_ out work mu fuse)
         (deflated_calls P excluded correction in_ out work fuse).
Proof.
  unfold apply_deflated, deflated_calls.
  eapply issues_seq; [apply deflation_issues|].
  destruct excluded; cbn [negb when]; [apply issues_skip|].
  eapply issues_seq; [apply local_correction_issues|].
  eapply issues_seq; [|unfold do_axpy; apply issues_kernel].
  destruct (correction =? 2)%Z; cbn [when];
    [apply balancing_round_issues | apply issues_skip].
Qed.

Lemma apply_additive_issues solve callSolver exchange (icollective : bool)
    (P : Schwarz) (excluded : bool) (in_ out work : buffer) (fuse : nat) :
  issues (apply_additive solve callSolver exchange icollective P excluded in_ out work fuse)
         (additive_calls P icollective excluded in_ out work fuse).
Proof.
  unfold apply_additive, additive_calls. destruct icollective.
  - eapply issues_eq; [unfold Ideflation; issues_prim|].
    unfold fuse_in_calls, fuse_out_calls.
    now destruct (0 <? fuse)%nat, excluded.
  - eapply issues_seq; [apply deflation_issues|].
    eapply issues_eq; [issues_prim|]. now destruct excluded.
Qed.

Lemma apply_one_level_issues solve exchange (P : Schwarz) (excluded : bool)
    (in_ out : buffer) (mu : nat) :
  issues (apply_one_level solve exchange P excluded in_ out mu)
         (one_level_all_calls P excluded in_ out).
Proof.
  unfold apply_one_level, one_level_all_calls.
  destruct (_type P); try case_bool_decide; try discriminate; try congruence;
    (eapply issues_eq; [issues_prim|]); now destruct excluded.
Qed.

Lemma apply_trace
    (solve : nat -> list K -> list K)
    (callSolver exchange : nat -> nat -> list K -> list K) (icollective : bool)
    (P : Schwarz) (excluded : bool) (in_ out : buffer) (mu : nat)
    (work : option buffer) (fuse : nat) (s : state) :
  trace (apply solve callSolver exchange icollective P excluded in_ out mu work fuse s)
  = trace s ++ apply_calls P icollective excluded (correction_of (opt s)) in_ out work fuse.
Proof.
  unfold apply, apply_calls.
  generalize (correction_of (opt s)). intros c.
  destruct (negb (super_co P) || (c =? -1)%Z).
  - apply apply_one_level_issues.
  - revert s.
    match goal with |- forall s, trace (?f s) = _ ++ ?l => change (issues f l) end.
    eapply issues_seq.
    + destruct work; [unfold do_copy_n; apply issues_kernel | apply issues_skip].
    + destruct (c =? 1)%Z; [apply apply_additive_issues | apply apply_deflated_issues].
Qed.

(** ** GMV and the balancing round *)

Lemma GMV_value exchange (P : Schwarz) (in_ out : buffer) (mu : nat) (s : state) :
  mem (GMV exchange P in_ out mu s) out
  = GMV_result exchange P (clock s) mu (mem s in_) (mem s out).
Proof. unfold GMV_result. unfold_steps. mem_simpl. cbn [default]. now mem_simpl. Qed.

Lemma GMV_clock exchange (P : Schwarz) (in_ out : buffer) (mu : nat) (s : state) :
  clock (GMV exchange P in_ out mu s) = S (clock s).
Proof. reflexivity. Qed.

Lemma balancing_round_value
    (callSolver exchange : nat -> nat -> list K -> list K) (P : Schwarz)
    (work : buffer) (mu fuse : nat) (s : state) :
  ev_wf P -> work <> b_tmp -> work <> b_uc ->
  mem (balancing_round callSolver exchange P false work mu fuse s) work
  = balanced_work callSolver exchange P (clock s) mu fuse (mem s work) (mem s b_uc).
Proof.
  intros Hwf Ht Hu.
  unfold balancing_round, balanced_work, balancing_term, seq_step, do_axpy, kernel.
  cbn [mem]. mem_simpl.
  rewrite deflation_value by (assumption || discriminate).
  rewrite preserves_deflation by assumption.
  cbn [default].
  rewrite GMV_clock, GMV_value.
  rewrite !preserves_GMV by (assumption || discriminate).
  unfold do_new. cbn [mem clock]. now mem_simpl.
Qed.

Lemma preserves_balancing_round (b : buffer) callSolver exchange (P : Schwarz)
    (excluded : bool) (work : buffer) (mu fuse : nat) :
  b <> work -> b <> b_tmp -> b <> b_uc ->
  preserves b (balancing_round callSolver exchange P excluded work mu fuse).
Proof. intros Hw Ht Hu. unfold balancing_round. frame. Qed.

(** *** The temporary of the round *)

Lemma length_spmv (A : MatrixCSR) (m : nat) (x : list K) :
  length (Wrapper.spmv A m x) = m.
Proof. unfold Wrapper.spmv. now rewrite length_map, length_seq. Qed.

Lemma length_flat_map_seq (m : nat) (g : nat -> list K) (n : nat) :
  (forall j, length (g j) = m) -> length (flat_map g (seq 0 n)) = (n * m)%nat.
Proof.
  intros Hg. induction n as [|n IH]; [reflexivity|].
  rewrite seq_S, flat_map_app, length_app, IH. cbn [flat_map plus].
  rewrite app_nil_r, Hg. lia.
Qed.

Lemma length_GMV_result exchange (P : Schwarz) (t mu : nat) (x y : list K) :
  length (GMV_result exchange P t mu x y)
  = Nat.max (mu * Subdomain_dof P) (length y).
Proof.
  unfold GMV_result, copy_n, Wrapper.diag, Wrapper.csrmm.
  rewrite !length_store_at_0, !length_map, !length_seq.
  rewrite (length_flat_map_seq (Subdomain_dof P)) by (intros j; apply length_spmv).
  lia.
Qed.

(** The temporary after the round holds the coarse correction of the
    product. *)
Lemma balancing_round_tmp
    (callSolver exchange : nat -> nat -> list K -> list K) (P : Schwarz)
    (work : buffer) (mu fuse : nat) (s : state) :
  ev_wf P -> work <> b_tmp -> work <> b_uc ->
  mem (balancing_round callSolver exchange P false work mu fuse s) b_tmp
  = balancing_term callSolver exchange P (clock s) mu fuse (mem s work) (mem s b_uc).
Proof.
  intros Hwf Ht Hu.
  unfold balancing_round, balancing_term, seq_step, do_axpy, kernel.
  cbn [mem]. mem_simpl.
  rewrite deflation_value by (assumption || discriminate).
  cbn [default].
  rewrite GMV_clock, GMV_value.
  rewrite !preserves_GMV by (assumption || discriminate).
  unfold do_new. cbn [mem clock]. now mem_simpl.
Qed.

(** For one right-hand side and no fused unknown the coarse correction of
    the product has the [dof] entries of the temporary. *)
Lemma length_balancing_term
    (callSolver exchange : nat -> nat -> list K -> list K) (P : Schwarz)
    (t : nat) (w uc : list K) :
  length (balancing_term callSolver exchange P t 1 0 w uc) = Subdomain_dof P.
Proof.
  unfold balancing_term, coarse_correction, fused_sol, copy_n. cbn [Nat.ltb Nat.leb].
  destruct (bool_decide (_type P <> AD));
    rewrite !length_store_at_0, ?length_map, ?length_seq, ?length_D_mul, ?length_Z_mul,
      length_GMV_result, length_replicate; lia.
Qed.

(** C5, as amended: with correction 2 and after the local solve of the
    residual, [apply] runs one more round before the final sum with the
    coarse term: the local solution is multiplied by the global operator,
    the coarse correction of that product is computed in place, and it is
    added to the local solution with the factor -1.  The round works on a
    temporary that it allocates with [dof] entries; the statement is for one
    right-hand side and no fused unknown, the arguments with which every
    call of the round stays within these [dof] entries. *)
Theorem apply_balanced_round
    (solve : nat -> list K -> list K)
    (callSolver exchange : nat -> nat -> list K -> list K) (icollective : bool)
    (P : Schwarz) (in_ out : buffer) (work : option buffer) (s : state) :
  super_co P = true -> correction_of (opt s) = 2%Z -> ev_wf P ->
  let w := default in_ work in
  w <> out -> w <> b_uc -> w <> b_tmp -> out <> b_uc -> out <> b_tmp ->
  let s1 :=
    (match work with
     | None => skip
     | Some w' => do_copy_n in_ 0 (Subdomain_dof P) w' 0
     end ;;
     deflation callSolver exchange P false (Some in_) out 0 ;;
     local_correction solve exchange P out w)%step s in
  let s' := apply solve callSolver exchange icollective P false in_ out 1 work 0 s in
  trace s' = trace s1 ++ balancing_calls P w 0 ++ [Eaxpy 1 w out]
  /\ mem s' b_tmp = balancing_term callSolver exchange P (clock s1) 1 0
                      (mem s1 w) (mem s1 b_uc)
  /\ length (mem s' b_tmp) = Subdomain_dof P
  /\ mem s' w = Wrapper.axpy (Subdomain_dof P) (- (1)) (mem s' b_tmp) (mem s1 w)
  /\ mem s' out = Wrapper.axpy (Subdomain_dof P) 1 (mem s' w) (mem s1 out).
Proof.
  intros Hco Hc Hwf w Hwo Hwu Hwt Hou Hot s1 s'.
  assert (Hs' : s' = do_axpy P Wrapper.d__1 w out
                       (balancing_round callSolver exchange P false w 1 0 s1)).
  { subst s' s1. unfold apply. rewrite Hc, Hco. reflexivity. }
  assert (Htmp : mem s' b_tmp
                 = balancing_term callSolver exchange P (clock s1) 1 0
                     (mem s1 w) (mem s1 b_uc)).
  { rewrite Hs'. unfold do_axpy, kernel. cbn [mem]. mem_simpl.
    now apply balancing_round_tmp. }
  split; [|split; [exact Htmp|split; [|split]]].
  - rewrite Hs'. unfold do_axpy, kernel. cbn [trace].
    rewrite balancing_round_issues. now rewrite <- app_assoc.
  - rewrite Htmp. apply length_balancing_term.
  - rewrite Htmp, Hs'. unfold do_axpy, kernel. cbn [mem]. mem_simpl.
    now apply balancing_round_value.
  - rewrite Hs'. unfold do_axpy, kernel. cbn [mem]. mem_simpl.
    rewrite (preserves_balancing_round out) by congruence. reflexivity.
Qed.

Lemma apply_balanced_round_witness :
  let s1 := ExampleRound.before in
  let s' := Example.apply1 GE 2 (Some b_work) in
  trace s' = trace s1 ++ balancing_calls (Example.P1 GE) b_work 0 ++ [Eaxpy 1 b_work b_out]
  /\ mem s' b_tmp = balancing_term Example.callSolver1 Example.exchange1 (Example.P1 GE)
                      (clock s1) 1 0 (mem s1 b_work) (mem s1 b_uc)
  /\ length (mem s' b_tmp) = 1%nat
  /\ mem s' b_work = Wrapper.axpy 1 (- (1)) (mem s' b_tmp) (mem s1 b_work)
  /\ mem s' b_out = Wrapper.axpy 1 1 (mem s' b_work) (mem s1 b_out).
Proof.
  apply (apply_balanced_round Example.solve1 Example.callSolver1 Example.exchange1
           false (Example.P1 GE) b_in b_out (Some b_work) (Example.state1 2));
    try discriminate.
  - reflexivity.
  - reflexivity.
  - repeat constructor.
Defined.

(** The work vector after the round is neither the local solution plus -2
    times the product less its coarse correction, nor the local solution
    plus -2 times that coarse correction. *)
Lemma apply_balanced_round_counterexample :
  let s1 := ExampleRound.before in
  let s' := Example.apply1 GE 2 (Some b_work) in
  ~ rd (mem s' b_work) 0
    == rd (balanced_work_claimed Example.callSolver1 Example.exchange1 (Example.P1 GE)
             (clock s1) 1 0 (mem s1 b_work) (mem s1 b_uc)) 0
  /\ ~ rd (mem s' b_work) 0
       == rd (balanced_work_doubled Example.callSolver1 Example.exchange1 (Example.P1 GE)
                (clock s1) 1 0 (mem s1 b_work) (mem s1 b_uc)) 0.
Proof. split; vm_compute; discriminate. Qed.

(** C6, as amended: [GMV] performs the sparse product, then the diagonal
    scaling, once, then the halo exchange.  The sparse product of
    [computeError] is the one of [GMV], and so is the one of the balancing
    round of [apply]; the residual of corrections 0 and 2 is formed by
    [apply] itself with a call of [csrmv]; the other branches of [apply]
    perform no sparse product. *)
Theorem sparse_products_of_apply_and_computeError
    (solve : nat -> list K -> list K)
    (callSolver exchange : nat -> nat -> list K -> list K) (icollective : bool)
    (HPDDM_EPS HPDDM_PEN : Q)
    (P : Schwarz) (excluded : bool) (in_ out x f : buffer) (mu : nat)
    (work : option buffer) (fuse : nat) (s : state) :
  let c := correction_of (opt s) in
  let calls := apply_calls P icollective excluded c in_ out work fuse in
  (trace (GMV exchange P in_ out mu s)
     = trace s ++ [Ecsrmm in_ out; Ediag None out; Eexchange out]
   /\ mem (GMV exchange P in_ out mu s) out
      = GMV_result exchange P (clock s) mu (mem s in_) (mem s out))
  /\ trace (computeError HPDDM_EPS HPDDM_PEN exchange P x f mu s).2
     = trace s ++ [Ecsrmm x b_tmp; Ediag None b_tmp; Eexchange b_tmp;
                   Eaxpy (- (1)) f b_tmp]
  /\ trace (apply solve callSolver exchange icollective P excluded in_ out mu work fuse s)
     = trace s ++ calls
  /\ sparse_products calls
     = if negb (super_co P) || (c =? -1)%Z || (c =? 1)%Z || excluded then []
       else Ecsrmv out (default in_ work)
              :: (if (c =? 2)%Z then [Ecsrmm (default in_ work) b_tmp] else []).
Proof.
  intros c calls. subst calls c.
  split; [split|split; [|split]].
  - apply GMV_issues.
  - apply GMV_value.
  - unfold computeError. cbn [snd]. unfold seq_step, kernel. cbn [trace].
    rewrite GMV_issues. unfold do_new. cbn [trace].
    now rewrite <- app_assoc.
  - apply apply_trace.
  - generalize (correction_of (opt s)). intros c.
    unfold apply_calls, one_level_all_calls, additive_calls, deflated_calls,
      all_deflation_calls, local_correction_calls, balancing_calls, GMV_calls,
      deflation_calls, fuse_in_calls, fuse_out_calls, sparse_products.
    destruct (super_co P), (c =? -1)%Z, (c =? 1)%Z, excluded; cbn [negb orb];
      try (destruct (_type P); reflexivity);
      destruct work, (0 <? fuse)%nat, (bool_decide (_type P <> AD));
      try (destruct icollective; reflexivity);
      destruct (c =? 2)%Z, (bool_decide (_type P = OS)); reflexivity.
Qed.

(** A sparse product of [apply] that is not issued by [GMV], and a product
    of [GMV] that differs from the one scaled on both sides. *)
Lemma GMV_counterexample :
  In (Ecsrmv b_out b_work) (trace (Example.apply1 GE 0 (Some b_work)))
  /\ ~ rd (mem (GMV Example.exchange1 (Example.P1 GE) b_in b_out 1 (Example.state1 0))
             b_out) 0
       == rd (GMV_result_claimed Example.exchange1 (Example.P1 GE) 0 1 [1] [0]) 0.
Proof.
  split.
  - vm_compute. tauto.
  - vm_compute. discriminate.
Qed.

(** ** solveGEVP *)

Lemma Qltb_lt (x y : Q) : Qltb x y = true <-> x < y.
Proof.
  unfold Qltb. rewrite negb_true_iff, <- not_true_iff_false, Qle_bool_iff.
  split; [apply Qnot_le_lt | apply Qlt_not_le].
Qed.

Lemma Qltb_ge (x y : Q) : Qltb x y = false <-> y <= x.
Proof. unfold Qltb. now rewrite negb_false_iff, Qle_bool_iff. Qed.

Lemma prune_entry_0 (EPS PEN : Q) : prune_entry EPS PEN 0 = 0.
Proof. unfold prune_entry. now destruct (Qltb _ _). Qed.

Lemma rd_map_default (f : K -> K) (v : list K) (i : nat) :
  f 0 = 0 -> rd (map f v) i = f (rd v i).
Proof.
  intros Hf. unfold rd. destruct (Nat.lt_ge_cases i (length v)) as [Hi|Hi].
  - rewrite (nth_indep _ 0 (f 0)) by now rewrite length_map.
    apply map_nth.
  - rewrite !nth_overflow by (rewrite ?length_map; lia). now rewrite Hf.
Qed.

Lemma rd_prune (EPS PEN : Q) (n : nat) (v : list K) (i : nat) :
  (i < n)%nat -> rd (prune EPS PEN n v) i = prune_entry EPS PEN (rd v i).
Proof.
  intros Hi. unfold prune.
  rewrite <- (rd_map_default _ v) by apply prune_entry_0.
  rewrite <- (take_drop n v) at 3. rewrite map_app.
  destruct (Nat.lt_ge_cases i (length (take n v))) as [Hl|Hl].
  - rewrite !rd_app_l by now rewrite ?length_map. reflexivity.
  - rewrite length_take in Hl.
    rewrite !drop_ge by lia. now rewrite !app_nil_r.
Qed.

Lemma nth_pruned (EPS PEN : Q) (n achieved : nat) (ev : list (list K)) (k : nat) :
  (k < achieved)%nat ->
  nth k (map (prune EPS PEN n) (take achieved ev) ++ drop achieved ev) []
  = prune EPS PEN n (nth k ev []).
Proof.
  intros Hk. destruct (Nat.lt_ge_cases k (length ev)) as [Hl|Hl].
  - rewrite app_nth1 by (rewrite length_map, length_take; lia).
    rewrite (nth_indep _ [] (prune EPS PEN n []))
      by (rewrite length_map, length_take; lia).
    rewrite map_nth.
    f_equal. rewrite <- (take_drop achieved ev) at 2.
    rewrite app_nth1 by (rewrite length_take; lia). reflexivity.
  - rewrite !nth_overflow; [now destruct n | lia |].
    rewrite length_app, length_map, length_take, length_drop. lia.
Qed.

(** C8: [solveGEVP] sets both [nu] and the option [geneo_nu] to the number
    of vectors that the eigensolver achieved, which is at most the number
    requested, and in each of these vectors every entry whose magnitude is
    below [1 / (HPDDM_EPS * HPDDM_PEN)] is zero, the other entries being
    those of the eigensolver. *)
Theorem solveGEVP_bounded_and_pruned
    (HPDDM_EPS HPDDM_PEN : Q)
    (Eps_solve : Q -> nat -> nat -> MatrixCSR -> MatrixCSR -> bool -> list (list K) * nat)
    (sameSparsity : MatrixCSR -> MatrixCSR -> bool)
    (P : Schwarz) (o : gmap string Q) (A : MatrixCSR) (nu : nat) (threshold : Q)
    (B pattern : option MatrixCSR) :
  Eps_bounded Eps_solve ->
  let r := solveGEVP HPDDM_EPS HPDDM_PEN Eps_solve sameSparsity P o A nu threshold B pattern in
  let solved := gevp_solved HPDDM_EPS Eps_solve sameSparsity P A nu threshold B pattern in
  (gevp_nu r <= nu)%nat
  /\ gevp_nu r = solved.2
  /\ gevp_opt r !! "geneo_nu" = Some (inject_Z (Z.of_nat solved.2))
  /\ forall k i, (k < gevp_nu r)%nat -> (i < Subdomain_dof P)%nat ->
       let x := rd (nth k solved.1 []) i in
       (Kabs x < 1 / (HPDDM_EPS * HPDDM_PEN) -> rd (nth k (gevp_ev r) []) i = 0)
       /\ (1 / (HPDDM_EPS * HPDDM_PEN) <= Kabs x -> rd (nth k (gevp_ev r) []) i = x).
Proof.
  intros Hb r solved. subst r. unfold solveGEVP. fold solved.
  pose proof (Hb threshold (Subdomain_dof P) nu A
                (gevp_rhs HPDDM_EPS P A B) (gevp_free sameSparsity P A pattern)) as Hle.
  change (Eps_solve _ _ _ _ _ _) with solved in Hle.
  destruct solved as [ev achieved]. cbn [gevp_nu gevp_opt gevp_ev fst snd] in *.
  split; [exact Hle|]. split; [reflexivity|]. split; [apply lookup_insert_eq|].
  intros k i Hk Hi.
  rewrite nth_pruned, rd_prune by assumption.
  unfold prune_entry. split; intros Hx.
  - apply Qltb_lt in Hx. now rewrite Hx.
  - apply Qltb_ge in Hx. now rewrite Hx.
Qed.

Lemma solveGEVP_bounded_and_pruned_witness :
  let r := solveGEVP ExampleGEVP.EPS ExampleGEVP.PEN ExampleGEVP.Eps1 ExampleGEVP.same
             ExampleGEVP.P2 ∅ ExampleGEVP.A2 3 (1 # 1000000) None None in
  (gevp_nu r <= 3)%nat
  /\ gevp_nu r = 1%nat
  /\ gevp_opt r !! "geneo_nu" = Some 1
  /\ forall k i, (k < gevp_nu r)%nat -> (i < 2)%nat ->
       let x := rd (nth k [[1; 1 # 100000000000000000000]; [0; 0]] []) i in
       (Kabs x < 1 / (ExampleGEVP.EPS * ExampleGEVP.PEN) -> rd (nth k (gevp_ev r) []) i = 0)
       /\ (1 / (ExampleGEVP.EPS * ExampleGEVP.PEN) <= Kabs x
           -> rd (nth k (gevp_ev r) []) i = x).
Proof.
  apply (solveGEVP_bounded_and_pruned ExampleGEVP.EPS ExampleGEVP.PEN ExampleGEVP.Eps1
           ExampleGEVP.same ExampleGEVP.P2 ∅ ExampleGEVP.A2 3 (1 # 1000000) None None).
  intros threshold n nu A B free. cbn [ExampleGEVP.Eps1 snd]. lia.
Defined.

(** ** computeError *)

Lemma rd_insert_eq (l : list K) (k : nat) (v : K) :
  (k < length l)%nat -> rd (<[k := v]> l) k = v.
Proof. intros Hk. unfold rd. now rewrite nth_lookup, list_lookup_insert_eq. Qed.

Lemma rd_insert_ne (l : list K) (k k' : nat) (v : K) :
  k <> k' -> rd (<[k := v]> l) k' = rd l k'.
Proof. intros Hk. unfold rd. now rewrite !nth_lookup, list_lookup_insert_ne. Qed.

Lemma rd_replicate_0 (n k : nat) : rd (replicate n 0) k = 0.
Proof.
  revert k. induction n as [|n IH]; intros k; [apply rd_nil|].
  destruct k as [|k]; [reflexivity | apply IH].
Qed.

Lemma Qsum_app (l1 l2 : list K) : Qsum (l1 ++ l2) == Qsum l1 + Qsum l2.
Proof.
  unfold Qsum. induction l1 as [|a l1 IH]; cbn [app foldr].
  - ring.
  - rewrite IH. ring.
Qed.

Lemma Qsum_seq_S (g : nat -> K) (n : nat) :
  Qsum (map g (seq 0 (S n))) == Qsum (map g (seq 0 n)) + g n.
Proof.
  rewrite seq_S, map_app, Qsum_app. unfold Qsum. cbn [map foldr plus]. ring.
Qed.

Section ErrorFacts.

Variables HPDDM_EPS HPDDM_PEN : Q.
Variable P : Schwarz.

Local Abbreviation dof := (Subdomain_dof P).

Lemma boundary_test_andb (i : nat) (b : bool) (j : nat) :
  boundary_test HPDDM_EPS P i b j = b && boundary_entryb HPDDM_EPS P i j.
Proof.
  unfold boundary_test, boundary_entryb.
  destruct b; cbn [negb andb]; [|reflexivity].
  destruct (negb _ && Qltb _ _); cbn [negb andb]; [reflexivity|].
  now destruct (_ && Qltb _ _).
Qed.

Lemma foldl_boundary_test (i : nat) (l : list nat) (b : bool) :
  foldl (boundary_test HPDDM_EPS P i) b l
  = b && forallb (boundary_entryb HPDDM_EPS P i) l.
Proof.
  revert b. induction l as [|j l IH]; intros b; cbn [foldl forallb].
  - now rewrite andb_true_r.
  - now rewrite IH, boundary_test_andb, andb_assoc.
Qed.

Lemma boundary_entryb_spec (i j : nat) :
  boundary_entryb HPDDM_EPS P i j = true <-> boundary_entry HPDDM_EPS P i j.
Proof.
  unfold boundary_entryb, boundary_entry.
  rewrite andb_true_iff, !negb_true_iff, !andb_false_iff, negb_false_iff,
    !Qltb_ge, !Nat.eqb_eq, !Nat.eqb_neq.
  destruct (Nat.eq_dec i (rdn (_ja (Subdomain_a P)) j)); tauto.
Qed.

Lemma isBoundaryCond_spec (i : nat) :
  isBoundaryCond HPDDM_EPS P i = true
  <-> Forall (boundary_entry HPDDM_EPS P i) (inspected P i).
Proof.
  unfold isBoundaryCond, inspected.
  rewrite foldl_boundary_test, andb_true_l, forallb_forall, Forall_forall.
  split; intros H j Hj.
  - apply boundary_entryb_spec, H. now apply list_elem_of_In.
  - apply boundary_entryb_spec, H. now apply list_elem_of_In.
Qed.

Lemma length_accumulate (st : list ul_type) (k : nat) (v : ul_type) :
  length (accumulate st k v) = length st.
Proof. apply length_insert. Qed.

Lemma rd_accumulate_eq (st : list ul_type) (k : nat) (v : ul_type) :
  (k < length st)%nat -> rd (accumulate st k v) k = rd st k + v.
Proof. apply rd_insert_eq. Qed.

Lemma rd_accumulate_ne (st : list ul_type) (k k' : nat) (v : ul_type) :
  k <> k' -> rd (accumulate st k v) k' = rd st k'.
Proof. apply rd_insert_ne. Qed.

Lemma error_rhs_step (tmp f : list K) (i : nat) (bc : bool)
    (st : list ul_type) (nu : nat) :
  (2 * nu + 1 < length st)%nat ->
  let R := error_rhs HPDDM_EPS HPDDM_PEN P tmp f i bc st nu in
  length R = length st
  /\ rd R (2 * nu) == rd st (2 * nu) + row_rhs HPDDM_EPS HPDDM_PEN P f i nu
  /\ rd R (2 * nu + 1) == rd st (2 * nu + 1) + row_res P tmp i bc nu
  /\ forall k, k <> (2 * nu)%nat -> k <> (2 * nu + 1)%nat -> rd R k = rd st k.
Proof.
  intros Hlen R. subst R. unfold error_rhs, row_rhs, row_res.
  destruct bc; cbn [negb];
    destruct (Qltb (HPDDM_EPS * HPDDM_PEN) (Kabs (rd f (nu * dof + i))));
    rewrite ?length_accumulate.
  all: split; [reflexivity|].
  all: rewrite ?rd_accumulate_eq by (rewrite ?length_accumulate; lia).
  all: rewrite ?(rd_accumulate_ne _ (2 * nu)%nat (2 * nu + 1)%nat) by lia.
  all: rewrite ?(rd_accumulate_ne _ (2 * nu + 1)%nat (2 * nu)%nat) by lia.
  all: rewrite ?rd_accumulate_eq by (rewrite ?length_accumulate; lia).
  all: split; [reflexivity || ring|].
  all: split; [reflexivity || ring|].
  all: intros k H0 H1; now rewrite !rd_accumulate_ne by lia.
Qed.

Lemma error_rhs_fold (tmp f : list K) (i : nat) (bc : bool) (mu : nat)
    (st : list ul_type) :
  (2 * mu <= length st)%nat ->
  let R := foldl (error_rhs HPDDM_EPS HPDDM_PEN P tmp f i bc) st (seq 0 mu) in
  length R = length st
  /\ (forall nu, (nu < mu)%nat ->
        rd R (2 * nu) == rd st (2 * nu) + row_rhs HPDDM_EPS HPDDM_PEN P f i nu
        /\ rd R (2 * nu + 1) == rd st (2 * nu + 1) + row_res P tmp i bc nu)
  /\ forall k, (2 * mu <= k)%nat -> rd R k = rd st k.
Proof.
  induction mu as [|mu IH]; intros Hlen R; subst R.
  - cbn [seq foldl]. split; [reflexivity|]. split; [intros nu Hnu; lia|]. reflexivity.
  - rewrite seq_S, foldl_app. cbn [foldl plus].
    destruct IH as (IHl & IHlt & IHge); [lia|].
    destruct (error_rhs_step tmp f i bc
                (foldl (error_rhs HPDDM_EPS HPDDM_PEN P tmp f i bc) st (seq 0 mu)) mu)
      as (Sl & S0 & S1 & Sne); [lia|].
    split; [congruence|]. split.
    + intros nu Hnu. destruct (Nat.eq_dec nu mu) as [->|Hne].
      * rewrite S0, S1, !IHge by lia. split; reflexivity.
      * rewrite !Sne by lia. apply IHlt. lia.
    + intros k Hk. rewrite Sne by lia. apply IHge. lia.
Qed.

Lemma error_row_fold (tmp f : list K) (mu n : nat) :
  let R := foldl (error_row HPDDM_EPS HPDDM_PEN P tmp f mu)
             (replicate (2 * mu) 0) (seq 0 n) in
  length R = (2 * mu)%nat
  /\ forall nu, (nu < mu)%nat ->
       rd R (2 * nu) == Qsum (map (rhs_term HPDDM_EPS HPDDM_PEN P f nu) (seq 0 n))
       /\ rd R (2 * nu + 1)
          == Qsum (map (res_term HPDDM_EPS HPDDM_PEN P tmp nu) (seq 0 n)).
Proof.
  induction n as [|n IH]; intros R; subst R.
  - cbn [seq foldl map]. split; [apply length_replicate|].
    intros nu Hnu. rewrite !rd_replicate_0. split; reflexivity.
  - rewrite seq_S, foldl_app. cbn [foldl plus].
    destruct IH as (IHl & IHs).
    set (R0 := foldl (error_row HPDDM_EPS HPDDM_PEN P tmp f mu)
                 (replicate (2 * mu) 0) (seq 0 n)) in *.
    destruct (error_rhs_fold tmp f n (isBoundaryCond HPDDM_EPS P n) mu R0)
      as (Fl & Flt & _); [lia|].
    unfold error_row.
    split.
    + destruct (row_skipped HPDDM_EPS HPDDM_PEN P n); congruence.
    + intros nu Hnu. rewrite <- seq_S, !Qsum_seq_S.
      destruct (IHs nu Hnu) as (IH0 & IH1).
      destruct (Flt nu Hnu) as (F0 & F1).
      unfold rhs_term at 2, res_term at 2.
      destruct (row_skipped HPDDM_EPS HPDDM_PEN P n).
      * rewrite IH0, IH1. split; ring.
      * rewrite F0, F1, IH0, IH1. unfold row_rhs, row_res. split; reflexivity.
Qed.

End ErrorFacts.

Lemma Qsum_map_ext {X : Type} (f g : X -> Q) (l : list X) :
  (forall x, In x l -> f x == g x) -> Qsum (map f l) == Qsum (map g l).
Proof.
  unfold Qsum. induction l as [|x l IH]; intros H; cbn [map foldr]; [reflexivity|].
  rewrite IH by (intros y Hy; apply H; now right).
  rewrite (H x) by now left. reflexivity.
Qed.

(** *** The entry before which the search stops *)

Lemma leading_prefix (g : nat -> bool) (l : list nat) (m : nat) :
  (m < length l)%nat ->
  (forall q, (q <= m)%nat -> g (nth q l 0%nat) = true) ->
  ((S m < length l)%nat -> g (nth (S m) l 0%nat) = false) ->
  leading g l = S m.
Proof.
  revert m. induction l as [|c l IH]; intros m Hm Ht Hf; [cbn in Hm; lia|].
  cbn [leading]. pose proof (Ht 0%nat ltac:(lia)) as H0. cbn [nth] in H0. rewrite H0.
  destruct m as [|m].
  - f_equal. destruct l as [|c' l]; [reflexivity|].
    cbn [leading]. cbn [length nth] in Hf. rewrite Hf by lia. reflexivity.
  - f_equal. apply IH.
    + cbn [length] in Hm. lia.
    + intros q Hq. apply (Ht (S q)). lia.
    + intros H. apply Hf. cbn [length]. lia.
Qed.

(** In a row that stores its diagonal entry among increasing columns the
    search stops right behind that entry. *)
Lemma row_stop_sorted (P : Schwarz) (i p : nat) :
  row_wf P i p -> row_stop P i = (p + 1)%nat.
Proof.
  intros (Hp & Hhi & _ & Hd & Hinc & Hsym).
  set (A := Subdomain_a P) in *.
  set (lo := rdn (_ia A) i) in *. set (hi := rdn (_ia A) (i + 1)) in *.
  unfold row_stop. fold A lo hi. destruct (_sym A) eqn:Es; cbn [negb].
  - destruct (Nat.eq_dec (p + 1)%nat hi) as [E|E]; [now rewrite E|].
    exfalso. specialize (Hsym eq_refl (p + 1)%nat ltac:(lia)).
    specialize (Hinc p (p + 1)%nat ltac:(lia) ltac:(lia) ltac:(lia)). lia.
  - unfold upper_bound.
    assert (Hn : forall q, (q < hi - lo)%nat ->
              nth q (take (hi - lo) (drop lo (_ja A))) 0%nat = rdn (_ja A) (lo + q)).
    { intros q Hq. unfold rdn.
      rewrite !nth_lookup, lookup_take_lt, lookup_drop by lia. reflexivity. }
    rewrite (leading_prefix _ _ (p - lo)).
    + lia.
    + rewrite length_take, length_drop. lia.
    + intros q Hq. rewrite Hn by lia. apply Nat.leb_le.
      destruct (Nat.eq_dec (lo + q)%nat p) as [E|E]; [rewrite E; lia|].
      specialize (Hinc (lo + q)%nat p ltac:(lia) ltac:(lia) ltac:(lia)). lia.
    + rewrite length_take, length_drop. intros H.
      rewrite Hn by lia. apply Nat.leb_gt.
      specialize (Hinc p (lo + S (p - lo))%nat ltac:(lia) ltac:(lia) ltac:(lia)).
      lia.
Qed.

Lemma row_skipped_sorted (HPDDM_EPS HPDDM_PEN : Q) (P : Schwarz) (i p : nat) :
  row_wf P i p ->
  row_skipped HPDDM_EPS HPDDM_PEN P i = diagonal_exceeds HPDDM_EPS HPDDM_PEN P p.
Proof.
  intros Hwf. unfold row_skipped, diagonal_exceeds.
  rewrite (row_stop_sorted P i p Hwf).
  now replace (p + 1 - 1)%nat with p by lia.
Qed.

Lemma identity_up_to_spec (HPDDM_EPS : Q) (P : Schwarz) (i p : nat) :
  identity_up_to HPDDM_EPS P i p = true
  <-> (forall j, (rdn (_ia (Subdomain_a P)) i <= j < p)%nat ->
         Kabs (rd (_a (Subdomain_a P)) j) <= HPDDM_EPS)
      /\ Kabs (rd (_a (Subdomain_a P)) p - 1) <= HPDDM_EPS.
Proof.
  unfold identity_up_to, before_diagonal.
  rewrite andb_true_iff, forallb_forall, Qle_bool_iff.
  split; intros (H1 & H2); (split; [|exact H2]).
  - intros j Hj. apply Qle_bool_iff, H1, in_seq. lia.
  - intros j Hj. apply in_seq in Hj. apply Qle_bool_iff, H1. lia.
Qed.

(** The loop over [j] inspects the entries before the diagonal, which are
    off the diagonal, and the diagonal entry. *)
Lemma isBoundaryCond_sorted (HPDDM_EPS : Q) (P : Schwarz) (i p : nat) :
  row_wf P i p ->
  isBoundaryCond HPDDM_EPS P i = identity_up_to HPDDM_EPS P i p.
Proof.
  intros Hwf. apply eq_true_iff_eq.
  rewrite isBoundaryCond_spec, identity_up_to_spec. unfold inspected.
  rewrite (row_stop_sorted P i p Hwf).
  destruct Hwf as (Hp & _ & _ & Hd & Hinc & _).
  rewrite Forall_forall. unfold boundary_entry. split.
  - intros H. split.
    + intros j Hj.
      apply (H j); [apply list_elem_of_In, in_seq; lia|].
      specialize (Hinc j p ltac:(lia) ltac:(lia) ltac:(lia)). lia.
    + apply (H p); [apply list_elem_of_In, in_seq; lia|]. now rewrite Hd.
  - intros (H1 & H2) j Hj. apply list_elem_of_In, in_seq in Hj.
    destruct (Nat.eq_dec j p) as [->|Hne].
    + split; [intros Hc; now rewrite Hd in Hc | intros _; exact H2].
    + split; [intros _; apply H1; lia|].
      intros Hc. exfalso.
      specialize (Hinc j p ltac:(lia) ltac:(lia) ltac:(lia)). lia.
Qed.

(** C10, as amended: on a matrix whose rows store their diagonal entry
    among increasing column indices, [computeError] stops its search right
    behind the diagonal entry of a row and leaves out every row whose
    diagonal entry exceeds [HPDDM_EPS * HPDDM_PEN] in magnitude: such a row
    adds to neither sum.  Among the other rows, a row is a boundary row
    exactly when every entry before the diagonal is at most [HPDDM_EPS] in
    magnitude and the diagonal entry is within [HPDDM_EPS] of 1, whatever
    the entries behind the diagonal; a boundary row adds nothing to the sum
    of the residual, any other row its weighted squared residual.  To the
    sum of the right-hand side each row adds the value divided by
    [HPDDM_PEN] when its magnitude exceeds [HPDDM_EPS * HPDDM_PEN], and the
    raw value otherwise, boundary row or not. *)
Theorem computeError_rows
    (HPDDM_EPS HPDDM_PEN : Q) (exchange : nat -> nat -> list K -> list K)
    (P : Schwarz) (pos : nat -> nat) (x f : buffer) (mu : nat) (s : state) :
  x <> b_tmp -> f <> b_tmp ->
  (forall i, (i < Subdomain_dof P)%nat -> row_wf P i (pos i)) ->
  let A := Subdomain_a P in
  let storage := (computeError HPDDM_EPS HPDDM_PEN exchange P x f mu s).1 in
  let r := residual exchange P (clock s) mu (mem s x) (mem s f) in
  (forall i, (i < Subdomain_dof P)%nat ->
     row_stop P i = (pos i + 1)%nat
     /\ rdn (_ja A) (pos i) = i
     /\ (row_skipped HPDDM_EPS HPDDM_PEN P i = true
         <-> HPDDM_EPS * HPDDM_PEN < Kabs (rd (_a A) (pos i)))
     /\ (isBoundaryCond HPDDM_EPS P i = true
         <-> (forall j, (rdn (_ia A) i <= j < pos i)%nat ->
                (rdn (_ja A) j < i)%nat /\ Kabs (rd (_a A) j) <= HPDDM_EPS)
             /\ Kabs (rd (_a A) (pos i) - 1) <= HPDDM_EPS))
  /\ forall nu, (nu < mu)%nat ->
       rd storage (2 * nu)
       == Qsum (map (rhs_row HPDDM_EPS HPDDM_PEN P pos (mem s f) nu)
                  (seq 0 (Subdomain_dof P)))
       /\ rd storage (2 * nu + 1)
          == Qsum (map (res_row HPDDM_EPS HPDDM_PEN P pos r nu)
                     (seq 0 (Subdomain_dof P))).
Proof.
  intros Hx Hf Hwf A storage r. split.
  - intros i Hi. specialize (Hwf i Hi).
    split; [now apply row_stop_sorted|].
    split; [apply Hwf|]. split.
    + rewrite (row_skipped_sorted _ _ P i (pos i) Hwf). apply Qltb_lt.
    + rewrite (isBoundaryCond_sorted _ P i (pos i) Hwf), identity_up_to_spec.
      fold A. destruct Hwf as (Hp & _ & _ & Hd & Hinc & _). fold A in Hinc, Hp, Hd.
      split; intros (H1 & H2); (split; [|exact H2]); intros j Hj.
      * split; [|now apply H1].
        specialize (Hinc j (pos i) ltac:(lia) ltac:(lia) ltac:(lia)).
        lia.
      * now apply H1.
  - subst storage r. unfold computeError. cbn [fst].
    match goal with |- context [mem ?t b_tmp] => set (s1 := t) end.
    assert (Htmp : mem s1 b_tmp
                   = residual exchange P (clock s) mu (mem s x) (mem s f)).
    { subst s1. unfold seq_step, kernel. cbn [mem]. mem_simpl.
      rewrite GMV_value, !preserves_GMV by assumption.
      unfold do_new. cbn [mem clock]. now mem_simpl. }
    assert (Hrhs : mem s1 f = mem s f).
    { subst s1. unfold seq_step, kernel. cbn [mem]. mem_simpl.
      rewrite !preserves_GMV by assumption.
      unfold do_new. cbn [mem]. now mem_simpl. }
    rewrite Htmp, Hrhs. intros nu Hnu.
    destruct (proj2 (error_row_fold HPDDM_EPS HPDDM_PEN P
                       (residual exchange P (clock s) mu (mem s x) (mem s f))
                       (mem s f) mu (Subdomain_dof P)) nu Hnu) as (E0 & E1).
    rewrite E0, E1. split; apply Qsum_map_ext; intros i Hi; apply in_seq in Hi.
    + unfold rhs_term, rhs_row, row_rhs.
      now rewrite (row_skipped_sorted _ _ P i (pos i)) by (apply Hwf; lia).
    + unfold res_term, res_row.
      rewrite (row_skipped_sorted _ _ P i (pos i)) by (apply Hwf; lia).
      rewrite (isBoundaryCond_sorted _ P i (pos i)) by (apply Hwf; lia).
      now destruct (diagonal_exceeds _ _ _ _), (identity_up_to _ _ _ _).
Qed.

(** The rows of the example of two unknowns store their diagonal entries
    at the positions 0 and 2. *)
Lemma example_rows_wf (i : nat) :
  (i < 2)%nat -> row_wf ExampleError.P6 i (ExampleError.pos6 i).
Proof.
  intros Hi. destruct i as [|[|i]]; [| |lia]; unfold row_wf; cbn.
  - repeat split; try lia; try discriminate.
    intros q q' H1 H2 H3. assert (q = 0%nat) as -> by lia.
    assert (q' = 1%nat) as -> by lia. cbn. lia.
  - repeat split; try lia; discriminate.
Qed.

Lemma computeError_rows_witness :
  let P := ExampleError.P6 in
  let A := ExampleError.U2 in
  let pos := ExampleError.pos6 in
  (forall i, (i < 2)%nat ->
     row_stop P i = (pos i + 1)%nat
     /\ rdn (_ja A) (pos i) = i
     /\ (row_skipped ExampleError.EPS ExampleError.PEN P i = true
         <-> ExampleError.EPS * ExampleError.PEN < Kabs (rd (_a A) (pos i)))
     /\ (isBoundaryCond ExampleError.EPS P i = true
         <-> (forall j, (rdn (_ia A) i <= j < pos i)%nat ->
                (rdn (_ja A) j < i)%nat /\ Kabs (rd (_a A) j) <= ExampleError.EPS)
             /\ Kabs (rd (_a A) (pos i) - 1) <= ExampleError.EPS))
  /\ forall nu, (nu < 1)%nat ->
       rd ExampleError.sums6 (2 * nu)
       == Qsum (map (rhs_row ExampleError.EPS ExampleError.PEN P pos [1; 1] nu)
                  (seq 0 2))
       /\ rd ExampleError.sums6 (2 * nu + 1)
          == Qsum (map (res_row ExampleError.EPS ExampleError.PEN P pos
                          (residual Example.exchange1 P 0 1 [0; 0] [1; 1]) nu)
                     (seq 0 2)).
Proof.
  apply (computeError_rows ExampleError.EPS ExampleError.PEN Example.exchange1
           ExampleError.P6 ExampleError.pos6 b_in b_work 1 ExampleError.state6);
    [discriminate | discriminate | apply example_rows_wf].
Defined.

(** The row of the first example is a boundary row in the words of the
    specification, its right-hand side is 1, and the sum of the right-hand
    side is 1 and not the square of [1 / HPDDM_PEN].  The row of the second
    example is no boundary row, and it adds its raw values to neither
    sum.  The first row of the third example holds the entry 5 off its
    diagonal, so that it is no boundary row in the words of the
    specification; [computeError] treats it as one, since the entry lies
    behind the diagonal, and adds nothing for it to the sum of the
    residual, which is 0 and not 1. *)
Lemma computeError_rows_counterexample :
  (boundary_claimed ExampleError.EPS ExampleError.P3 0 = true
   /\ ~ rd ExampleError.sums 0
        == Qsum (map (rhs_term_claimed ExampleError.EPS ExampleError.PEN ExampleError.P3
                        [1] 0) (seq 0 1)))
  /\ (boundary_claimed ExampleError.EPS ExampleError.P4 0 = false
      /\ ~ rd ExampleError.sums4 0
           == Qsum (map (rhs_term_claimed ExampleError.EPS ExampleError.PEN
                           ExampleError.P4 [1] 0) (seq 0 1))
      /\ ~ rd ExampleError.sums4 1
           == Qsum (map (res_term_claimed ExampleError.EPS ExampleError.P4
                           (residual Example.exchange1 ExampleError.P4 0 1 [0] [1]) 0)
                      (seq 0 1)))
  /\ (boundary_claimed ExampleError.EPS ExampleError.P6 0 = false
      /\ isBoundaryCond ExampleError.EPS ExampleError.P6 0 = true
      /\ rd ExampleError.sums6 1 == 0
      /\ Qsum (map (res_term_claimed ExampleError.EPS ExampleError.P6
                      (residual Example.exchange1 ExampleError.P6 0 1 [0; 0] [1; 1]) 0)
                 (seq 0 2)) == 1).
Proof.
  split; [split|split; [split; [|split]|split; [|split; [|split]]]].
  - vm_compute. reflexivity.
  - vm_compute. discriminate.
  - vm_compute. reflexivity.
  - vm_compute. discriminate.
  - vm_compute. discriminate.
  - vm_compute. reflexivity.
  - vm_compute. reflexivity.
  - vm_compute. reflexivity.
  - vm_compute. reflexivity.
Qed.

(** ** Rounding to binary64 *)

Lemma Qfloor_bounds (q : Q) :
  inject_Z (Qfloor q) <= q /\ q < inject_Z (Qfloor q) + 1.
Proof.
  split; [apply Qfloor_le|].
  pose proof (Qlt_floor q) as H. rewrite inject_Z_plus in H. exact H.
Qed.

Lemma rne_error (q : Q) : Qabs (inject_Z (rne q) - q) <= 1 # 2.
Proof.
  destruct (Qfloor_bounds q) as (H1 & H2). unfold rne.
  destruct (Qcompare (q - inject_Z (Qfloor q)) (1 # 2)) eqn:E.
  - apply Qeq_alt in E. apply Qabs_Qle_condition.
    destruct (Z.even (Qfloor q)); rewrite ?inject_Z_plus;
      change (inject_Z 1) with 1; split; lra.
  - apply Qlt_alt in E. apply Qabs_Qle_condition. split; lra.
  - apply Qgt_alt in E. apply Qabs_Qle_condition. rewrite inject_Z_plus.
    change (inject_Z 1) with 1. split; lra.
Qed.

Lemma rne_bounds (q : Q) : (Qfloor q <= rne q <= Qfloor q + 1)%Z.
Proof.
  unfold rne. destruct (Qcompare _ _); [destruct (Z.even _)| |]; lia.
Qed.

Lemma rne_mono (q q' : Q) : q <= q' -> (rne q <= rne q')%Z.
Proof.
  intros H. pose proof (Qfloor_resp_le _ _ H) as Hf.
  destruct (Z.eq_dec (Qfloor q) (Qfloor q')) as [E|E].
  - unfold rne. rewrite <- E.
    destruct (Qcompare (q - inject_Z (Qfloor q)) (1 # 2)) eqn:E1;
      destruct (Qcompare (q' - inject_Z (Qfloor q)) (1 # 2)) eqn:E2;
      try (destruct (Z.even (Qfloor q))); try lia; exfalso;
      first [apply Qeq_alt in E1 | apply Qlt_alt in E1 | apply Qgt_alt in E1];
      first [apply Qeq_alt in E2 | apply Qlt_alt in E2 | apply Qgt_alt in E2]; lra.
  - pose proof (rne_bounds q). pose proof (rne_bounds q'). lia.
Qed.

Lemma rne_Z (z : Z) : rne (inject_Z z) = z.
Proof.
  unfold rne. rewrite Qfloor_Z.
  assert (E : Qcompare (inject_Z z - inject_Z z) (1 # 2) = Lt).
  { apply Qlt_alt. unfold Qminus. rewrite Qplus_opp_r. reflexivity. }
  now rewrite E.
Qed.

Lemma pow2_pos (e : Z) : 0 < 2 ^ e.
Proof. apply Qpower_0_lt. reflexivity. Qed.

Lemma pow2_plus (a b : Z) : 2 ^ (a + b) == 2 ^ a * 2 ^ b.
Proof. apply Qpower_plus. discriminate. Qed.

Lemma pow2_log2 (n : Z) :
  (0 < n)%Z -> 2 ^ Z.log2 n <= inject_Z n /\ inject_Z n < 2 ^ (Z.log2 n + 1).
Proof.
  intros Hn. destruct (Z.log2_spec n Hn) as (H1 & H2).
  pose proof (Z.log2_nonneg n) as H0.
  change 2 with (inject_Z 2).
  rewrite <- !Zpower_Qpower by lia. rewrite <- Zle_Qle, <- Zlt_Qlt.
  replace (Z.log2 n + 1)%Z with (Z.succ (Z.log2 n)) by lia. lia.
Qed.

Lemma ilog2_spec (x : Q) : 0 < x -> 2 ^ ilog2 x <= x /\ x < 2 ^ (ilog2 x + 1).
Proof.
  intros Hx. destruct x as [n d]. unfold ilog2. cbn [Qnum Qden].
  assert (Hn : (0 < n)%Z).
  { unfold Qlt in Hx. cbn in Hx. lia. }
  destruct (pow2_log2 n Hn) as (Na & Nb).
  destruct (pow2_log2 (Zpos d) ltac:(lia)) as (Da & Db).
  set (a := Z.log2 n) in *. set (b := Z.log2 (Zpos d)) in *.
  assert (Ex : n # d == inject_Z n / inject_Z (Zpos d)) by apply Qmake_Qdiv.
  assert (Hd : 0 < inject_Z (Zpos d)) by reflexivity.
  assert (Exd : (n # d) * inject_Z (Zpos d) == inject_Z n).
  { rewrite Ex. field. lra. }
  pose proof (pow2_pos (a - b)) as P0.
  pose proof (pow2_pos (a - b - 1)) as P1.
  pose proof (pow2_pos (a - b + 1)) as P2.
  assert (A : 2 ^ (a - b - 1) < n # d).
  { assert (E : 2 ^ (a - b - 1) * 2 ^ (b + 1) == 2 ^ a).
    { rewrite <- pow2_plus. now replace (a - b - 1 + (b + 1))%Z with a by lia. }
    nra. }
  assert (B : n # d < 2 ^ (a - b + 1)).
  { assert (E : 2 ^ (a - b + 1) * 2 ^ b == 2 ^ (a + 1)).
    { rewrite <- pow2_plus. now replace (a - b + 1 + b)%Z with (a + 1)%Z by lia. }
    nra. }
  destruct (Qle_bool (2 ^ (a - b)) (n # d)) eqn:E.
  - apply Qle_bool_iff in E. split; assumption.
  - assert (n # d < 2 ^ (a - b)).
    { apply Qnot_le_lt. intros H. apply Qle_bool_iff in H. congruence. }
    replace (a - b - 1 + 1)%Z with (a - b)%Z by lia. split; [lra|assumption].
Qed.

Lemma pow2_52 : 2 ^ 52 == inject_Z (2 ^ 52).
Proof. reflexivity. Qed.

Lemma pow2_53 : 2 ^ 53 == inject_Z (2 ^ 53).
Proof. reflexivity. Qed.

(** The scaled significand lies in [2^52, 2^53). *)
Lemma significand_bounds (x : Q) :
  0 < x ->
  let e := (ilog2 x - 52)%Z in
  x == x / 2 ^ e * 2 ^ e
  /\ 2 ^ 52 <= x / 2 ^ e /\ x / 2 ^ e < 2 ^ 53.
Proof.
  intros Hx e. destruct (ilog2_spec x Hx) as (H1 & H2).
  pose proof (pow2_pos e) as He.
  assert (E1 : 2 ^ 52 * 2 ^ e == 2 ^ ilog2 x).
  { rewrite <- pow2_plus. subst e. now replace (52 + (ilog2 x - 52))%Z with (ilog2 x) by lia. }
  assert (E2 : 2 ^ 53 * 2 ^ e == 2 ^ (ilog2 x + 1)).
  { rewrite <- pow2_plus. subst e.
    now replace (53 + (ilog2 x - 52))%Z with (ilog2 x + 1)%Z by lia. }
  assert (E : x == x / 2 ^ e * 2 ^ e) by (field; lra).
  split; [exact E|]. set (y := x / 2 ^ e) in *.
  split.
  - apply Qnot_lt_le. intros H. nra.
  - apply Qnot_le_lt. intros H. nra.
Qed.

Lemma round_pos_spec (x : Q) :
  0 < x ->
  Qabs (round_pos x - x) <= u64 * x
  /\ 2 ^ ilog2 x <= round_pos x /\ round_pos x <= 2 ^ (ilog2 x + 1).
Proof.
  intros Hx. destruct (significand_bounds x Hx) as (E & Y1 & Y2).
  destruct (ilog2_spec x Hx) as (H1 & H2).
  unfold round_pos. set (e := (ilog2 x - 52)%Z) in *.
  set (y := x / 2 ^ e) in *. pose proof (pow2_pos e) as He.
  pose proof (rne_error y) as Hr. apply Qabs_Qle_condition in Hr.
  assert (E1 : 2 ^ 52 * 2 ^ e == 2 ^ ilog2 x).
  { rewrite <- pow2_plus. subst e. now replace (52 + (ilog2 x - 52))%Z with (ilog2 x) by lia. }
  assert (E2 : 2 ^ 53 * 2 ^ e == 2 ^ (ilog2 x + 1)).
  { rewrite <- pow2_plus. subst e.
    now replace (53 + (ilog2 x - 52))%Z with (ilog2 x + 1)%Z by lia. }
  assert (M1 : 2 ^ 52 <= inject_Z (rne y)).
  { rewrite pow2_52, <- Zle_Qle. rewrite <- (rne_Z (2 ^ 52)).
    apply rne_mono. now rewrite <- pow2_52. }
  assert (M2 : inject_Z (rne y) <= 2 ^ 53).
  { rewrite pow2_53, <- Zle_Qle. rewrite <- (rne_Z (2 ^ 53)).
    apply rne_mono. rewrite <- pow2_53. lra. }
  set (m := inject_Z (rne y)) in *.
  assert (P52 : 2 ^ 52 == 4503599627370496) by reflexivity.
  split; [|split].
  - apply Qabs_Qle_condition. unfold u64. split; nra.
  - nra.
  - nra.
Qed.

Lemma round_pos_pos (x : Q) : 0 < x -> 0 < round_pos x.
Proof.
  intros Hx. destruct (round_pos_spec x Hx) as (_ & H & _).
  pose proof (pow2_pos (ilog2 x)). lra.
Qed.

Lemma ilog2_mono (x y : Q) : 0 < x -> x <= y -> (ilog2 x <= ilog2 y)%Z.
Proof.
  intros Hx Hxy.
  destruct (ilog2_spec x Hx) as (X1 & _).
  destruct (ilog2_spec y ltac:(lra)) as (_ & Y2).
  assert (H : 2 ^ ilog2 x < 2 ^ (ilog2 y + 1)) by lra.
  apply Qpower_lt_compat_l_inv in H; [lia | reflexivity].
Qed.

Lemma round_pos_mono (x y : Q) : 0 < x -> x <= y -> round_pos x <= round_pos y.
Proof.
  intros Hx Hxy. assert (Hy : 0 < y) by lra.
  pose proof (ilog2_mono x y Hx Hxy) as Hk.
  destruct (Z.eq_dec (ilog2 x) (ilog2 y)) as [E|E].
  - unfold round_pos. rewrite E. set (e := (ilog2 y - 52)%Z).
    pose proof (pow2_pos e) as He.
    apply Qmult_le_compat_r; [|lra].
    rewrite <- Zle_Qle. apply rne_mono.
    apply Qmult_le_compat_r; [exact Hxy|].
    apply Qlt_le_weak, Qinv_lt_0_compat, He.
  - destruct (round_pos_spec x Hx) as (_ & _ & X).
    destruct (round_pos_spec y Hy) as (_ & Y & _).
    assert (H : 2 ^ (ilog2 x + 1) <= 2 ^ ilog2 y).
    { apply Qpower_le_compat_l; [lia | discriminate]. }
    lra.
Qed.

Lemma binary64_mono (x y : Q) : x <= y -> binary64 x <= binary64 y.
Proof.
  intros Hxy. unfold binary64.
  destruct (Qcompare x 0) eqn:Ex, (Qcompare y 0) eqn:Ey;
    first [apply Qeq_alt in Ex | apply Qlt_alt in Ex | apply Qgt_alt in Ex];
    first [apply Qeq_alt in Ey | apply Qlt_alt in Ey | apply Qgt_alt in Ey];
    try (exfalso; lra).
  - lra.
  - pose proof (round_pos_pos y Ey). lra.
  - pose proof (round_pos_pos (- x) ltac:(lra)). lra.
  - pose proof (round_pos_mono (- y) (- x) ltac:(lra) ltac:(lra)). lra.
  - pose proof (round_pos_pos (- x) ltac:(lra)).
    pose proof (round_pos_pos y Ey). lra.
  - now apply round_pos_mono.
Qed.

Lemma binary64_error (x : Q) : Qabs (binary64 x - x) <= u64 * Qabs x.
Proof.
  unfold binary64.
  destruct (Qcompare x 0) eqn:Ex;
    first [apply Qeq_alt in Ex | apply Qlt_alt in Ex | apply Qgt_alt in Ex].
  - rewrite Ex. cbn. discriminate.
  - destruct (round_pos_spec (- x) ltac:(lra)) as (H & _).
    rewrite (Qabs_neg x) by lra.
    apply Qabs_Qle_condition in H. apply Qabs_Qle_condition. split; lra.
  - destruct (round_pos_spec x Ex) as (H & _).
    now rewrite (Qabs_pos x) by lra.
Qed.

Lemma binary64_1 : binary64 1 == 1.
Proof. vm_compute. reflexivity. Qed.

Lemma binary64_rounding : rounding u64 binary64.
Proof.
  split.
  - split; [discriminate | reflexivity].
  - apply binary64_error.
  - apply binary64_mono.
  - apply binary64_1.
Qed.

(** On some numbers of [double], the sum, the product and the quotient
    rounded with [binary64] are those of the floats of the kernel. *)
Lemma binary64_floats :
  Forall (fun xy : float * float =>
            binary64 (Q_of_float xy.1 + Q_of_float xy.2)
            == Q_of_float (PrimFloat.add xy.1 xy.2)
            /\ binary64 (Q_of_float xy.1 * Q_of_float xy.2)
               == Q_of_float (PrimFloat.mul xy.1 xy.2)
            /\ binary64 (Q_of_float xy.1 / Q_of_float xy.2)
               == Q_of_float (PrimFloat.div xy.1 xy.2))
    [(1, 3); (2, 49); (49, 2); (0.5, 1.5); (0.75, 7); (-7, 1.25);
     (123456789.125, 0.000244140625); (10000000000, 3); (1, 10);
     (0x1.999999999999ap-1, 0x1.ccccccccccccdp+0);
     (0x1.5555555555555p-2, 0x1.c71c71c71c71cp-400);
     (0x1.fffffffffffffp+300, 0x1.0000000000001p-300)]%float.
Proof.
  repeat (apply List.Forall_cons; [vm_compute; repeat split; reflexivity|]).
  apply List.Forall_nil.
Qed.

(** ** The rounded rule *)

Section RuleFacts.

Variable fl : Q -> Q.
Variable u : Q.
Hypothesis Hfl : rounding u fl.

Lemma fl_bounds (x : Q) : 0 <= x -> (1 - u) * x <= fl x /\ fl x <= (1 + u) * x.
Proof.
  intros Hx. pose proof (rounding_error u fl Hfl x) as H.
  rewrite (Qabs_pos x) in H by exact Hx.
  apply Qabs_Qle_condition in H. split; lra.
Qed.

Lemma update_factors : 0 < update_lo u /\ update_lo u <= 1 /\ 1 <= update_hi u.
Proof.
  destruct (rounding_unit u fl Hfl) as (U0 & U1). unfold update_lo, update_hi.
  assert (C : 0 < (1 - u) * (1 - u) * (1 - u)).
  { repeat apply Qmult_lt_0_compat; lra. }
  split; [|split].
  - apply Qlt_shift_div_l; lra.
  - apply Qle_shift_div_r; [lra|]. nra.
  - apply Qle_shift_div_l; [lra|]. nra.
Qed.

(** One update of a positive weight. *)
Lemma quotient_step (s r w S a b : Q) :
  0 < s -> 0 <= r -> 0 < w -> w <= 1 -> 0 < S ->
  0 < a -> a <= 1 -> 1 <= b ->
  a * (w * S) <= s -> s <= b * (w * S) ->
  let w' := quotient fl s r w in
  ~ divisor fl s r w == 0
  /\ 0 < w' /\ w' <= 1
  /\ update_lo u * a * (w' * (S + r)) <= s /\ s <= update_hi u * b * (w' * (S + r)).
Proof.
  intros Hs Hr Hw Hw1 HS Ha Ha1 Hb Hlo Hhi w'.
  destruct (rounding_unit u fl Hfl) as (U0 & U1).
  set (c := 1 - u). set (e := 1 + u).
  assert (Hc : 0 < c) by (unfold c; lra). assert (Hc1 : c <= 1) by (unfold c; lra).
  assert (He : 1 <= e) by (unfold e; lra).
  (* the product *)
  assert (Hwr : 0 <= w * r) by (apply Qmult_le_0_compat; lra).
  destruct (fl_bounds (w * r) Hwr) as (P1 & P2). fold c e in P1, P2.
  set (p := fl (w * r)) in *.
  assert (Hp : 0 <= p) by nra.
  (* its quotient by the sent value *)
  assert (Eps : p / s * s == p) by (field; lra).
  assert (Hps : 0 <= p / s) by (apply Qle_shift_div_l; lra).
  destruct (fl_bounds (p / s) Hps) as (Q1 & Q2). fold c e in Q1, Q2.
  set (ps := p / s) in *. set (q := fl ps) in *.
  assert (Hq : 0 <= q) by nra.
  assert (Q1s : c * (c * (w * r)) <= s * q) by nra.
  assert (Q2s : s * q <= e * (e * (w * r))) by nra.
  (* the divisor *)
  destruct (fl_bounds (1 + q) ltac:(lra)) as (D1 & D2). fold c e in D1, D2.
  assert (D0 : 1 <= fl (1 + q)).
  { pose proof (rounding_one u fl Hfl) as F1.
    pose proof (rounding_mono u fl Hfl 1 (1 + q) ltac:(lra)). lra. }
  assert (ED : divisor fl s r w = fl (1 + q)) by reflexivity.
  set (D := fl (1 + q)) in *.
  (* the quotient *)
  assert (EwD : w / D * D == w) by (field; lra).
  assert (HwD : 0 < w / D) by (apply Qlt_shift_div_l; lra).
  assert (HwD1 : w / D <= 1) by (apply Qle_shift_div_r; lra).
  destruct (fl_bounds (w / D) ltac:(lra)) as (W1 & W2). fold c e in W1, W2.
  assert (W0 : fl (w / D) <= 1).
  { pose proof (rounding_one u fl Hfl) as F1.
    pose proof (rounding_mono u fl Hfl (w / D) 1 ltac:(lra)). lra. }
  assert (Ew' : w' = fl (w / D)) by reflexivity.
  set (wD := w / D) in *. clearbody w'. subst w'. set (w' := fl wD) in *.
  split; [rewrite ED; lra|].
  assert (Hw' : 0 < w') by nra.
  split; [exact Hw'|]. split; [exact W0|].
  assert (Hww : w' * D <= e * w) by nra.
  assert (Hww' : c * w <= w' * D) by nra.
  assert (HsD : c * (s + c * (c * (w * r))) <= s * D) by nra.
  assert (HsD' : s * D <= e * (s + e * (e * (w * r)))) by nra.
  assert (HaS : 0 <= a * (w * S)).
  { apply Qmult_le_0_compat; [lra|]. apply Qmult_le_0_compat; lra. }
  assert (Hcc : 0 < c * c /\ c * c <= 1) by nra.
  assert (Hee : 1 <= e * e) by nra.
  assert (HsD0 : 0 < s * D) by nra.
  assert (Hwr' : 0 <= c * c * (w * r)) by nra.
  assert (Hwr'' : 0 <= e * e * (w * r)) by nra.
  split.
  - assert (K1 : c * c * (a * (w * (S + r))) <= s + c * (c * (w * r))).
    { assert (c * c * (a * (w * S)) <= a * (w * S)) by nra.
      assert (a * (c * c * (w * r)) <= c * c * (w * r)) by nra.
      lra. }
    set (Y := a * (w * (S + r))) in *.
    assert (HY : 0 <= Y).
    { unfold Y. apply Qmult_le_0_compat; [lra|]. apply Qmult_le_0_compat; lra. }
    assert (K2 : c * (c * c * Y) <= s * D) by nra.
    set (Z := a * (S + r)).
    assert (HZ : 0 <= Z) by (unfold Z; apply Qmult_le_0_compat; lra).
    assert (EY : Y == Z * w) by (unfold Y, Z; ring).
    assert (K3 : c * c * c * (Z * (w' * D)) <= e * (s * D)).
    { assert (Z * (w' * D) <= Z * (e * w)) by nra.
      assert (0 <= c * c * c) by nra.
      assert (c * c * c * (Z * (w' * D)) <= c * c * c * (Z * (e * w))) by nra.
      assert (c * c * c * (Z * (e * w)) == e * (c * (c * c * Y))) by (rewrite EY; ring).
      nra. }
    assert (K4 : c * c * c * (Z * w') <= e * s).
    { apply Qnot_lt_le. intros H.
      assert (e * s * D < c * c * c * (Z * w') * D) by nra.
      nra. }
    unfold update_lo. fold c e.
    assert (E : c * c * c / e * a * (w' * (S + r)) == c * c * c * (Z * w') / e).
    { unfold Z. field. lra. }
    rewrite E. apply Qle_shift_div_r; [lra|]. nra.
  - assert (K1 : s + e * (e * (w * r)) <= e * e * (b * (w * (S + r)))).
    { assert (b * (w * S) <= e * e * (b * (w * S))) by nra.
      assert (e * e * (w * r) <= b * (e * e * (w * r))) by nra.
      lra. }
    set (Y := b * (w * (S + r))) in *.
    assert (HY : 0 <= Y).
    { unfold Y. apply Qmult_le_0_compat; [lra|]. apply Qmult_le_0_compat; lra. }
    assert (K2 : s * D <= e * (e * e * Y)) by nra.
    set (Z := b * (S + r)).
    assert (HZ : 0 <= Z) by (unfold Z; apply Qmult_le_0_compat; lra).
    assert (EY : Y == Z * w) by (unfold Y, Z; ring).
    assert (K3 : c * (s * D) <= e * e * e * (Z * (w' * D))).
    { assert (Z * (c * w) <= Z * (w' * D)) by nra.
      assert (0 <= e * e * e) by nra.
      assert (e * e * e * (Z * (c * w)) <= e * e * e * (Z * (w' * D))) by nra.
      assert (e * e * e * (Z * (c * w)) == c * (e * (e * e * Y))) by (rewrite EY; ring).
      nra. }
    assert (K4 : c * s <= e * e * e * (Z * w')).
    { apply Qnot_lt_le. intros H.
      assert (e * e * e * (Z * w') * D < c * s * D) by nra.
      nra. }
    unfold update_hi. fold c e.
    assert (E : e * e * e / c * b * (w' * (S + r)) == e * e * e * (Z * w') / c).
    { unfold Z. field. lra. }
    rewrite E. apply Qle_shift_div_l; [lra|]. nra.
Qed.


Lemma pow_succ (x : Q) (k : nat) :
  0 < x -> x ^ Z.of_nat (S k) == x * x ^ Z.of_nat k.
Proof.
  intros Hx. rewrite Nat2Z.inj_succ. unfold Z.succ.
  rewrite Qpower_plus by (intros E; rewrite E in Hx; discriminate).
  change (x ^ 1) with x. ring.
Qed.

Lemma pow_pos (x : Q) (k : nat) : 0 < x -> 0 < x ^ Z.of_nat k.
Proof. apply Qpower_0_lt. Qed.

Lemma pow_le_1 (x : Q) (k n : nat) :
  0 < x -> x <= 1 -> (k <= n)%nat -> x ^ Z.of_nat n <= x ^ Z.of_nat k.
Proof.
  intros Hx Hx1 Hkn. induction Hkn as [|n Hkn IH]; [apply Qle_refl|].
  rewrite pow_succ by exact Hx. pose proof (pow_pos x n Hx). nra.
Qed.

Lemma pow_ge_1 (x : Q) (k n : nat) :
  1 <= x -> (k <= n)%nat -> x ^ Z.of_nat k <= x ^ Z.of_nat n.
Proof. intros Hx Hkn. apply Qpower_le_compat_l; [lia | exact Hx]. Qed.

(** The updates of a positive weight by non-negative values. *)
Lemma foldl_quotient_bracket (s : Q) (rs : list Q) :
  0 < s -> Forall (fun r => 0 <= r) rs ->
  forall w S a b,
    0 < w -> w <= 1 -> 0 < S -> 0 < a -> a <= 1 -> 1 <= b ->
    a * (w * S) <= s -> s <= b * (w * S) ->
    let W := foldl (fun w r => quotient fl s r w) w rs in
    let k := Z.of_nat (length rs) in
    divisors_nonzero fl s w rs /\ 0 < W /\ W <= 1
    /\ update_lo u ^ k * a * (W * (S + Qsum rs)) <= s
    /\ s <= update_hi u ^ k * b * (W * (S + Qsum rs)).
Proof.
  intros Hs Hrs. destruct update_factors as (F0 & F1 & F2).
  induction Hrs as [|r rs Hr Hrs IH];
    intros w S a b Hw Hw1 HS Ha Ha1 Hb Hlo Hhi W k; subst W k.
  - cbn [foldl length divisors_nonzero Z.of_nat]. unfold Qsum. cbn [foldr].
    change (update_lo u ^ Z.of_nat 0) with 1. change (update_hi u ^ Z.of_nat 0) with 1.
    split; [exact I|]. split; [exact Hw|]. split; [exact Hw1|].
    assert (E : w * (S + 0) == w * S) by ring.
    rewrite E. split; lra.
  - cbn [foldl length divisors_nonzero].
    destruct (quotient_step s r w S a b Hs Hr Hw Hw1 HS Ha Ha1 Hb Hlo Hhi)
      as (D & W0 & W1 & L & H).
    set (w' := quotient fl s r w) in *.
    destruct (IH w' (S + r) (update_lo u * a) (update_hi u * b))
      as (ID & IW0 & IW1 & IL & IH'); try assumption; try nra.
    set (W := foldl (fun w r => quotient fl s r w) w' rs) in *.
    split; [split; [intros E; lra | split; assumption]|].
    split; [exact IW0|]. split; [exact IW1|].
    rewrite !pow_succ by (assumption || lra).
    assert (ES : Qsum (r :: rs) == r + Qsum rs) by reflexivity.
    rewrite ES. split.
    + assert (E : update_lo u * update_lo u ^ Z.of_nat (length rs) * a * (W * (S + (r + Qsum rs)))
                  == update_lo u ^ Z.of_nat (length rs) * (update_lo u * a)
                     * (W * (S + r + Qsum rs))) by ring.
      now rewrite E.
    + assert (E : update_hi u * update_hi u ^ Z.of_nat (length rs) * b * (W * (S + (r + Qsum rs)))
                  == update_hi u ^ Z.of_nat (length rs) * (update_hi u * b)
                     * (W * (S + r + Qsum rs))) by ring.
      now rewrite E.
Qed.

(** From the weight 1: the product of the weight with the sum of the sent
    value and the received ones is the sent value, up to the roundings. *)
Lemma quotients_bracket (s : Q) (rs : list Q) :
  0 < s -> Forall (fun r => 0 <= r) rs ->
  let W := foldl (fun w r => quotient fl s r w) 1 rs in
  let k := Z.of_nat (length rs) in
  divisors_nonzero fl s 1 rs /\ 0 < W /\ W <= 1
  /\ update_lo u ^ k * (W * (s + Qsum rs)) <= s
  /\ s <= update_hi u ^ k * (W * (s + Qsum rs)).
Proof.
  intros Hs Hrs W k.
  destruct (foldl_quotient_bracket s rs Hs Hrs 1 s 1 1)
    as (D & W0 & W1 & L & H); try lra.
  fold W k in W0, W1, L, H.
  split; [exact D|]. split; [exact W0|]. split; [exact W1|]. split.
  - now rewrite Qmult_1_r in L.
  - now rewrite Qmult_1_r in H.
Qed.

End RuleFacts.

(** ** multiplicityScaling on one process *)

Lemma Qsum_Permutation (l l' : list Q) : Permutation l l' -> Qsum l == Qsum l'.
Proof.
  unfold Qsum. induction 1 as [|x l l' _ IH|x y l|l l' l'' _ IH1 _ IH2]; cbn [foldr].
  - reflexivity.
  - now rewrite IH.
  - ring.
  - now rewrite IH1.
Qed.

Lemma Qsum_nonneg (l : list Q) : Forall (fun x => 0 <= x) l -> 0 <= Qsum l.
Proof.
  unfold Qsum. induction 1 as [|x l Hx _ IH]; cbn [foldr]; [apply Qle_refl|].
  lra.
Qed.

Section ScalingFacts.

Variable HPDDM_EPS : Q.
Variable fl : Q -> Q.
Variable map_ : list (nat * list nat).
Variable rbuff : list (list ul_type).

(** The array before the call, and the send buffers gathered from it. *)
Variable d0 : list ul_type.

Local Abbreviation sbuff := (map (fun nb : nat * list nat => gthr d0 nb.2) map_).

Lemma length_scale_entries (send recv : list ul_type) (idxs l : list nat)
    (d : list ul_type) :
  length (foldl (scale_entry HPDDM_EPS fl send recv idxs) d l) = length d.
Proof.
  revert d. induction l as [|j l IH]; intros d; [reflexivity|].
  cbn [foldl]. rewrite IH. apply length_insert.
Qed.

Lemma length_scale_neighbour (sb : list (list ul_type)) (d : list ul_type) (k : nat) :
  length (scale_neighbour HPDDM_EPS fl map_ sb rbuff d k) = length d.
Proof. apply length_scale_entries. Qed.

(** The inner loop, seen from the index [idx]. *)
Lemma rd_scale_entries (send recv : list ul_type) (idxs : list nat)
    (idx : nat) (s : ul_type) (n : nat) (d : list ul_type) :
  (idx < length d)%nat ->
  (forall j, (j < n)%nat -> rdn idxs j = idx -> rd send j = s) ->
  rd (foldl (scale_entry HPDDM_EPS fl send recv idxs) d (seq 0 n)) idx
  = foldl (fun w r => rescale HPDDM_EPS fl s r w) (rd d idx)
      (flat_map (fun j => if (rdn idxs j =? idx)%nat then [rd recv j] else [])
         (seq 0 n)).
Proof.
  intros Hidx. induction n as [|n IH]; intros Hs; [reflexivity|].
  rewrite seq_S, flat_map_app, !foldl_app. cbn [foldl flat_map plus].
  rewrite app_nil_r. unfold scale_entry at 1.
  destruct (Nat.eqb_spec (rdn idxs n) idx) as [E|E].
  - rewrite E, rd_insert_eq by now rewrite length_scale_entries.
    cbn [foldl]. rewrite IH by (intros j Hj; apply Hs; lia).
    rewrite (Hs n) by (lia || assumption). reflexivity.
  - rewrite rd_insert_ne by assumption.
    cbn [foldl]. apply IH. intros j Hj. apply Hs. lia.
Qed.

(** A sent value is the value of the array before the call. *)
Lemma rd_sbuff (k j : nat) :
  (j < length (shared_with map_ k))%nat ->
  rd (nth k sbuff []) j = rd d0 (rdn (shared_with map_ k) j).
Proof.
  intros Hj. unfold shared_with in *.
  change [] with ((fun nb : nat * list nat => gthr d0 nb.2) (0%nat, [])) at 1.
  rewrite map_nth. unfold gthr, rd at 1.
  rewrite (nth_indep _ 0 (rd d0 0%nat)) by now rewrite length_map.
  now rewrite map_nth.
Qed.

(** The outer loop, seen from the index [idx]. *)
Lemma rd_scale_neighbours (idx : nat) (order : list nat) (d : list ul_type) :
  (idx < length d)%nat ->
  rd (foldl (scale_neighbour HPDDM_EPS fl map_ sbuff rbuff) d order) idx
  = foldl (fun w r => rescale HPDDM_EPS fl (rd d0 idx) r w) (rd d idx)
      (received map_ rbuff order idx).
Proof.
  revert d. induction order as [|k order IH]; intros d Hidx; [reflexivity|].
  cbn [foldl]. unfold received. cbn [flat_map]. rewrite foldl_app.
  rewrite IH by now rewrite length_scale_neighbour.
  f_equal. unfold scale_neighbour, received_from.
  fold (shared_with map_ k).
  apply rd_scale_entries; [assumption|].
  intros j Hj E.
  rewrite rd_sbuff by assumption. now rewrite E.
Qed.

(** Below the threshold the rule yields 0, whatever is received. *)
Lemma foldl_rescale_small (s w : ul_type) (rs : list ul_type) :
  Kabs s < HPDDM_EPS -> rs <> [] ->
  foldl (fun w r => rescale HPDDM_EPS fl s r w) w rs = 0.
Proof.
  intros Hs%Qltb_lt Hrs.
  destruct rs as [|r rs]; [contradiction|]. clear Hrs.
  revert w r. induction rs as [|r' rs IH]; intros w r; cbn [foldl].
  - unfold rescale. now rewrite Hs.
  - apply (IH _ r').
Qed.

(** From the threshold on the rule is the quotient. *)
Lemma foldl_rescale_large (s w : ul_type) (rs : list ul_type) :
  HPDDM_EPS <= Kabs s ->
  foldl (fun w r => rescale HPDDM_EPS fl s r w) w rs
  = foldl (fun w r => quotient fl s r w) w rs.
Proof.
  intros Hs%Qltb_ge. revert w.
  induction rs as [|r rs IH]; intros w; cbn [foldl]; [reflexivity|].
  rewrite IH. unfold rescale. now rewrite Hs.
Qed.

End ScalingFacts.

Lemma flat_map_seq_shift {X : Type} (f : nat -> list X) (a n : nat) :
  flat_map f (seq (S a) n) = flat_map (fun j => f (S j)) (seq a n).
Proof.
  revert a. induction n as [|n IH]; intros a; [reflexivity|].
  cbn [seq flat_map]. now rewrite IH.
Qed.

Lemma length_positions (g : nat -> Q) (idxs : list nat) (idx : nat) :
  length (flat_map (fun j => if (rdn idxs j =? idx)%nat then [g j] else [])
            (seq 0 (length idxs)))
  = count_occ Nat.eq_dec idxs idx.
Proof.
  revert g. induction idxs as [|a idxs IH]; intros g; [reflexivity|].
  cbn [length seq flat_map]. rewrite flat_map_seq_shift.
  cbn [rdn nth count_occ]. rewrite length_app.
  change (fun j => if (nth j idxs 0%nat =? idx)%nat then [g (S j)] else [])
    with (fun j => if (rdn idxs j =? idx)%nat then [(fun j => g (S j)) j] else []).
  rewrite IH.
  destruct (Nat.eqb_spec a idx) as [E|E], (Nat.eq_dec a idx) as [E'|E'];
    try contradiction; reflexivity.
Qed.

Section ScalingCount.

Variable map_ : list (nat * list nat).
Variable rbuff : list (list ul_type).

Lemma shared_with_NoDup (k : nat) : map_wf map_ -> NoDup (shared_with map_ k).
Proof.
  intros Hwf. unfold shared_with.
  destruct (Nat.lt_ge_cases k (length map_)) as [Hk|Hk].
  - unfold map_wf in Hwf. rewrite Forall_forall in Hwf.
    apply Hwf, list_elem_of_In, nth_In, Hk.
  - rewrite nth_overflow by exact Hk. constructor.
Qed.

Lemma length_received_from (idx k : nat) :
  map_wf map_ ->
  length (received_from map_ rbuff idx k)
  = if bool_decide (idx ∈ shared_with map_ k) then 1%nat else 0%nat.
Proof.
  intros Hwf. unfold received_from. rewrite length_positions.
  pose proof (shared_with_NoDup k Hwf) as Hnd.
  apply NoDup_ListNoDup in Hnd.
  apply (proj1 (NoDup_count_occ Nat.eq_dec _)) with (x := idx) in Hnd.
  case_bool_decide as Hin.
  - apply list_elem_of_In, (count_occ_In Nat.eq_dec) in Hin. lia.
  - rewrite list_elem_of_In, (count_occ_In Nat.eq_dec) in Hin. lia.
Qed.

(** One value is received for each neighbour that shares the index. *)
Lemma length_received (order : list nat) (idx : nat) :
  map_wf map_ ->
  length (received map_ rbuff order idx) = length (sharing map_ order idx).
Proof.
  intros Hwf. unfold received, sharing.
  induction order as [|k order IH]; [reflexivity|].
  cbn [flat_map List.filter].
  rewrite length_app, IH, length_received_from by exact Hwf.
  now case_bool_decide.
Qed.

Lemma received_nonneg (order : list nat) (idx : nat) :
  Forall (Forall (fun r => 0 <= r)) rbuff ->
  Forall (fun r => 0 <= r) (received map_ rbuff order idx).
Proof.
  intros Hr. unfold received, received_from.
  apply Forall_forall. intros r Hin.
  apply list_elem_of_In, in_flat_map in Hin. destruct Hin as (k & _ & Hin).
  apply in_flat_map in Hin. destruct Hin as (j & _ & Hin).
  destruct (rdn (shared_with map_ k) j =? idx)%nat; [|contradiction].
  destruct Hin as [<-|[]].
  unfold rd. destruct (nth_in_or_default j (nth k rbuff []) 0) as [H|H].
  - destruct (nth_in_or_default k rbuff []) as [H'|H'].
    + rewrite Forall_forall in Hr. apply list_elem_of_In, Hr in H'.
      rewrite Forall_forall in H'. now apply H', list_elem_of_In.
    + rewrite H' in H. contradiction.
  - rewrite H. apply Qle_refl.
Qed.

End ScalingCount.

Lemma rd_nonneg (d : list Q) (i : nat) : Forall (fun x => 0 <= x) d -> 0 <= rd d i.
Proof.
  intros Hd. unfold rd. destruct (nth_in_or_default i d 0) as [H|H].
  - rewrite Forall_forall in Hd. now apply Hd, list_elem_of_In.
  - rewrite H. apply Qle_refl.
Qed.

Lemma rd_replicate_1 (n k : nat) : (k < n)%nat -> rd (replicate n 1) k = 1.
Proof.
  revert k. induction n as [|n IH]; intros k Hk; [lia|].
  destruct k as [|k]; [reflexivity|]. apply IH. lia.
Qed.

(** C4, as amended: [multiplicityScaling] gathers the values of the array
    on the shared indices into the send buffers, then sets the array to 1,
    and then applies the rule in the order in which the receives complete:
    at an index shared with a neighbour the weight is 0 when the magnitude
    of the value sent is below [HPDDM_EPS], and otherwise the weight 1
    updated once per sharing neighbour by the rounded quotient
    [w / (1 + w * received / sent)], as long as no divisor is zero.  Another
    order of completion applies the same updates in another order.  The
    weights at which it arrives are the same where they are 0 or 1; where
    the rule divides, with a positive value sent and non-negative values
    received, they agree up to the roundings, within the factor
    [(update_hi u / update_lo u) ^ n] for [n] sharing neighbours, which is 1
    without rounding. *)
Theorem multiplicityScaling_weights
    (HPDDM_EPS : Q) (fl : Q -> Q) (P : Schwarz) (rbuff : list (list ul_type))
    (order : list nat) (d : list ul_type) :
  (Subdomain_dof P <= length d)%nat ->
  map_wf (Subdomain_map P) ->
  let result := multiplicityScaling HPDDM_EPS fl P rbuff order d in
  result.1 = map (fun nb => gthr d nb.2) (Subdomain_map P)
  /\ forall idx, (idx < Subdomain_dof P)%nat ->
       let s := rd d idx in
       let rs := received (Subdomain_map P) rbuff order idx in
       let nbs := sharing (Subdomain_map P) order idx in
       length rs = length nbs
       /\ (nbs = [] -> rd result.2 idx = 1)
       /\ (nbs <> [] -> Kabs s < HPDDM_EPS -> rd result.2 idx = 0)
       /\ (HPDDM_EPS <= Kabs s -> divisors_nonzero fl s 1 rs ->
           rd result.2 idx
           = foldl (fun w r => fl (w / fl (1 + fl (fl (w * r) / s)))) 1 rs)
       /\ forall order', Permutation order order' ->
            let result' := multiplicityScaling HPDDM_EPS fl P rbuff order' d in
            Permutation rs (received (Subdomain_map P) rbuff order' idx)
            /\ (Kabs s < HPDDM_EPS -> rd result.2 idx = rd result'.2 idx)
            /\ forall u, rounding u fl -> 0 < HPDDM_EPS -> HPDDM_EPS <= s ->
                 Forall (fun r => 0 <= r) rs ->
                 let n := Z.of_nat (length nbs) in
                 update_lo u ^ n * rd result.2 idx <= update_hi u ^ n * rd result'.2 idx.
Proof.
  intros Hlen Hwf result. subst result.
  unfold multiplicityScaling. cbn [fst snd]. split; [reflexivity|].
  intros idx Hidx. cbv zeta. set (s := rd d idx).
  set (rs := received (Subdomain_map P) rbuff order idx).
  set (nbs := sharing (Subdomain_map P) order idx).
  assert (Hl1 : (idx < length (store_at 0 (replicate (Subdomain_dof P) 1%Q) d))%nat).
  { rewrite length_store_at_0, length_replicate. lia. }
  assert (H1 : rd (store_at 0 (replicate (Subdomain_dof P) 1) d) idx = 1).
  { rewrite rd_store_at_0 by now rewrite length_replicate.
    now apply rd_replicate_1. }
  assert (Hrd : forall o,
             rd (foldl (scale_neighbour HPDDM_EPS fl (Subdomain_map P)
                          (map (fun nb => gthr d nb.2) (Subdomain_map P)) rbuff)
                   (store_at 0 (replicate (Subdomain_dof P) 1) d) o) idx
             = foldl (fun w r => rescale HPDDM_EPS fl s r w) 1
                 (received (Subdomain_map P) rbuff o idx)).
  { intros o. rewrite rd_scale_neighbours by exact Hl1. now rewrite H1. }
  assert (Hlr : length rs = length nbs) by now apply length_received.
  split; [exact Hlr|]. rewrite Hrd. fold rs. split; [|split; [|split]].
  - intros Hn. rewrite Hn in Hlr. destruct rs; [reflexivity|discriminate].
  - intros Hn Hs. apply foldl_rescale_small; [exact Hs|].
    intros E. rewrite E in Hlr. destruct nbs; [contradiction|discriminate].
  - intros Hs _. now apply foldl_rescale_large.
  - intros order' Hperm. cbn zeta. rewrite Hrd.
    set (rs' := received (Subdomain_map P) rbuff order' idx).
    assert (Hp : Permutation rs rs').
    { unfold rs, rs', received. now apply Permutation_flat_map. }
    split; [exact Hp|]. split.
    + intros Hs. destruct rs as [|r rs0].
      * apply Permutation_nil in Hp. rewrite Hp. reflexivity.
      * rewrite !foldl_rescale_small; [reflexivity | exact Hs | | exact Hs | discriminate].
        intros E. rewrite E in Hp. symmetry in Hp.
        now apply Permutation_nil in Hp.
    + intros u Hfl Heps Hs Hnn.
      assert (Hpos : 0 < s) by lra.
      assert (Habs : HPDDM_EPS <= Kabs s).
      { unfold Kabs. rewrite Qabs_pos by lra. exact Hs. }
      assert (Hnn' : Forall (fun r => 0 <= r) rs').
      { apply Forall_forall. intros r Hr. rewrite Forall_forall in Hnn.
        apply Hnn. now rewrite Hp. }
      rewrite !foldl_rescale_large by exact Habs.
      destruct (quotients_bracket fl u Hfl s rs Hpos Hnn) as (_ & W0 & _ & L & _).
      destruct (quotients_bracket fl u Hfl s rs' Hpos Hnn') as (_ & W0' & _ & _ & H').
      rewrite <- (Permutation_length Hp), <- (Qsum_Permutation _ _ Hp) in H'.
      rewrite Hlr in L, H'.
      set (W := foldl (fun w r => quotient fl s r w) 1 rs) in *.
      set (W' := foldl (fun w r => quotient fl s r w) 1 rs') in *.
      set (n := Z.of_nat (length nbs)) in *.
      pose proof (Qsum_nonneg rs Hnn) as Hsum.
      set (T := s + Qsum rs) in *. assert (HT : 0 < T) by (unfold T; lra).
      apply Qnot_lt_le. intros Hlt.
      assert (update_hi u ^ n * W' * T < update_lo u ^ n * W * T) by nra.
      nra.
Qed.

(** The process of the example with two neighbours, the values 1 and 1/4
    received and [binary64] as the rounding. *)
Lemma multiplicityScaling_weights_witness :
  let result := multiplicityScaling ExampleScaling.EPS binary64 ExampleScaling.Pmid
                  [[1]; [1 # 4]] [0; 1]%nat [1; 1] in
  result.1 = [[1]; [1]]
  /\ forall idx, (idx < 2)%nat ->
       let s := rd [1; 1] idx in
       let rs := received (Subdomain_map ExampleScaling.Pmid) [[1]; [1 # 4]]
                   [0; 1]%nat idx in
       let nbs := sharing (Subdomain_map ExampleScaling.Pmid) [0; 1]%nat idx in
       length rs = length nbs
       /\ (nbs = [] -> rd result.2 idx = 1)
       /\ (nbs <> [] -> Kabs s < ExampleScaling.EPS -> rd result.2 idx = 0)
       /\ (ExampleScaling.EPS <= Kabs s -> divisors_nonzero binary64 s 1 rs ->
           rd result.2 idx
           = foldl (fun w r => binary64 (w / binary64
                                  (1 + binary64 (binary64 (w * r) / s)))) 1 rs)
       /\ forall order', Permutation [0; 1]%nat order' ->
            let result' := multiplicityScaling ExampleScaling.EPS binary64
                             ExampleScaling.Pmid [[1]; [1 # 4]] order' [1; 1] in
            Permutation rs (received (Subdomain_map ExampleScaling.Pmid) [[1]; [1 # 4]]
                              order' idx)
            /\ (Kabs s < ExampleScaling.EPS -> rd result.2 idx = rd result'.2 idx)
            /\ forall u, rounding u binary64 -> 0 < ExampleScaling.EPS ->
                 ExampleScaling.EPS <= s ->
                 Forall (fun r => 0 <= r) rs ->
                 let n := Z.of_nat (length nbs) in
                 update_lo u ^ n * rd result.2 idx <= update_hi u ^ n * rd result'.2 idx.
Proof.
  apply (multiplicityScaling_weights ExampleScaling.EPS binary64 ExampleScaling.Pmid
           [[1]; [1 # 4]] [0; 1]%nat [1; 1]).
  - simpl. lia.
  - repeat constructor; apply not_elem_of_nil.
Defined.

(** With [binary64] as the rounding, the process of the example arrives at
    another weight when the receive of the value 1/4 completes before that
    of the value 1: the two orders of completion do not produce the same
    final weights.  The two weights are those that the floats of the kernel
    yield. *)
Lemma multiplicityScaling_weights_counterexample :
  let first := multiplicityScaling ExampleScaling.EPS binary64 ExampleScaling.Pmid
                 [[1]; [1 # 4]] [0; 1]%nat [1; 1] in
  let second := multiplicityScaling ExampleScaling.EPS binary64 ExampleScaling.Pmid
                  [[1]; [1 # 4]] [1; 0]%nat [1; 1] in
  rd first.2 0 == 2001599834386887 # 4503599627370496
  /\ rd second.2 0 == 8006399337547549 # 18014398509481984
  /\ ~ rd first.2 0 == rd second.2 0
  /\ rd first.2 0
     == Q_of_float (quotient64 1%float 0.25%float (quotient64 1%float 1%float 1%float))
  /\ rd second.2 0
     == Q_of_float (quotient64 1%float 1%float (quotient64 1%float 0.25%float 1%float)).
Proof.
  split; [vm_compute; reflexivity|]. split; [vm_compute; reflexivity|].
  split; [vm_compute; discriminate|].
  split; vm_compute; reflexivity.
Qed.

(** ** Sums over lists *)

Lemma Qsum_map_plus {X : Type} (f g : X -> Q) (l : list X) :
  Qsum (map (fun x => f x + g x) l) == Qsum (map f l) + Qsum (map g l).
Proof.
  unfold Qsum. induction l as [|x l IH]; cbn [map foldr]; [ring|].
  rewrite IH. ring.
Qed.

Lemma Qsum_map_div {X : Type} (f : X -> Q) (t : Q) (l : list X) :
  Qsum (map (fun x => f x / t) l) == Qsum (map f l) / t.
Proof.
  unfold Qsum. induction l as [|x l IH]; cbn [map foldr].
  - unfold Qdiv. ring.
  - rewrite IH. unfold Qdiv. ring.
Qed.

Lemma Qsum_map_filter {X : Type} (f : X -> Q) (c : X -> bool) (l : list X) :
  Qsum (map f (List.filter c l)) == Qsum (map (fun x => if c x then f x else 0) l).
Proof.
  unfold Qsum. induction l as [|x l IH]; cbn [List.filter map foldr]; [reflexivity|].
  destruct (c x); cbn [map foldr]; rewrite IH; ring.
Qed.

Lemma Qsum_flat_map {X Y : Type} (f : Y -> Q) (G : X -> list Y) (l : list X) :
  Qsum (map f (flat_map G l)) == Qsum (map (fun x => Qsum (map f (G x))) l).
Proof.
  induction l as [|x l IH]; cbn [flat_map map]; [reflexivity|].
  rewrite map_app, Qsum_app, IH. unfold Qsum at 4. cbn [foldr]. reflexivity.
Qed.

(** The term of one index of a sum over [0 .. n - 1]. *)
Lemma Qsum_seq_single (f : nat -> Q) (i n : nat) :
  (i < n)%nat ->
  Qsum (map (fun q => if (q =? i)%nat then f q else 0) (seq 0 n)) == f i.
Proof.
  intros Hi. induction n as [|n IH]; [lia|].
  rewrite Qsum_seq_S. destruct (Nat.eq_dec i n) as [->|Hne].
  - rewrite Nat.eqb_refl.
    rewrite (Qsum_map_ext _ (fun _ => 0)).
    + assert (H0 : forall l : list nat, Qsum (map (fun _ => 0) l) == 0).
      { unfold Qsum. induction l as [|x l IHl]; cbn [map foldr]; [reflexivity|].
        rewrite IHl. ring. }
      rewrite H0. ring.
    + intros x Hx. apply in_seq in Hx.
      destruct (Nat.eqb_spec x n); [lia | reflexivity].
  - rewrite IH by lia. destruct (Nat.eqb_spec n i); [lia | ring].
Qed.

Lemma flat_map_nil {X Y : Type} (f : X -> list Y) (l : list X) :
  (forall x, In x l -> f x = []) -> flat_map f l = [].
Proof.
  induction l as [|x l IH]; intros H; [reflexivity|].
  cbn [flat_map]. rewrite (H x) by now left.
  apply IH. intros y Hy. apply H. now right.
Qed.

(** A [flat_map] over [0 .. n - 1] that is empty off the index [j]. *)
Lemma flat_map_seq_single {Y : Type} (f : nat -> list Y) (j n : nat) :
  (j < n)%nat -> (forall j', (j' < n)%nat -> j' <> j -> f j' = []) ->
  flat_map f (seq 0 n) = f j.
Proof.
  intros Hj H.
  replace n with (j + S (n - S j))%nat by lia.
  rewrite seq_app, flat_map_app. cbn [seq flat_map plus].
  rewrite !flat_map_nil, app_nil_r; [reflexivity| |].
  - intros x Hx. apply in_seq in Hx. apply H; lia.
  - intros x Hx. apply in_seq in Hx. apply H; lia.
Qed.

Lemma flat_map_nth_seq {X Y : Type} (f : X -> list Y) (l : list X) (d : X) :
  flat_map (fun k => f (nth k l d)) (seq 0 (length l)) = flat_map f l.
Proof.
  rewrite !flat_map_concat_map. f_equal. apply map_nth_seq.
Qed.

Lemma NoDup_map_filter {X Y : Type} (f : X -> Y) (c : X -> bool) (l : list X) :
  List.NoDup (map f l) -> List.NoDup (map f (List.filter c l)).
Proof.
  induction l as [|x l IH]; cbn [map List.filter]; intros H; [constructor|].
  inversion_clear H as [|? ? Hx Hl]. destruct (c x); cbn [map]; [|now apply IH].
  constructor; [|now apply IH].
  intros Hin. apply Hx. apply in_map_iff in Hin. destruct Hin as (y & Hy & Hin).
  apply in_map_iff. exists y. split; [exact Hy|]. now apply filter_In in Hin.
Qed.

(** ** The weight of one index *)

Lemma flat_map_ext_in {X Y : Type} (f g : X -> list Y) (l : list X) :
  (forall x, In x l -> f x = g x) -> flat_map f l = flat_map g l.
Proof.
  induction l as [|x l IH]; intros H; [reflexivity|].
  cbn [flat_map]. rewrite (H x) by now left.
  f_equal. apply IH. intros y Hy. apply H. now right.
Qed.

Lemma rd_gthr (d : list Q) (idxs : list nat) (j : nat) :
  (j < length idxs)%nat -> rd (gthr d idxs) j = rd d (rdn idxs j).
Proof.
  intros Hj. unfold gthr, rd at 1.
  rewrite (nth_indep _ 0 (rd d 0%nat)) by now rewrite length_map.
  now rewrite map_nth.
Qed.

Lemma Qsum_map_le {X : Type} (f g : X -> Q) (l : list X) :
  (forall x, In x l -> f x <= g x) -> Qsum (map f l) <= Qsum (map g l).
Proof.
  unfold Qsum. induction l as [|x l IH]; intros H; cbn [map foldr]; [apply Qle_refl|].
  pose proof (H x ltac:(now left)).
  pose proof (IH ltac:(intros y Hy; apply H; now right)). lra.
Qed.

Lemma Qsum_map_scale {X : Type} (c : Q) (f : X -> Q) (l : list X) :
  Qsum (map (fun x => c * f x) l) == c * Qsum (map f l).
Proof.
  unfold Qsum. induction l as [|x l IH]; cbn [map foldr]; [ring|].
  rewrite IH. ring.
Qed.

(** The weight that [multiplicityScaling] leaves at the index [idx]: 1
    when nothing is received for it, 0 when its value was below the
    threshold, and else, up to the roundings, that value over its sum with
    the received ones. *)
Lemma scaling_weight
    (HPDDM_EPS u : Q) (fl : Q -> Q) (P : Schwarz) (rbuff : list (list ul_type))
    (order : list nat) (d : list ul_type) (idx : nat) :
  rounding u fl ->
  0 < HPDDM_EPS ->
  (Subdomain_dof P <= length d)%nat ->
  Forall (fun x => 0 <= x) d ->
  Forall (Forall (fun r => 0 <= r)) rbuff ->
  (idx < Subdomain_dof P)%nat ->
  let w := rd (multiplicityScaling HPDDM_EPS fl P rbuff order d).2 idx in
  let rs := received (Subdomain_map P) rbuff order idx in
  let k := Z.of_nat (length rs) in
  (rs = [] -> w = 1)
  /\ (rs <> [] -> rd d idx < HPDDM_EPS -> w = 0)
  /\ (HPDDM_EPS <= rd d idx ->
      0 < w /\ w <= 1
      /\ update_lo u ^ k * (w * (rd d idx + Qsum rs)) <= rd d idx
      /\ rd d idx <= update_hi u ^ k * (w * (rd d idx + Qsum rs))).
Proof.
  intros Hfl Heps Hlen Hd Hr Hidx w rs k. subst w k.
  unfold multiplicityScaling. cbn [snd].
  rewrite rd_scale_neighbours
    by (rewrite length_store_at_0, length_replicate; lia).
  rewrite rd_store_at_0 by now rewrite length_replicate.
  rewrite rd_replicate_1 by exact Hidx. fold rs.
  pose proof (rd_nonneg d idx Hd) as Hs0.
  assert (Habs : Kabs (rd d idx) == rd d idx) by now apply Qabs_pos.
  split; [|split].
  - intros ->. reflexivity.
  - intros Hrs Hs. apply foldl_rescale_small; [|exact Hrs].
    now rewrite Habs.
  - intros Hs. rewrite foldl_rescale_large by now rewrite Habs.
    assert (Hpos : 0 < rd d idx) by lra.
    pose proof (received_nonneg (Subdomain_map P) rbuff order idx Hr) as Hrs.
    fold rs in Hrs.
    destruct (quotients_bracket fl u Hfl (rd d idx) rs Hpos Hrs) as (_ & H).
    exact H.
Qed.

(** ** The weights of all processes *)

Lemma nth_map_in {X Y : Type} (f : X -> Y) (l : list X) (k : nat) (d : X) (d' : Y) :
  (k < length l)%nat -> nth k (map f l) d' = f (nth k l d).
Proof.
  intros Hk. rewrite (nth_indep _ d' (f d)) by now rewrite length_map.
  apply map_nth.
Qed.

Lemma filter_flat_map {X : Type} (c : X -> bool) (l : list X) :
  List.filter c l = flat_map (fun x => if c x then [x] else []) l.
Proof.
  induction l as [|x l IH]; [reflexivity|].
  cbn [List.filter flat_map]. rewrite IH. now destruct (c x).
Qed.

Lemma filter_seq_single (c : nat -> bool) (j n : nat) :
  (j < n)%nat -> c j = true ->
  (forall j', (j' < n)%nat -> c j' = true -> j' = j) ->
  List.filter c (seq 0 n) = [j].
Proof.
  intros Hj Hc Huniq. rewrite filter_flat_map.
  rewrite (flat_map_seq_single _ j n Hj); [now rewrite Hc|].
  intros j' Hj' Hne. destruct (c j') eqn:E; [|reflexivity].
  now apply Huniq in E.
Qed.

Section DecompositionFacts.

Variables HPDDM_EPS u : Q.
Variable fl : Q -> Q.
Variable world : list (Schwarz * list ul_type).
Variable glob : nat -> nat -> nat.
Variable orders : nat -> list nat.

Hypothesis Hfl : rounding u fl.
Hypothesis Heps : 0 < HPDDM_EPS.
Hypothesis Hwf : decomposition_wf world glob.
Hypothesis Hord : orders_wf world orders.
Hypothesis Hnn : init_nonneg world.

Local Abbreviation dofs := (dof_of world).
Local Abbreviation maps := (map_of world).
Local Abbreviation inits := (init_of world).

Lemma dof_of_lt (p a : nat) : (a < dofs p)%nat -> (p < length world)%nat.
Proof.
  unfold dof_of. destruct (world !! p) as [[Pp dp]|] eqn:E; [|lia].
  intros _. now apply lookup_lt_Some in E.
Qed.

Lemma message_eq (p i : nat) :
  message world p i = gthr (inits p) (list_for world p i).
Proof.
  unfold message, init_of, list_for, map_of.
  destruct (world !! p) as [[Pp dp]|]; [|reflexivity].
  now destruct (find _ _).
Qed.

(** The receive buffers of the process [i]. *)
Lemma rbuff_of_eq (i : nat) (Pi : Schwarz) (di : list ul_type) :
  world !! i = Some (Pi, di) ->
  rbuff_of world i Pi
  = map (fun nb : nat * list nat => gthr (inits nb.1) (list_for world nb.1 i)) (maps i).
Proof.
  intros E. unfold rbuff_of, map_of. rewrite E.
  apply map_ext. intros nb. apply message_eq.
Qed.

Lemma rbuff_nonneg (i : nat) :
  Forall (Forall (fun r => 0 <= r))
    (map (fun nb : nat * list nat => gthr (inits nb.1) (list_for world nb.1 i)) (maps i)).
Proof.
  apply Forall_forall. intros v Hv.
  apply list_elem_of_In, in_map_iff in Hv. destruct Hv as (nb & <- & _).
  apply Forall_forall. intros r Hr.
  apply list_elem_of_In, in_map_iff in Hr. destruct Hr as (k & <- & _).
  apply rd_nonneg, Hnn.
Qed.

Lemma locals_In (p g b : nat) :
  In b (locals world glob p g) <-> (b < dofs p)%nat /\ glob p b = g.
Proof.
  unfold locals. rewrite filter_In, in_seq, Nat.eqb_eq. intuition lia.
Qed.

Lemma locals_single (p g b : nat) :
  (b < dofs p)%nat -> glob p b = g -> locals world glob p g = [b].
Proof.
  intros Hb Hg. unfold locals. apply filter_seq_single.
  - exact Hb.
  - now apply Nat.eqb_eq.
  - intros b' Hb' E. apply Nat.eqb_eq in E.
    apply (wf_inj world glob Hwf p); congruence.
Qed.

Lemma share_of_single (vals : nat -> list ul_type) (p g b : nat) :
  (b < dofs p)%nat -> glob p b = g ->
  share_of world glob vals g p == rd (vals p) b.
Proof.
  intros Hb Hg. unfold share_of. rewrite (locals_single p g b Hb Hg).
  unfold Qsum. cbn [map foldr]. ring.
Qed.

Lemma share_of_none (vals : nat -> list ul_type) (p g : nat) :
  locals world glob p g = [] -> share_of world glob vals g p = 0.
Proof. intros E. unfold share_of. now rewrite E. Qed.

(** What is received over all the neighbours, entry by entry of the map. *)
Lemma received_entries (i a : nat) :
  received (maps i)
    (map (fun nb : nat * list nat => gthr (inits nb.1) (list_for world nb.1 i)) (maps i))
    (seq 0 (length (maps i))) a
  = flat_map (received_entry world i a) (maps i).
Proof.
  unfold received.
  rewrite <- (flat_map_nth_seq (received_entry world i a) (maps i) (0%nat, [])).
  apply flat_map_ext_in. intros k Hk. apply in_seq in Hk.
  unfold received_from, received_entry, shared_with.
  apply flat_map_ext_in. intros j _.
  now rewrite (nth_map_in _ (maps i) k (0%nat, [])) by lia.
Qed.

Lemma lists_index_In (a : nat) (nb : nat * list nat) :
  lists_index a nb = true <-> In a nb.2.
Proof.
  unfold lists_index. rewrite existsb_exists. split.
  - intros (x & Hx & E). apply Nat.eqb_eq in E. now subst.
  - intros H. exists a. split; [exact H | apply Nat.eqb_refl].
Qed.

(** An entry that lists the index passes on the share of its neighbour. *)
Lemma received_entry_sum (i a : nat) (nb : nat * list nat) :
  In nb (maps i) ->
  Qsum (received_entry world i a nb)
  == if lists_index a nb then share_of world glob inits (glob i a) nb.1 else 0.
Proof.
  intros Hnb. destruct nb as [p idxs]. cbn [fst snd].
  destruct (wf_pair world glob Hwf i p idxs Hnb) as (Hpi & Hlen & Hpos).
  pose proof (wf_lists world glob Hwf i) as Hnd.
  unfold map_wf in Hnd. rewrite Forall_forall in Hnd.
  apply list_elem_of_In, Hnd, NoDup_ListNoDup in Hnb. cbn [snd] in Hnb.
  unfold received_entry. cbn [fst snd].
  destruct (lists_index a (p, idxs)) eqn:El.
  - apply lists_index_In in El. cbn [snd] in El.
    apply (In_nth _ _ 0%nat) in El. destruct El as (j & Hj & Ej).
    rewrite (flat_map_seq_single _ j (length idxs) Hj).
    + unfold rdn at 1. rewrite Ej, Nat.eqb_refl.
      rewrite rd_gthr by lia.
      destruct (Hpos j Hj) as (_ & Hb & Hg).
      rewrite (share_of_single inits p (glob i a) (rdn (list_for world p i) j)).
      * unfold Qsum. cbn [foldr]. ring.
      * exact Hb.
      * rewrite Hg. unfold rdn. now rewrite Ej.
    + intros j' Hj' Hne. unfold rdn.
      destruct (Nat.eqb_spec (nth j' idxs 0%nat) a) as [E|E]; [|reflexivity].
      exfalso. apply Hne.
      apply (proj1 (NoDup_nth idxs 0%nat) Hnb); [exact Hj' | exact Hj | congruence].
  - rewrite flat_map_nil; [reflexivity|].
    intros j Hj. apply in_seq in Hj.
    destruct (Nat.eqb_spec (rdn idxs j) a) as [E|E]; [|reflexivity].
    exfalso. apply not_true_iff_false in El. apply El.
    apply lists_index_In. cbn [snd]. rewrite <- E. apply nth_In. lia.
Qed.

Lemma Qsum_flat_map_plain {X : Type} (G : X -> list Q) (l : list X) :
  Qsum (flat_map G l) == Qsum (map (fun x => Qsum (G x)) l).
Proof.
  induction l as [|x l IH]; cbn [flat_map map]; [reflexivity|].
  rewrite Qsum_app, IH. unfold Qsum at 4. cbn [foldr]. reflexivity.
Qed.

Lemma owners_In (g p b : nat) :
  In (p, b) (owners world glob g)
  <-> (p < length world)%nat /\ (b < dofs p)%nat /\ glob p b = g.
Proof.
  unfold owners. rewrite in_flat_map. split.
  - intros (q & Hq & Hin). apply in_seq in Hq.
    apply in_map_iff in Hin. destruct Hin as (b' & E & Hb').
    injection E as <- <-. apply locals_In in Hb'. intuition lia.
  - intros (Hp & Hb & Hg). exists p. split; [apply in_seq; lia|].
    apply in_map_iff. exists b. split; [reflexivity|]. now apply locals_In.
Qed.

Lemma sum_over_shares (vals : nat -> list ul_type) (g : nat) :
  sum_over world glob vals g
  == Qsum (map (share_of world glob vals g) (seq 0 (length world))).
Proof.
  unfold sum_over, owners. rewrite Qsum_flat_map.
  apply Qsum_map_ext. intros q _. unfold share_of.
  rewrite map_map. reflexivity.
Qed.

(** The neighbours that list the index [a] of the process [i] are the
    other owners of its global unknown. *)
Lemma sharers_owners (i a : nat) :
  (a < dofs i)%nat ->
  Permutation (map fst (List.filter (lists_index a) (maps i)))
              (List.filter (other_owner world glob i (glob i a)) (seq 0 (length world))).
Proof.
  intros Ha. apply Permutation.NoDup_Permutation.
  - apply NoDup_map_filter, (wf_ranks world glob Hwf).
  - apply List.NoDup_filter, seq_NoDup.
  - intros q. rewrite in_map_iff, filter_In, in_seq. unfold other_owner. split.
    + intros ([q' idxs] & E & Hin). cbn [fst] in E. subst q'.
      apply filter_In in Hin. destruct Hin as (Hin & Hl).
      apply lists_index_In in Hl. cbn [snd] in Hl.
      destruct (wf_pair world glob Hwf i q idxs Hin) as (Hqi & _ & Hpos).
      apply (In_nth _ _ 0%nat) in Hl. destruct Hl as (j & Hj & Ej).
      destruct (Hpos j Hj) as (_ & Hb & Hg).
      assert (Hloc : In (rdn (list_for world q i) j) (locals world glob q (glob i a))).
      { apply locals_In. split; [exact Hb|]. rewrite Hg. unfold rdn. now rewrite Ej. }
      split; [pose proof (dof_of_lt q _ Hb); lia|].
      apply andb_true_iff. split; [apply negb_true_iff, Nat.eqb_neq, Hqi|].
      destruct (locals world glob q (glob i a)); [contradiction | reflexivity].
    + intros (Hq & Hc). apply andb_true_iff in Hc. destruct Hc as (Hqi & Hne).
      apply negb_true_iff, Nat.eqb_neq in Hqi.
      destruct (locals world glob q (glob i a)) as [|b l] eqn:El; [discriminate|].
      assert (Hb : In b (locals world glob q (glob i a))) by (rewrite El; now left).
      apply locals_In in Hb. destruct Hb as (Hb & Hg).
      destruct (wf_complete world glob Hwf i q a b) as (idxs & Hin & Ha');
        [congruence | exact Ha | exact Hb | congruence |].
      exists (q, idxs). split; [reflexivity|].
      apply filter_In. split; [exact Hin|]. now apply lists_index_In.
Qed.

(** What the process [i] receives for its index [a], with its own value,
    is the sum of the values of all the owners. *)
Lemma received_total (i a : nat) :
  (a < dofs i)%nat ->
  Qsum (received (maps i)
          (map (fun nb : nat * list nat => gthr (inits nb.1) (list_for world nb.1 i))
             (maps i))
          (orders i) a)
    + rd (inits i) a
  == sum_over world glob inits (glob i a).
Proof.
  intros Ha. pose proof (dof_of_lt i a Ha) as Hi.
  set (g := glob i a). set (share := share_of world glob inits g).
  rewrite (Qsum_Permutation _
             (received (maps i)
                (map (fun nb : nat * list nat =>
                        gthr (inits nb.1) (list_for world nb.1 i)) (maps i))
                (seq 0 (length (maps i))) a))
    by (unfold received; apply Permutation_flat_map, Hord).
  rewrite received_entries, Qsum_flat_map_plain.
  rewrite (Qsum_map_ext _ (fun nb => if lists_index a nb then share nb.1 else 0))
    by (intros nb Hnb; now apply received_entry_sum).
  rewrite <- (Qsum_map_filter (fun nb : nat * list nat => share nb.1)).
  rewrite <- (map_map fst share).
  rewrite (Qsum_Permutation _ _ (Permutation_map share (sharers_owners i a Ha))).
  rewrite Qsum_map_filter. fold g.
  rewrite sum_over_shares. fold share.
  rewrite (Qsum_map_ext share
             (fun q => (if (q =? i)%nat then share q else 0)
                       + (if other_owner world glob i g q then share q else 0))).
  - rewrite Qsum_map_plus, (Qsum_seq_single share i _ Hi).
    assert (Hsi : share i == rd (inits i) a)
      by now apply share_of_single.
    rewrite Hsi. ring.
  - intros q _. unfold other_owner.
    destruct (Nat.eqb_spec q i) as [E|E]; cbn [negb andb]; [ring|].
    destruct (locals world glob q g) eqn:El; [|ring].
    unfold share. rewrite (share_of_none inits q g El). ring.
Qed.

Local Abbreviation rbuffs i :=
  (map (fun nb : nat * list nat => gthr (inits nb.1) (list_for world nb.1 i)) (maps i)).

(** The weight of the index [a] of the process [i]. *)
Lemma weight_of (i a : nat) :
  (a < dofs i)%nat ->
  let w := rd (scaled HPDDM_EPS fl world orders i) a in
  let rs := received (maps i) (rbuffs i) (orders i) a in
  let k := Z.of_nat (length rs) in
  (rs = [] -> w = 1)
  /\ (rs <> [] -> rd (inits i) a < HPDDM_EPS -> w = 0)
  /\ (HPDDM_EPS <= rd (inits i) a ->
      0 < w /\ w <= 1
      /\ update_lo u ^ k * (w * (rd (inits i) a + Qsum rs)) <= rd (inits i) a
      /\ rd (inits i) a <= update_hi u ^ k * (w * (rd (inits i) a + Qsum rs))).
Proof.
  intros Ha. pose proof (wf_length world glob Hwf i) as Hlen.
  pose proof (Hnn i) as Hd. pose proof (rbuff_nonneg i) as Hr.
  unfold scaled. pose proof (rbuff_of_eq i) as Hrb.
  unfold dof_of, map_of, init_of in *.
  destruct (world !! i) as [[Pi di]|] eqn:E; [|lia].
  rewrite (Hrb Pi di eq_refl).
  apply (scaling_weight HPDDM_EPS u); (assumption || lia).
Qed.

(** The weights lie between 0 and 1, and 0 is the weight of the shared
    indices whose value was below the threshold. *)
Lemma partition_range (i a : nat) :
  (a < dofs i)%nat ->
  let w := rd (scaled HPDDM_EPS fl world orders i) a in
  0 <= w /\ w <= 1
  /\ (w == 0 <-> sharing (maps i) (orders i) a <> [] /\ rd (inits i) a < HPDDM_EPS).
Proof.
  intros Ha w.
  destruct (weight_of i a Ha) as (Hnil & Hsmall & Hbig). fold w in Hnil, Hsmall, Hbig.
  pose proof (length_received (maps i) (rbuffs i) (orders i) a
                (wf_lists world glob Hwf i)) as Hlr.
  destruct (Qlt_le_dec (rd (inits i) a) HPDDM_EPS) as [Hs|Hs].
  - destruct (received (maps i) (rbuffs i) (orders i) a) as [|r rs] eqn:Ers.
    + rewrite (Hnil eq_refl). split; [lra|]. split; [lra|]. split.
      * intros H. exfalso. revert H. unfold Qeq. cbn. lia.
      * intros (Hne & _). destruct (sharing (maps i) (orders i) a);
          [contradiction | discriminate].
    + rewrite (Hsmall ltac:(discriminate) Hs). split; [lra|]. split; [lra|]. split.
      * intros _. split; [|exact Hs].
        destruct (sharing (maps i) (orders i) a); [discriminate | discriminate].
      * reflexivity.
  - destruct (Hbig Hs) as (Hpos & Hle1 & _). split; [lra|]. split; [lra|]. split.
    + intros H. lra.
    + intros (_ & Hlt). lra.
Qed.

(** Where the value of each owner is 0 or at least the threshold, and that
    of one owner is at least the threshold, the weights sum to 1 up to the
    roundings of as many updates as an owner has sharing neighbours. *)
Lemma partition_sum (g n : nat) :
  (forall p b, In (p, b) (owners world glob g) ->
     (rd (inits p) b == 0 \/ HPDDM_EPS <= rd (inits p) b)
     /\ (length (sharing (maps p) (orders p) b) <= n)%nat) ->
  (exists p b, In (p, b) (owners world glob g) /\ HPDDM_EPS <= rd (inits p) b) ->
  update_lo u ^ Z.of_nat n * sum_over world glob (scaled HPDDM_EPS fl world orders) g <= 1
  /\ 1 <= update_hi u ^ Z.of_nat n
          * sum_over world glob (scaled HPDDM_EPS fl world orders) g.
Proof.
  intros Hall (p0 & b0 & Hown0 & Hbig0).
  set (weights := scaled HPDDM_EPS fl world orders).
  set (T := sum_over world glob inits g).
  assert (HT : 0 < T).
  { apply owners_In in Hown0. destruct Hown0 as (_ & Hb0 & Hg0).
    pose proof (received_total p0 b0 Hb0) as HK. rewrite Hg0 in HK. fold T in HK.
    pose proof (Qsum_nonneg _ (received_nonneg (maps p0) (rbuffs p0) (orders p0) b0
                                 (rbuff_nonneg p0))) as Hnn0.
    lra. }
  destruct (update_factors fl u Hfl) as (F0 & F1 & F2).
  set (lo := update_lo u ^ Z.of_nat n). set (hi := update_hi u ^ Z.of_nat n).
  assert (Hterm : forall q, In q (seq 0 (length world)) ->
            lo * (share_of world glob weights g q * T) <= share_of world glob inits g q
            /\ share_of world glob inits g q
               <= hi * (share_of world glob weights g q * T)).
  { intros q Hq. apply in_seq in Hq.
    destruct (locals world glob q g) as [|b l] eqn:El.
    - rewrite !share_of_none by exact El. split; lra.
    - assert (Hb : In b (locals world glob q g)) by (rewrite El; now left).
      apply locals_In in Hb. destruct Hb as (Hb & Hg).
      rewrite !(share_of_single _ q g b Hb Hg).
      destruct (weight_of q b Hb) as (Hnil & Hsmall & Hbig). fold weights in Hnil, Hsmall, Hbig.
      pose proof (received_total q b Hb) as HK. rewrite Hg in HK. fold T in HK.
      destruct (Hall q b) as (Hval & Hn); [apply owners_In; lia|].
      rewrite <- (length_received (maps q) (rbuffs q) (orders q) b
                    (wf_lists world glob Hwf q)) in Hn.
      destruct Hval as [Hz|Hge].
      + assert (Hne : received (maps q) (rbuffs q) (orders q) b <> []).
        { intros E. rewrite E in HK. unfold Qsum in HK. cbn [foldr] in HK. lra. }
        rewrite (Hsmall Hne ltac:(lra)). rewrite Hz. split; lra.
      + destruct (Hbig Hge) as (W0 & W1 & L & H).
        set (rs := received (maps q) (rbuffs q) (orders q) b) in *.
        set (w := rd (weights q) b) in *.
        assert (Hden : rd (inits q) b + Qsum rs == T) by lra.
        rewrite Hden in L, H.
        pose proof (pow_le_1 (update_lo u) (length rs) n F0 F1 Hn) as Plo.
        pose proof (pow_ge_1 (update_hi u) (length rs) n F2 Hn) as Phi.
        fold lo in Plo. fold hi in Phi.
        pose proof (pow_pos (update_lo u) (length rs) F0) as Plo0.
        assert (HwT : 0 < w * T) by nra.
        split; nra. }
  assert (HS : sum_over world glob weights g * T
               == Qsum (map (fun q => share_of world glob weights g q * T)
                          (seq 0 (length world)))).
  { rewrite sum_over_shares.
    rewrite (Qsum_map_ext (fun q => share_of world glob weights g q * T)
               (fun q => T * share_of world glob weights g q))
      by (intros q _; ring).
    rewrite Qsum_map_scale. ring. }
  assert (HTs : T == Qsum (map (share_of world glob inits g) (seq 0 (length world))))
    by apply sum_over_shares.
  assert (Hlo : lo * (sum_over world glob weights g * T) <= T).
  { apply Qle_trans
      with (Qsum (map (share_of world glob inits g) (seq 0 (length world))));
      [|apply Qle_lteq; right; symmetry; exact HTs].
    rewrite HS, <- Qsum_map_scale.
    apply Qsum_map_le. intros q Hq. apply (Hterm q Hq). }
  assert (Hhi : T <= hi * (sum_over world glob weights g * T)).
  { apply Qle_trans
      with (Qsum (map (share_of world glob inits g) (seq 0 (length world))));
      [apply Qle_lteq; right; exact HTs|].
    rewrite HS, <- Qsum_map_scale.
    apply Qsum_map_le. intros q Hq. apply (Hterm q Hq). }
  set (S := sum_over world glob weights g) in *.
  split.
  - apply Qnot_lt_le. intros Hc. assert (T < lo * S * T) by nra. nra.
  - apply Qnot_lt_le. intros Hc. assert (hi * S * T < T) by nra. nra.
Qed.

End DecompositionFacts.

(** C3, as amended: after [multiplicityScaling] has completed on every
    process of a decomposition, from non-negative values and with a
    rounding of unit roundoff [u], every weight lies in [0, 1]; it is 0
    exactly at the indices that are shared with a neighbour and whose value
    was below [HPDDM_EPS].  For every global unknown at which the value of
    each owner was either 0 or at least [HPDDM_EPS], and that of one owner
    was at least [HPDDM_EPS], the weights of its owners sum to 1 up to the
    roundings: when no owner shares the unknown with more than [n]
    neighbours, the reciprocal of the sum lies between [update_lo u ^ n] and
    [update_hi u ^ n].  Without rounding the sum is 1. *)
Theorem multiplicityScaling_partition_of_unity
    (HPDDM_EPS u : Q) (fl : Q -> Q) (world : list (Schwarz * list ul_type))
    (glob : nat -> nat -> nat) (orders : nat -> list nat) :
  rounding u fl ->
  0 < HPDDM_EPS ->
  decomposition_wf world glob -> orders_wf world orders -> init_nonneg world ->
  let weights := scaled HPDDM_EPS fl world orders in
  (forall i a, (a < dof_of world i)%nat ->
     0 <= rd (weights i) a /\ rd (weights i) a <= 1
     /\ (rd (weights i) a == 0
         <-> sharing (map_of world i) (orders i) a <> []
             /\ rd (init_of world i) a < HPDDM_EPS))
  /\ forall g n,
       (forall p b, In (p, b) (owners world glob g) ->
          (rd (init_of world p) b == 0 \/ HPDDM_EPS <= rd (init_of world p) b)
          /\ (length (sharing (map_of world p) (orders p) b) <= n)%nat) ->
       (exists p b, In (p, b) (owners world glob g)
                    /\ HPDDM_EPS <= rd (init_of world p) b) ->
       update_lo u ^ Z.of_nat n * sum_over world glob weights g <= 1
       /\ 1 <= update_hi u ^ Z.of_nat n * sum_over world glob weights g.
Proof.
  intros Hfl Heps Hwf Hord Hnn weights. split.
  - intros i a Ha. now apply partition_range with (u := u) (glob := glob).
  - intros g n Hall Hbig. now apply partition_sum.
Qed.

(** The two processes of the example form a decomposition, whatever their
    arrays of two entries hold. *)
Lemma example_decomposition_wf (d0 d1 : list ul_type) :
  length d0 = 2%nat -> length d1 = 2%nat ->
  decomposition_wf [(ExampleScaling.P0, d0); (ExampleScaling.P1, d1)] ExampleScaling.glob.
Proof.
  intros H0 H1. split; unfold dof_of, map_of, init_of, list_for.
  - intros [|[|i]]; cbn; auto.
  - intros [|[|i]]; cbn; repeat constructor; apply not_elem_of_nil.
  - intros [|[|i]]; cbn; repeat constructor; cbn; tauto.
  - intros [|[|i]] a b; cbn; intros Ha Hb E; lia.
  - intros [|[|i]] p idxs; cbn; intros Hin; try contradiction.
    + destruct Hin as [E|[]]. injection E as <- <-. cbn.
      split; [lia|]. split; [reflexivity|].
      intros j Hj. assert (j = 0%nat) as -> by lia. cbn. lia.
    + destruct Hin as [E|[]]. injection E as <- <-. cbn.
      split; [lia|]. split; [reflexivity|].
      intros j Hj. assert (j = 0%nat) as -> by lia. cbn. lia.
  - intros i p a b Hne Ha Hb E.
    destruct i as [|[|i]], p as [|[|p]]; simpl in *; try lia.
    + exists [1%nat]. split; [now left|]. left. lia.
    + exists [0%nat]. split; [now left|]. left. lia.
Qed.

Lemma example_orders_wf (d0 d1 : list ul_type) :
  orders_wf [(ExampleScaling.P0, d0); (ExampleScaling.P1, d1)] ExampleScaling.orders.
Proof.
  unfold orders_wf, map_of, ExampleScaling.orders.
  intros [|[|i]]; simpl; reflexivity.
Qed.

(** The two processes of the example with [binary64] as the rounding and
    the values 2 and 49 on the shared unknown: each owner has one sharing
    neighbour, and the reciprocal of the sum of the two weights lies
    between [update_lo u64] and [update_hi u64]. *)
Lemma multiplicityScaling_partition_of_unity_witness :
  let weights := scaled ExampleScaling.EPS binary64 ExampleScaling.world2_49
                   ExampleScaling.orders in
  (forall i a, (a < dof_of ExampleScaling.world2_49 i)%nat ->
     0 <= rd (weights i) a /\ rd (weights i) a <= 1
     /\ (rd (weights i) a == 0
         <-> sharing (map_of ExampleScaling.world2_49 i) (ExampleScaling.orders i) a <> []
             /\ rd (init_of ExampleScaling.world2_49 i) a < ExampleScaling.EPS))
  /\ update_lo u64 ^ 1 * sum_over ExampleScaling.world2_49 ExampleScaling.glob weights 1 <= 1
  /\ 1 <= update_hi u64 ^ 1
          * sum_over ExampleScaling.world2_49 ExampleScaling.glob weights 1.
Proof.
  destruct (multiplicityScaling_partition_of_unity ExampleScaling.EPS u64 binary64
              ExampleScaling.world2_49 ExampleScaling.glob ExampleScaling.orders)
    as (Hrange & Hsum).
  - apply binary64_rounding.
  - reflexivity.
  - now apply example_decomposition_wf.
  - apply example_orders_wf.
  - unfold init_nonneg, init_of. intros [|[|i]]; simpl; repeat constructor; discriminate.
  - split; [exact Hrange|]. apply (Hsum 1%nat 1%nat).
    + intros p b Hin. vm_compute in Hin.
      destruct Hin as [E|[E|[]]]; injection E as <- <-;
        (split; [right; vm_compute; discriminate | vm_compute; lia]).
    + exists 0%nat, 1%nat. split; [vm_compute; tauto | vm_compute; discriminate].
Defined.

(** With the value 0 on both sides of the shared unknown, which the
    decomposition allows, its two weights are 0: they do not lie in (0, 1]
    and they do not sum to 1.  With the values 2 and 49 and [binary64] as
    the rounding the two weights are positive, they are those that the
    floats of the kernel yield, and they sum to [1 - 3 * 2 ^ -55], not to
    1. *)
Lemma multiplicityScaling_partition_of_unity_counterexample :
  let zeros := scaled ExampleScaling.EPS binary64 ExampleScaling.world00
                 ExampleScaling.orders in
  let weights := scaled ExampleScaling.EPS binary64 ExampleScaling.world2_49
                   ExampleScaling.orders in
  (owners ExampleScaling.world00 ExampleScaling.glob 1 = [(0%nat, 1%nat); (1%nat, 0%nat)]
   /\ ~ 0 < rd (zeros 0%nat) 1
   /\ ~ sum_over ExampleScaling.world00 ExampleScaling.glob zeros 1 == 1)
  /\ (owners ExampleScaling.world2_49 ExampleScaling.glob 1
      = [(0%nat, 1%nat); (1%nat, 0%nat)]
      /\ rd (weights 0%nat) 1 == 1412894000743685 # 36028797018963968
      /\ rd (weights 1%nat) 0 == 4326987877277535 # 4503599627370496
      /\ rd (weights 0%nat) 1 == Q_of_float (quotient64 2%float 49%float 1%float)
      /\ rd (weights 1%nat) 0 == Q_of_float (quotient64 49%float 2%float 1%float)
      /\ sum_over ExampleScaling.world2_49 ExampleScaling.glob weights 1
         == 36028797018963965 # 36028797018963968
      /\ ~ sum_over ExampleScaling.world2_49 ExampleScaling.glob weights 1 == 1).
Proof.
  split; [split; [reflexivity|split]
         |split; [reflexivity|split; [|split; [|split; [|split; [|split]]]]]].
  - vm_compute. discriminate.
  - vm_compute. discriminate.
  - vm_compute. reflexivity.
  - vm_compute. reflexivity.
  - vm_compute. reflexivity.
  - vm_compute. reflexivity.
  - vm_compute. reflexivity.
  - vm_compute. discriminate.
Qed.

(** * Further properties *)

(** ** callNumfact *)

Lemma Option_ref_lookup (unset : Q) (o : gmap string Q) (key : string) :
  (Option_ref unset o key).1 !! key = Some (Option_ref unset o key).2
  /\ forall k, k <> key -> (Option_ref unset o key).1 !! k = o !! k.
Proof.
  unfold Option_ref. destruct (o !! key) eqn:E; cbn [fst snd].
  - split; [exact E | reflexivity].
  - split; [apply lookup_insert_eq|]. intros k Hk. now apply lookup_insert_ne.
Qed.

Lemma Option_ref_set (unset : Q) (o : gmap string Q) (key : string) (v : Q) :
  o !! key = Some v -> Option_ref unset o key = (o, v).
Proof. intros E. unfold Option_ref. now rewrite E. Qed.

Lemma Option_ref_twice (unset : Q) (o : gmap string Q) (key : string) :
  Option_ref unset (Option_ref unset o key).1 key = Option_ref unset o key.
Proof.
  destruct (Option_ref_lookup unset o key) as (H & _).
  rewrite (Option_ref_set _ _ _ _ H). now destruct (Option_ref unset o key).
Qed.

Ltac selects_case :=
  repeat match goal with
         | H : is_Some None |- _ => destruct H; discriminate
         | H : _ \/ _ |- _ => destruct H
         end;
  try discriminate; try congruence; eauto.

Lemma callNumfact_type_not_AD (unset : Q) (A : option MatrixCSR)
    (o : gmap string Q) (P : Schwarz) :
  _type (callNumfact unset A o P).1.2 <> AD.
Proof.
  unfold callNumfact.
  destruct A as [a|]; destruct (Option_ref unset o "schwarz_method") as [o1 v].
  - now destruct (Qeq_bool v 1).
  - destruct (Qeq_bool v 3); [discriminate|].
    destruct (Option_ref unset o1 "schwarz_method") as [o2 v'].
    now destruct (Qeq_bool v' 5).
Qed.

(** X1: [callNumfact] never selects the types [AD] and [BA]; it selects
    [OS] or [OG] exactly when a matrix is handed over; the local solver
    factorizes that matrix, and the matrix of the subdomain otherwise, never
    a null pointer; the flag of the factorization is set exactly for the
    type [OS]; and the object changes in its type only. *)
Theorem callNumfact_selects (unset : Q) (A : option MatrixCSR) (o : gmap string Q)
    (P : Schwarz) :
  let r := callNumfact unset A o P in
  let t := _type r.1.2 in
  t <> AD /\ t <> BA
  /\ (is_Some A <-> t = OS \/ t = OG)
  /\ numfact_matrix r.2 = Some (default (Subdomain_a P) A)
  /\ (numfact_detection r.2 = true <-> t = OS)
  /\ r.1.2 = with_type P t.
Proof.
  unfold callNumfact.
  destruct A as [a|]; destruct (Option_ref unset o "schwarz_method") as [o1 v].
  - destruct (Qeq_bool v 1); cbn; repeat split; intros; selects_case.
  - destruct (Qeq_bool v 3);
      [|destruct (Option_ref unset o1 "schwarz_method") as [o2 v'];
        destruct (Qeq_bool v' 5)];
      cbn; repeat split; intros; selects_case.
Qed.

(** X2: without a matrix, [callNumfact] leaves the option [schwarz_method]
    set to a value that names the type it selected: 3 for [SY], 5 for [NO],
    and 0 for [GE], to which every other value is normalised.  A value that
    is set selects [SY] when it is 3, [NO] when it is 5 and [GE] otherwise,
    the table being untouched in the first two cases; no other option is
    changed. *)
Theorem callNumfact_normalises (unset : Q) (o : gmap string Q) (P : Schwarz) :
  let r := callNumfact unset None o P in
  (exists v, r.1.1 !! "schwarz_method" = Some v
             /\ match _type r.1.2 with
                | SY => v == 3
                | NO => v == 5
                | GE => v = 0
                | _ => False
                end)
  /\ (forall v, o !! "schwarz_method" = Some v ->
        _type r.1.2 = (if Qeq_bool v 3 then SY else if Qeq_bool v 5 then NO else GE)
        /\ (_type r.1.2 <> GE -> r.1.1 = o))
  /\ forall k, k <> "schwarz_method" -> r.1.1 !! k = o !! k.
Proof.
  unfold callNumfact.
  pose proof (Option_ref_lookup unset o "schwarz_method") as (H1 & H1').
  pose proof (Option_ref_twice unset o "schwarz_method") as H2.
  assert (Hset : forall v, o !! "schwarz_method" = Some v ->
            Option_ref unset o "schwarz_method" = (o, v))
    by apply Option_ref_set.
  destruct (Option_ref unset o "schwarz_method") as [o1 v1].
  cbn [fst snd] in *.
  destruct (Qeq_bool v1 3) eqn:E3.
  - cbn [fst snd _type with_type]. split; [|split].
    + exists v1. split; [exact H1|]. now apply Qeq_bool_iff.
    + intros v Hv. specialize (Hset v Hv). injection Hset as -> ->.
      rewrite E3. now split.
    + exact H1'.
  - rewrite H2. destruct (Qeq_bool v1 5) eqn:E5.
    + cbn [fst snd _type with_type]. split; [|split].
      * exists v1. split; [exact H1|]. now apply Qeq_bool_iff.
      * intros v Hv. specialize (Hset v Hv). injection Hset as -> ->.
        rewrite E3, E5. now split.
      * exact H1'.
    + rewrite H2. cbn [fst snd _type with_type]. split; [|split].
      * exists 0. split; [apply lookup_insert_eq | reflexivity].
      * intros v Hv. specialize (Hset v Hv). injection Hset as -> ->.
        rewrite E3, E5. split; [reflexivity | congruence].
      * intros k Hk. rewrite lookup_insert_ne by congruence. now apply H1'.
Qed.

(** X3: [callNumfact] is idempotent: a second call with the same argument
    selects the same type, leaves the options as the first call left them
    and hands the same matrix and flag to the local solver. *)
Theorem callNumfact_idempotent (unset : Q) (A : option MatrixCSR)
    (o : gmap string Q) (P : Schwarz) :
  let r := callNumfact unset A o P in
  callNumfact unset A r.1.1 r.1.2 = r.
Proof.
  unfold callNumfact.
  pose proof (Option_ref_lookup unset o "schwarz_method") as (H1 & _).
  pose proof (Option_ref_twice unset o "schwarz_method") as H2.
  destruct (Option_ref unset o "schwarz_method") as [o1 v1].
  cbn [fst snd] in *.
  destruct A as [a|].
  - cbn [fst snd]. rewrite H2. reflexivity.
  - destruct (Qeq_bool v1 3) eqn:E3.
    + cbn [fst snd]. rewrite H2, E3. reflexivity.
    + rewrite H2. destruct (Qeq_bool v1 5) eqn:E5.
      * cbn [fst snd]. rewrite H2, E3, H2, E5. reflexivity.
      * rewrite H2. cbn [fst snd].
        assert (H0 : Option_ref unset (<["schwarz_method" := 0]> o1) "schwarz_method"
                     = (<["schwarz_method" := 0]> o1, 0))
          by apply Option_ref_set, lookup_insert_eq.
        rewrite H0. change (Qeq_bool 0 3) with false. cbn iota.
        rewrite H0. change (Qeq_bool 0 5) with false. cbn iota.
        rewrite H0. cbn [fst snd]. rewrite insert_insert_eq. reflexivity.
Qed.

(** X4: whatever [callNumfact] selected, a later [deflation] on a process
    with a subdomain ends with the scaling of [out] and its halo exchange:
    the type for which [deflation] leaves them out is never selected.  The
    coarse correction then takes two communications. *)
Theorem callNumfact_then_deflation
    (unset : Q) (A : option MatrixCSR) (o : gmap string Q) (P : Schwarz)
    (callSolver exchange : nat -> nat -> list K -> list K)
    (in_ : option buffer) (out : buffer) (fuse : nat) (s : state) :
  let P' := (callNumfact unset A o P).1.2 in
  let s' := deflation callSolver exchange P' false in_ out fuse s in
  trace s' = trace s ++ fuse_in_calls out fuse
               ++ [Ediag in_ out; Egemv true out b_uc; EcallSolver;
                   Egemv false b_uc out; Ediag None out; Eexchange out]
               ++ fuse_out_calls out fuse
  /\ clock s' = (clock s + 2)%nat.
Proof.
  intros P' s'.
  pose proof (callNumfact_type_not_AD unset A o P) as HAD.
  fold P' in HAD.
  split.
  - subst s'. rewrite (deflation_issues callSolver exchange P' false).
    unfold all_deflation_calls, deflation_calls.
    rewrite bool_decide_true by exact HAD.
    rewrite <- !app_assoc. reflexivity.
  - subst s'. unfold deflation. rewrite bool_decide_true by exact HAD.
    unfold_steps. destruct (0 <? fuse)%nat; unfold_steps; lia.
Qed.

(** ** The branches of [apply] *)

Lemma to_int_floor (v : Q) (z : Z) :
  (0 <= z)%Z -> inject_Z z <= v -> v < inject_Z (z + 1) -> to_int v = z.
Proof.
  intros Hz Hl Hu. unfold to_int. destruct v as [n d].
  unfold Qle, Qlt, inject_Z in *. cbn [Qnum Qden] in *.
  rewrite Z.quot_div_nonneg by lia.
  symmetry. apply (Z.div_unique_pos n (Zpos d) z (n - z * Zpos d)); lia.
Qed.

Lemma to_int_small (v : Q) : - (1) < v -> v < 1 -> to_int v = 0%Z.
Proof.
  intros Hl Hu. unfold to_int. destruct v as [n d].
  unfold Qlt in *. cbn [Qnum Qden Qopp] in *.
  destruct (Z.le_gt_cases 0 n) as [Hn|Hn].
  - apply Z.quot_small. lia.
  - rewrite <- (Z.opp_involutive n), Z.quot_opp_l by lia.
    rewrite Z.quot_small by lia. reflexivity.
Qed.

Lemma to_int_large (v : Q) (z : Z) :
  (0 <= z)%Z -> inject_Z z <= v -> (z <= to_int v)%Z.
Proof.
  intros Hz Hl. unfold to_int. destruct v as [n d].
  unfold Qle, inject_Z in *. cbn [Qnum Qden] in *.
  rewrite Z.quot_div_nonneg by lia.
  apply Z.div_le_lower_bound; lia.
Qed.

Lemma correction_of_floor (o : gmap string Q) (v : Q) (z : Z) :
  o !! "schwarz_coarse_correction" = Some v ->
  (0 <= z)%Z -> inject_Z z <= v -> v < inject_Z (z + 1) -> correction_of o = z.
Proof.
  intros Ho Hz Hl Hu. unfold correction_of, Option_val. rewrite Ho.
  unfold Qmax. destruct (Qlt_le_dec v (- (1))) as [H|H].
  - exfalso. assert (0 <= inject_Z z) by (unfold Qle; cbn; lia). lra.
  - now apply to_int_floor.
Qed.

(** X5: the option [schwarz_coarse_correction] selects the branch of
    [apply] by its value cut off at -1 and truncated towards zero.  With a
    coarse operator, an option that is not set or at most -1 selects the
    single-level branch; a value of at least 1 and below 2 the additive
    correction; a value of at least 2 and below 3 the deflated correction
    with the balancing round; every other value, between -1 and 1 or from 3
    on within the range of [int], the deflated correction without that
    round. *)
Theorem apply_correction_ranges
    (solve : nat -> list K -> list K)
    (callSolver exchange : nat -> nat -> list K -> list K) (icollective : bool)
    (P : Schwarz) (excluded : bool) (in_ out : buffer) (mu : nat)
    (work : option buffer) (fuse : nat) (s : state) :
  super_co P = true ->
  let w := default in_ work in
  let copy := match work with
              | None => skip
              | Some w' => do_copy_n in_ 0 (Subdomain_dof P) w' 0
              end in
  let s' := apply solve callSolver exchange icollective P excluded in_ out mu work fuse s in
  (opt s !! "schwarz_coarse_correction" = None ->
   s' = apply_one_level solve exchange P excluded in_ out mu s)
  /\ forall v, opt s !! "schwarz_coarse_correction" = Some v ->
       (v <= - (1) -> s' = apply_one_level solve exchange P excluded in_ out mu s)
       /\ (- (1) < v < 1 \/ 3 <= v < 2147483648 ->
           s' = apply_deflated solve callSolver exchange P excluded 0 in_ out w mu fuse
                  (copy s))
       /\ (1 <= v < 2 ->
           s' = apply_additive solve callSolver exchange icollective P excluded
                  in_ out w fuse (copy s))
       /\ (2 <= v < 3 ->
           s' = apply_deflated solve callSolver exchange P excluded 2 in_ out w mu fuse
                  (copy s)).
Proof.
  intros Hco w copy s'. subst s' w copy. unfold apply. rewrite Hco. cbn [negb orb].
  split.
  - intros Ho. unfold correction_of, Option_val. rewrite Ho. reflexivity.
  - intros v Ho. split; [|split; [|split]].
    + intros Hv.
      assert (Hc : correction_of (opt s) = (-1)%Z).
      { unfold correction_of, Option_val. rewrite Ho. unfold Qmax.
        destruct (Qlt_le_dec v (- (1))) as [H|H]; [reflexivity|].
        unfold to_int. destruct v as [n d]. unfold Qle in *.
        cbn [Qnum Qden Qopp] in *.
        replace n with (- Zpos d)%Z by lia.
        rewrite Z.quot_opp_l, Z.quot_same by lia. reflexivity. }
      rewrite Hc. reflexivity.
    + intros [[Hl Hu]|[Hv _]].
      * assert (Hc : correction_of (opt s) = 0%Z).
        { unfold correction_of, Option_val. rewrite Ho. unfold Qmax.
          destruct (Qlt_le_dec v (- (1))) as [H|H]; [lra|].
          now apply to_int_small. }
        rewrite Hc. reflexivity.
      * assert (Hc : (3 <= correction_of (opt s))%Z).
        { unfold correction_of, Option_val. rewrite Ho. unfold Qmax.
          destruct (Qlt_le_dec v (- (1))) as [H|H]; [lra|].
          now apply to_int_large. }
        destruct (Z.eqb_spec (correction_of (opt s)) (-1)) as [E|_]; [lia|].
        destruct (Z.eqb_spec (correction_of (opt s)) 1) as [E|_]; [lia|].
        unfold seq_step, apply_deflated.
        destruct (Z.eqb_spec (correction_of (opt s)) 2) as [E|_]; [lia|].
        reflexivity.
    + intros [Hl Hu].
      rewrite (correction_of_floor (opt s) v 1 Ho); [reflexivity | lia | exact Hl | exact Hu].
    + intros [Hl Hu].
      rewrite (correction_of_floor (opt s) v 2 Ho); [reflexivity | lia | exact Hl | exact Hu].
Qed.

(** The value 3/2 selects the additive correction. *)
Lemma apply_correction_ranges_witness :
  Example.apply1 GE (3 # 2) (Some b_work)
  = apply_additive Example.solve1 Example.callSolver1 Example.exchange1 false
      (Example.P1 GE) false b_in b_out b_work 0
      (do_copy_n b_in 0 1 b_work 0 (Example.state1 (3 # 2))).
Proof.
  destruct (apply_correction_ranges Example.solve1 Example.callSolver1
              Example.exchange1 false (Example.P1 GE) false b_in b_out 1
              (Some b_work) 0 (Example.state1 (3 # 2)) eq_refl) as (_ & H).
  destruct (H (3 # 2) eq_refl) as (_ & _ & H1 & _).
  apply H1. split; [unfold Qle | unfold Qlt]; cbn; lia.
Defined.

(** X6: on an excluded process [apply] never works on the vectors of a
    subdomain.  In the single-level branch it does nothing at all unless
    the type is [NO]; in the other branches without fused unknowns it
    changes the coarse vector and the work buffer of the caller only; and
    every call that it issues is a copy, a coarse solve or a wait. *)
Theorem apply_excluded
    (solve : nat -> list K -> list K)
    (callSolver exchange : nat -> nat -> list K -> list K) (icollective : bool)
    (P : Schwarz) (in_ out : buffer) (mu : nat)
    (work : option buffer) (fuse : nat) (s : state) :
  let s' := apply solve callSolver exchange icollective P true in_ out mu work fuse s in
  (one_level P s -> _type P <> NO -> s' = s)
  /\ (super_co P = true -> correction_of (opt s) <> (-1)%Z -> fuse = 0%nat ->
      forall b, b <> b_uc -> work <> Some b -> mem s' b = mem s b)
  /\ exists l, trace s' = trace s ++ l /\ Forall (fun e => is_local_call e = false) l.
Proof.
  intros s'. split; [|split].
  - intros Hone Ht. subst s'. unfold apply.
    rewrite (one_level_branch P s Hone). unfold apply_one_level.
    destruct (_type P); try contradiction; try reflexivity.
  - intros Hco Hc -> b Hu Hw. subst s'. unfold apply. rewrite Hco.
    destruct (Z.eqb_spec (correction_of (opt s)) (-1)) as [E|_]; [contradiction|].
    cbn [negb orb].
    clear Hc. generalize (correction_of (opt s)). intros c. revert s.
    match goal with |- forall s, mem (?f s) _ = _ => change (preserves b f) end.
    apply preserves_seq.
    + destruct work as [w|]; [|apply preserves_skip].
      unfold do_copy_n. apply preserves_kernel. congruence.
    + apply preserves_if.
      * unfold apply_additive, Ideflation, deflation, fuse_in, fuse_out.
        cbn [Nat.ltb Nat.leb when negb]. unfold do_callSolver.
        destruct icollective; auto 20 with frame.
      * unfold apply_deflated, deflation, fuse_in, fuse_out.
        cbn [Nat.ltb Nat.leb when negb]. unfold do_callSolver.
        auto 20 with frame.
  - exists (apply_calls P icollective true (correction_of (opt s)) in_ out work fuse).
    split; [apply apply_trace|].
    unfold apply_calls, one_level_all_calls, additive_calls, deflated_calls,
      all_deflation_calls, fuse_in_calls, fuse_out_calls.
    destruct (negb (super_co P) || (correction_of (opt s) =? -1)%Z).
    + destruct (_type P); repeat constructor.
    + destruct work, (correction_of (opt s) =? 1)%Z, icollective, (0 <? fuse)%nat;
        repeat constructor.
Qed.

(** ** What [apply] writes beyond the first vector *)



















(** ** Reading the store, call by call *)

Lemma mem_kernel_eq (e : event) (b : buffer) v (s : state) :
  mem (kernel e b v s) b = v (mem s).
Proof. unfold kernel. cbn [mem]. now mem_simpl. Qed.

Lemma mem_kernel_ne (e : event) (b b' : buffer) v (s : state) :
  b' <> b -> mem (kernel e b v s) b' = mem s b'.
Proof. intros H. unfold kernel. cbn [mem]. now mem_simpl. Qed.

Lemma mem_comm_eq (e : event) (b : buffer) v (s : state) :
  mem (comm e b v s) b = v (clock s) (mem s).
Proof. unfold comm. cbn [mem]. now mem_simpl. Qed.

Lemma mem_comm_ne (e : event) (b b' : buffer) v (s : state) :
  b' <> b -> mem (comm e b v s) b' = mem s b'.
Proof. intros H. unfold comm. cbn [mem]. now mem_simpl. Qed.

Lemma clock_kernel (e : event) (b : buffer) v (s : state) :
  clock (kernel e b v s) = clock s.
Proof. reflexivity. Qed.

Lemma clock_comm (e : event) (b : buffer) v (s : state) :
  clock (comm e b v s) = S (clock s).
Proof. reflexivity. Qed.

Lemma mem_IcallSolver callSolver (fuse : nat) (s : state) :
  mem (do_IcallSolver callSolver fuse s) = mem s.
Proof. reflexivity. Qed.

Lemma clock_IcallSolver callSolver (fuse : nat) (s : state) :
  clock (do_IcallSolver callSolver fuse s) = S (clock s).
Proof. reflexivity. Qed.

Lemma pending_IcallSolver callSolver (fuse : nat) (s : state) :
  pending (do_IcallSolver callSolver fuse s)
  = Some (callSolver (clock s) fuse (mem s b_uc)).
Proof. reflexivity. Qed.

Lemma pending_kernel (e : event) (b : buffer) v (s : state) :
  pending (kernel e b v s) = pending s.
Proof. reflexivity. Qed.

Lemma mem_Wait_uc (s : state) (u : list K) :
  pending s = Some u -> mem (do_Wait s) b_uc = u.
Proof. intros H. unfold do_Wait. cbn [mem]. rewrite H. now mem_simpl. Qed.

Lemma mem_Wait_ne (s : state) (b : buffer) :
  b <> b_uc -> mem (do_Wait s) b = mem s b.
Proof. intros H. now apply (preserves_Wait b H s). Qed.

Lemma clock_Wait (s : state) : clock (do_Wait s) = clock s.
Proof. reflexivity. Qed.

Ltac mem_step :=
  match goal with
  | |- context [default ?x (@None ?T)] => change (default x (@None T)) with x
  | |- context [default ?x (Some ?y)] => change (default x (Some y)) with y
  | |- context [@id buffer ?x] => change (@id buffer x) with x
  | |- context [mem (kernel ?e ?b ?v ?s) ?b'] =>
      first [ constr_eq b b'; rewrite (mem_kernel_eq e b v s)
            | rewrite (mem_kernel_ne e b b' v s) by congruence ]
  | |- context [mem (comm ?e ?b ?v ?s) ?b'] =>
      first [ constr_eq b b'; rewrite (mem_comm_eq e b v s)
            | rewrite (mem_comm_ne e b b' v s) by congruence ]
  | |- context [mem (do_IcallSolver ?c ?f ?s)] => rewrite (mem_IcallSolver c f s)
  | |- context [mem (do_Wait ?s) ?b] =>
      first [ constr_eq b b_uc;
              rewrite (mem_Wait_uc s _ ltac:(rewrite ?pending_kernel;
                                              apply pending_IcallSolver))
            | rewrite (mem_Wait_ne s b) by congruence ]
  | |- context [clock (kernel ?e ?b ?v ?s)] => rewrite (clock_kernel e b v s)
  | |- context [clock (comm ?e ?b ?v ?s)] => rewrite (clock_comm e b v s)
  | |- context [clock (do_IcallSolver ?c ?f ?s)] => rewrite (clock_IcallSolver c f s)
  | |- context [clock (do_Wait ?s)] => rewrite (clock_Wait s)
  end; cbv beta.

Ltac mem_run :=
  unfold do_copy_n, do_diag, do_gemv_T, do_gemv_N, do_axpy, do_csrmv, do_csrmm,
    do_solve, do_exchange, do_callSolver, seq_step, skip;
  repeat mem_step.

(** ** The additive and the deflated correction *)

(** X8: for the correction 1 without fused unknowns, the variant of
    [apply] that is compiled with [HPDDM_ICOLLECTIVE], which starts the
    coarse solve with [Ideflation], solves locally and then waits and
    projects, leaves every vector and the communication time as the variant
    with [deflation] does, on an excluded process and, on a process with a
    subdomain, for the type [AD]. *)
Theorem apply_additive_variants
    (solve : nat -> list K -> list K)
    (callSolver exchange : nat -> nat -> list K -> list K)
    (P : Schwarz) (excluded : bool) (in_ out : buffer) (mu : nat)
    (work : option buffer) (s : state) :
  super_co P = true -> correction_of (opt s) = 1%Z ->
  excluded = true \/ _type P = AD ->
  out <> b_uc -> default in_ work <> b_uc -> default in_ work <> out ->
  let s1 := apply solve callSolver exchange true P excluded in_ out mu work 0 s in
  let s2 := apply solve callSolver exchange false P excluded in_ out mu work 0 s in
  (forall b, mem s1 b = mem s2 b) /\ clock s1 = clock s2.
Proof.
  intros Hco Hc Hcase Hu Hwu Hwo s1 s2. subst s1 s2.
  unfold apply. rewrite Hco, Hc. cbn [negb orb Z.eqb Pos.eqb].
  unfold seq_step at 1 2 3 4.
  generalize dependent (default in_ work). intros w Hwu Hwo.
  set (s0 := match work with
             | None => skip
             | Some w' => do_copy_n in_ 0 (Subdomain_dof P) w' 0
             end s).
  clearbody s0. clear s Hc.
  unfold apply_additive, deflation, Ideflation, fuse_in, fuse_out.
  assert (Hcase' : excluded = true \/ excluded = false /\ _type P = AD)
    by (destruct excluded; tauto).
  clear Hcase. destruct Hcase' as [-> | [-> Ht]]; cbn [Nat.ltb Nat.leb negb when].
  - split; [|mem_run; reflexivity]. intros b.
    destruct (decide (b = b_uc)) as [->|Hb]; mem_run; reflexivity.
  - rewrite Ht, bool_decide_false by (intros H; now apply H). cbn [when].
    split; [|mem_run; reflexivity]. intros b.
    destruct (decide (b = out)) as [->|Hbo];
      [|destruct (decide (b = b_uc)) as [->|Hbu];
        [|destruct (decide (b = w)) as [->|Hbw]]];
      mem_run; reflexivity.
Qed.

(** With the type [AD] both variants leave the same output. *)
Lemma apply_additive_variants_witness :
  let s1 := apply Example.solve1 Example.callSolver1 Example.exchange1 true
              (Example.P1 AD) false b_in b_out 1 (Some b_work) 0 (Example.state1 1) in
  let s2 := apply Example.solve1 Example.callSolver1 Example.exchange1 false
              (Example.P1 AD) false b_in b_out 1 (Some b_work) 0 (Example.state1 1) in
  (forall b, mem s1 b = mem s2 b) /\ clock s1 = clock s2.
Proof.
  apply (apply_additive_variants Example.solve1 Example.callSolver1 Example.exchange1
           (Example.P1 AD) false b_in b_out 1 (Some b_work) (Example.state1 1));
    try reflexivity; try discriminate.
  right. reflexivity.
Defined.

Lemma deflation_clock callSolver exchange (P : Schwarz) (in_ : option buffer)
    (out : buffer) (fuse : nat) (s : state) :
  clock (deflation callSolver exchange P false in_ out fuse s)
  = after_deflation P (clock s).
Proof.
  unfold after_deflation, deflation, fuse_in, fuse_out.
  destruct (0 <? fuse)%nat, (bool_decide (_type P <> AD)); cbn [when];
    mem_run; lia.
Qed.

Lemma mem_copy_work (P : Schwarz) (in_ : buffer) (work : option buffer) (s : state) :
  work <> Some in_ ->
  let s0 := match work with
            | None => skip
            | Some w' => do_copy_n in_ 0 (Subdomain_dof P) w' 0
            end s in
  mem s0 (default in_ work) = work_of P (mem s <$> work) (mem s in_)
  /\ clock s0 = clock s
  /\ forall b, b <> default in_ work -> mem s0 b = mem s b.
Proof.
  intros Hw s0. subst s0.
  destruct work as [w|]; cbn [default fmap option_fmap option_map work_of].
  - split; [mem_run; reflexivity|]. split; [reflexivity|].
    intros b Hb. change (id w) with w in Hb. mem_run. reflexivity.
  - unfold skip. auto.
Qed.

Lemma deflation_of_input callSolver exchange (P : Schwarz) (in_ out : buffer)
    (work : option buffer) (fuse : nat) (s : state) :
  ev_wf P ->
  let w := default in_ work in
  work <> Some in_ -> w <> out -> w <> b_uc -> out <> b_uc -> in_ <> b_uc ->
  let s0 := match work with
            | None => skip
            | Some w' => do_copy_n in_ 0 (Subdomain_dof P) w' 0
            end s in
  let s1 := deflation callSolver exchange P false (Some in_) out fuse s0 in
  mem s1 out = coarse_correction callSolver exchange P (clock s) fuse
                 (mem s in_) (mem s out) (mem s b_uc)
  /\ mem s1 w = work_of P (mem s <$> work) (mem s in_)
  /\ clock s1 = after_deflation P (clock s).
Proof.
  intros Hwf w Hwi Hwo Hwu Hou Hiu s0 s1.
  destruct (mem_copy_work P in_ work s Hwi) as (Hw0 & Ht0 & Hf0).
  fold w s0 in Hw0, Hf0, Ht0.
  assert (Ho : mem s0 out = mem s out) by (apply Hf0; intros E; now apply Hwo).
  assert (Hu : mem s0 b_uc = mem s b_uc) by (apply Hf0; intros E; now apply Hwu).
  assert (Hi : mem s0 in_ = mem s in_).
  { destruct work as [w'|]; [|reflexivity].
    apply Hf0. intros E. apply Hwi. f_equal. symmetry. exact E. }
  split; [|split].
  - subst s1. rewrite deflation_value by (assumption || congruence).
    change (default out (Some in_)) with in_. now rewrite Ht0, Ho, Hu, Hi.
  - subst s1. rewrite preserves_deflation by assumption. exact Hw0.
  - subst s1. rewrite deflation_clock. now rewrite Ht0.
Qed.

(** X9: with the correction 1 and without [HPDDM_ICOLLECTIVE], on a process
    with a subdomain, [apply] leaves in [work] the local solution of the
    input and in [out] the sum of the coarse correction of the input and of
    that local solution, scaled by [D] and exchanged; the halo exchange is
    the communication that follows those of the coarse correction. *)
Theorem apply_additive_value
    (solve : nat -> list K -> list K)
    (callSolver exchange : nat -> nat -> list K -> list K)
    (P : Schwarz) (in_ out : buffer) (mu : nat)
    (work : option buffer) (fuse : nat) (s : state) :
  super_co P = true -> correction_of (opt s) = 1%Z -> ev_wf P ->
  let w := default in_ work in
  work <> Some in_ -> w <> out -> w <> b_uc -> out <> b_uc -> in_ <> b_uc ->
  let s' := apply solve callSolver exchange false P false in_ out mu work fuse s in
  let w0 := work_of P (mem s <$> work) (mem s in_) in
  let q := coarse_correction callSolver exchange P (clock s) fuse
             (mem s in_) (mem s out) (mem s b_uc) in
  mem s' w = solved solve P 1 w0 w0
  /\ mem s' out = additive_result solve exchange P (after_deflation P (clock s)) w0 q
  /\ clock s' = S (after_deflation P (clock s)).
Proof.
  intros Hco Hc Hwf w Hwi Hwo Hwu Hou Hiu s' w0 q. subst s'.
  unfold apply. rewrite Hco, Hc. cbn [negb orb Z.eqb Pos.eqb].
  unfold apply_additive. cbn [negb when]. unfold seq_step. fold w.
  pose proof (deflation_of_input callSolver exchange P in_ out work fuse s
                Hwf Hwi Hwo Hwu Hou Hiu) as H.
  cbv zeta in H. fold w w0 q in H. destruct H as (Hq & Hw1 & Ht1).
  set (s1 := deflation _ _ _ _ _ _ _ _) in *. clearbody s1.
  unfold additive_result, exchanged, rescaled, solved.
  split; [|split]; mem_run; rewrite ?Hq, ?Hw1, ?Ht1; reflexivity.
Qed.

Lemma apply_additive_value_witness :
  let s := Example.state1 1 in
  let P := Example.P1 GE in
  let s' := apply Example.solve1 Example.callSolver1 Example.exchange1 false P false
              b_in b_out 1 (Some b_work) 0 s in
  let w0 := work_of P (mem s <$> Some b_work) (mem s b_in) in
  let q := coarse_correction Example.callSolver1 Example.exchange1 P (clock s) 0
             (mem s b_in) (mem s b_out) (mem s b_uc) in
  mem s' b_work = solved Example.solve1 P 1 w0 w0
  /\ mem s' b_out = additive_result Example.solve1 Example.exchange1 P
                      (after_deflation P (clock s)) w0 q
  /\ clock s' = S (after_deflation P (clock s)).
Proof.
  apply (apply_additive_value Example.solve1 Example.callSolver1 Example.exchange1
           (Example.P1 GE) b_in b_out 1 (Some b_work) 0 (Example.state1 1));
    try reflexivity; try discriminate.
  repeat constructor.
Defined.

Lemma local_correction_value solve exchange (P : Schwarz) (out work : buffer) (s : state) :
  work <> out ->
  let s' := local_correction solve exchange P out work s in
  mem s' work = local_correction_result solve exchange P (clock s) (mem s work) (mem s out)
  /\ mem s' out = mem s out
  /\ clock s' = S (S (clock s)).
Proof.
  intros Hwo s'. subst s'.
  unfold local_correction, local_correction_result, exchanged, rescaled, solved.
  destruct (bool_decide (_type P = OS)); cbn [when];
    (split; [|split]); mem_run; reflexivity.
Qed.

(** X10: with a coarse operator and a correction other than -1, 1 and 2, on
    a process with a subdomain, [apply] forms the residual of the coarse
    correction [q] of the input with the matrix of the subdomain, scales and
    exchanges it, solves locally, scales and exchanges again, and leaves in
    [out] the sum of [q] and of this local correction, which is left in
    [work]; the type [OS] scales once more before the local solve.  Four
    communications are issued, three for the type [AD]. *)
Theorem apply_deflated_value
    (solve : nat -> list K -> list K)
    (callSolver exchange : nat -> nat -> list K -> list K) (icollective : bool)
    (P : Schwarz) (in_ out : buffer) (mu : nat)
    (work : option buffer) (fuse : nat) (s : state) :
  super_co P = true ->
  correction_of (opt s) <> (-1)%Z -> correction_of (opt s) <> 1%Z ->
  correction_of (opt s) <> 2%Z -> ev_wf P ->
  let w := default in_ work in
  work <> Some in_ -> w <> out -> w <> b_uc -> out <> b_uc -> in_ <> b_uc ->
  let s' := apply solve callSolver exchange icollective P false in_ out mu work fuse s in
  let w0 := work_of P (mem s <$> work) (mem s in_) in
  let q := coarse_correction callSolver exchange P (clock s) fuse
             (mem s in_) (mem s out) (mem s b_uc) in
  let z := local_correction_result solve exchange P (after_deflation P (clock s)) w0 q in
  mem s' w = z
  /\ mem s' out = Wrapper.axpy (Subdomain_dof P) 1 z q
  /\ clock s' = (after_deflation P (clock s) + 2)%nat.
Proof.
  intros Hco Hc Hc1 Hc2 Hwf w Hwi Hwo Hwu Hou Hiu s' w0 q z. subst s'.
  unfold apply. rewrite Hco.
  destruct (Z.eqb_spec (correction_of (opt s)) (-1)) as [E|_]; [contradiction|].
  destruct (Z.eqb_spec (correction_of (opt s)) 1) as [E|_]; [contradiction|].
  cbn [negb orb]. unfold apply_deflated. cbn [negb when].
  destruct (Z.eqb_spec (correction_of (opt s)) 2) as [E|_]; [contradiction|].
  cbn [when]. unfold seq_step, skip. fold w.
  pose proof (deflation_of_input callSolver exchange P in_ out work fuse s
                Hwf Hwi Hwo Hwu Hou Hiu) as H.
  cbv zeta in H. fold w w0 q in H. destruct H as (Hq & Hw1 & Ht1).
  set (s1 := deflation _ _ _ _ _ _ _ _) in *. clearbody s1.
  destruct (local_correction_value solve exchange P out w s1 Hwo) as (Lw & Lo & Lt).
  rewrite Hq, Hw1, Ht1 in *. fold z in Lw.
  set (s2 := local_correction solve exchange P out w s1) in *. clearbody s2.
  split; [|split]; mem_run; rewrite ?Lw, ?Lo, ?Lt; (reflexivity || lia).
Qed.

Lemma apply_deflated_value_witness :
  let s := Example.state1 0 in
  let P := Example.P1 GE in
  let s' := apply Example.solve1 Example.callSolver1 Example.exchange1 false P false
              b_in b_out 1 (Some b_work) 0 s in
  let w0 := work_of P (mem s <$> Some b_work) (mem s b_in) in
  let q := coarse_correction Example.callSolver1 Example.exchange1 P (clock s) 0
             (mem s b_in) (mem s b_out) (mem s b_uc) in
  let z := local_correction_result Example.solve1 Example.exchange1 P
             (after_deflation P (clock s)) w0 q in
  mem s' b_work = z
  /\ mem s' b_out = Wrapper.axpy (Subdomain_dof P) 1 z q
  /\ clock s' = (after_deflation P (clock s) + 2)%nat.
Proof.
  apply (apply_deflated_value Example.solve1 Example.callSolver1 Example.exchange1
           false (Example.P1 GE) b_in b_out 1 (Some b_work) 0 (Example.state1 0));
    try reflexivity; try discriminate.
  repeat constructor.
Defined.


(** ** scaleIntoOverlap *)

Lemma length_fill_nat (ia : list nat) (lo hi v : nat) :
  (hi <= length ia)%nat -> length (fill_nat ia lo hi v) = length ia.
Proof.
  intros H. unfold fill_nat.
  rewrite !length_app, length_take, length_replicate, length_drop. lia.
Qed.

Lemma rdn_fill_nat (ia : list nat) (lo hi v k : nat) :
  (hi <= length ia)%nat ->
  rdn (fill_nat ia lo hi v) k
  = if (lo <=? k)%nat && (k <? hi)%nat then v else rdn ia k.
Proof.
  intros H. unfold fill_nat, rdn.
  destruct (Nat.leb_spec lo k) as [Hl|Hl]; cbn [andb].
  - destruct (Nat.ltb_spec k hi) as [Hh|Hh].
    + rewrite app_nth2 by (rewrite length_take; lia).
      rewrite length_take, app_nth1 by (rewrite length_replicate; lia).
      rewrite nth_lookup, lookup_replicate_2 by lia. reflexivity.
    + destruct (Nat.lt_ge_cases k (length ia)) as [Hk|Hk].
      * rewrite app_nth2 by (rewrite length_take; lia).
        rewrite app_nth2 by (rewrite length_take, length_replicate; lia).
        rewrite length_take, length_replicate.
        rewrite !nth_lookup, lookup_drop.
        replace (lo `max` hi + (k - lo `min` length ia - (hi - lo)))%nat with k by lia.
        reflexivity.
      * rewrite !nth_overflow; [reflexivity | |]; try lia.
        rewrite !length_app, length_take, length_replicate, length_drop. lia.
  - destruct (Nat.lt_ge_cases k (length ia)) as [Hk|Hk].
    + rewrite app_nth1 by (rewrite length_take; lia).
      rewrite !nth_lookup, lookup_take_lt by lia. reflexivity.
    + rewrite !nth_overflow; [reflexivity | |]; try lia.
      rewrite !length_app, length_take, length_replicate, length_drop. lia.
Qed.

Section OverlapFacts.

Variable HPDDM_EPS : Q.
Variable P : Schwarz.
Variable A : MatrixCSR.

Local Abbreviation dof := (Subdomain_dof P).
Local Abbreviation rows l := (flat_map (overlap_row HPDDM_EPS P A) l).

Lemma filter_seq_cons (c : nat -> bool) (a n : nat) :
  List.filter c (seq a (S n))
  = (if c a then [a] else []) ++ List.filter c (seq (S a) n).
Proof. cbn [seq List.filter]. now destruct (c a). Qed.

Lemma overlap_fill_fold (c : nat -> bool) (n : nat) :
  forall a0 ia ja a iPrev,
    length ia = (dof + 1)%nat -> (iPrev <= a0)%nat -> (a0 + n <= dof)%nat ->
    let r := foldl (overlap_fill HPDDM_EPS P A) (ia, ja, a, iPrev)
               (List.filter c (seq a0 n)) in
    length r.1.1.1 = (dof + 1)%nat
    /\ r.1.1.2 = ja ++ map fst (rows (List.filter c (seq a0 n)))
    /\ r.1.2 = a ++ map snd (rows (List.filter c (seq a0 n)))
    /\ (iPrev <= r.2 <= a0 + n)%nat
    /\ (forall j, (a0 <= j < a0 + n)%nat -> c j = true -> (j < r.2)%nat)
    /\ (forall k, (k < iPrev)%nat -> rdn r.1.1.1 k = rdn ia k)
    /\ (forall k, (iPrev <= k < r.2)%nat ->
          rdn r.1.1.1 k
          = (length ja + length (rows (List.filter c (seq a0 (k - a0)))))%nat).
Proof.
  induction n as [|n IH]; intros a0 ia ja a iPrev Hia Hp Hn r; subst r.
  - cbn [seq List.filter foldl fst snd flat_map map]. rewrite !app_nil_r.
    repeat split; intros; lia.
  - rewrite filter_seq_cons. destruct (c a0) eqn:Ec; cbn [app foldl].
    + unfold overlap_fill at 2.
      specialize (IH (S a0) (fill_nat ia iPrev (a0 + 1) (length ja))
                    (ja ++ map fst (overlap_row HPDDM_EPS P A a0))
                    (a ++ map snd (overlap_row HPDDM_EPS P A a0)) (a0 + 1)%nat).
      destruct IH as (L & J & V & R & F & K1 & K2);
        [rewrite length_fill_nat; lia | lia | lia |].
      set (r := foldl (overlap_fill HPDDM_EPS P A) _ _) in *. clearbody r.
      cbn [flat_map]. rewrite !map_app, !app_assoc.
      split; [exact L|]. split; [exact J|]. split; [exact V|].
      split; [lia|]. split; [|split].
      * intros j Hj Hc. destruct (Nat.eq_dec j a0) as [->|Hne]; [lia|].
        apply F; [lia | exact Hc].
      * intros k Hk. rewrite K1 by lia. rewrite rdn_fill_nat by lia.
        destruct (Nat.leb_spec iPrev k); [lia | reflexivity].
      * intros k Hk. destruct (Nat.le_gt_cases k a0) as [Hka|Hka].
        -- rewrite K1 by lia. rewrite rdn_fill_nat by lia.
           replace ((iPrev <=? k)%nat && (k <? a0 + 1)%nat) with true
             by (symmetry; apply andb_true_iff; split;
                 [apply Nat.leb_le | apply Nat.ltb_lt]; lia).
           replace (k - a0)%nat with 0%nat by lia. cbn. lia.
        -- rewrite K2 by lia.
           replace (k - a0)%nat with (S (k - S a0)) by lia.
           rewrite filter_seq_cons, Ec. cbn [app flat_map].
           rewrite !length_app, !length_map. lia.
    + specialize (IH (S a0) ia ja a iPrev).
      destruct IH as (L & J & V & R & F & K1 & K2); [exact Hia | lia | lia |].
      set (r := foldl (overlap_fill HPDDM_EPS P A) _ _) in *. clearbody r.
      split; [exact L|]. split; [exact J|]. split; [exact V|].
      split; [lia|]. split; [|split].
      * intros j Hj Hc. destruct (Nat.eq_dec j a0) as [->|Hne]; [congruence|].
        apply F; [lia | exact Hc].
      * exact K1.
      * intros k Hk. rewrite K2 by lia.
        destruct (Nat.le_gt_cases k a0) as [Hka|Hka].
        -- replace (k - a0)%nat with 0%nat by lia.
           replace (k - S a0)%nat with 0%nat by lia. reflexivity.
        -- replace (k - a0)%nat with (S (k - S a0)) by lia.
           rewrite filter_seq_cons, Ec. reflexivity.
Qed.

End OverlapFacts.

Lemma map_nth_slice {X : Type} (u v w : list X) (d : X) :
  map (fun p => nth p (u ++ v ++ w) d) (seq (length u) (length v)) = v.
Proof.
  revert u. induction v as [|x v IH]; intros u; [reflexivity|].
  cbn [length seq map]. f_equal.
  - rewrite app_nth2 by lia. now rewrite Nat.sub_diag.
  - specialize (IH (u ++ [x])).
    rewrite length_app, Nat.add_1_r, <- app_assoc in IH. exact IH.
Qed.

Section OverlapRows.

Variable HPDDM_EPS : Q.
Variable P : Schwarz.
Variable A : MatrixCSR.

Local Abbreviation dof := (Subdomain_dof P).
Local Abbreviation rows l := (flat_map (overlap_row HPDDM_EPS P A) l).
Local Abbreviation listed k :=
  (List.filter (fun i => bool_decide (i ∈ intoOverlap HPDDM_EPS P)) (seq 0 k)).

Lemma intoOverlap_spec (i : nat) :
  i ∈ intoOverlap HPDDM_EPS P
  <-> (i < dof)%nat /\ HPDDM_EPS < rd (_d P) i
      /\ exists nb, nb ∈ Subdomain_map P /\ i ∈ nb.2.
Proof.
  unfold intoOverlap. rewrite list_elem_of_In, filter_In, in_seq, existsb_exists.
  split.
  - intros (Hi & nb & Hnb & Hex). apply existsb_exists in Hex.
    destruct Hex as (k & Hk & Hc). apply andb_true_iff in Hc.
    destruct Hc as (E%Nat.eqb_eq & Hd%Qltb_lt). subst k.
    split; [lia|]. split; [exact Hd|].
    exists nb. split; now apply list_elem_of_In.
  - intros (Hi & Hd & nb & Hnb & Hk). split; [lia|].
    exists nb. split; [now apply list_elem_of_In|].
    apply existsb_exists. exists i. split; [now apply list_elem_of_In|].
    apply andb_true_iff. split; [apply Nat.eqb_refl | now apply Qltb_lt].
Qed.

Lemma intoOverlap_listed : intoOverlap HPDDM_EPS P = listed dof.
Proof.
  unfold intoOverlap at 1. apply filter_ext_in. intros i Hi.
  match goal with |- ?c = _ => destruct c eqn:E end.
  - symmetry. apply bool_decide_eq_true, list_elem_of_In.
    unfold intoOverlap. apply filter_In. now split.
  - symmetry. apply bool_decide_eq_false. intros Hin.
    apply list_elem_of_In in Hin. unfold intoOverlap in Hin.
    apply filter_In in Hin. destruct Hin as (_ & Hin). congruence.
Qed.

Lemma listed_S (k : nat) :
  listed (S k) = listed k ++ (if bool_decide (k ∈ intoOverlap HPDDM_EPS P) then [k] else []).
Proof.
  rewrite seq_S, List.filter_app. cbn [List.filter plus].
  now destruct (bool_decide _).
Qed.

Lemma listed_split (i : nat) :
  (i < dof)%nat ->
  exists rest, listed dof
    = listed i ++ (if bool_decide (i ∈ intoOverlap HPDDM_EPS P) then [i] else []) ++ rest.
Proof.
  intros Hi.
  assert (E : seq 0 dof = seq 0 (S i) ++ seq (S i) (dof - S i)).
  { rewrite <- seq_app. f_equal. lia. }
  rewrite E, List.filter_app, listed_S, <- app_assoc. eauto.
Qed.

Lemma listed_false (a n : nat) :
  (forall j, (a <= j < a + n)%nat -> j ∉ intoOverlap HPDDM_EPS P) ->
  List.filter (fun i => bool_decide (i ∈ intoOverlap HPDDM_EPS P)) (seq a n) = [].
Proof.
  revert a. induction n as [|n IH]; intros a H; [reflexivity|].
  cbn [seq List.filter]. rewrite bool_decide_false by (apply H; lia).
  apply IH. intros j Hj. apply H. lia.
Qed.

Lemma scaleIntoOverlap_closed :
  let B := scaleIntoOverlap HPDDM_EPS P A in
  _sym B = _sym A
  /\ length (_ia B) = (dof + 1)%nat
  /\ _ja B = map fst (rows (listed dof))
  /\ _a B = map snd (rows (listed dof))
  /\ forall k, (k <= dof)%nat -> rdn (_ia B) k = length (rows (listed k)).
Proof.
  intros B. subst B.
  pose proof (overlap_fill_fold HPDDM_EPS P A
                (fun i => bool_decide (i ∈ intoOverlap HPDDM_EPS P)) dof
                0%nat (replicate (dof + 1) 0%nat) [] [] 0%nat) as H.
  destruct H as (L & J & V & R & F & _ & K);
    [apply length_replicate | lia | lia |].
  unfold scaleIntoOverlap.
  assert (Ef : foldl (overlap_fill HPDDM_EPS P A)
                 (replicate (dof + 1) 0%nat, [], [], 0%nat) (intoOverlap HPDDM_EPS P)
               = foldl (overlap_fill HPDDM_EPS P A)
                   (replicate (dof + 1) 0%nat, [], [], 0%nat) (listed dof))
    by (f_equal; apply intoOverlap_listed).
  rewrite Ef. clear Ef.
  destruct (foldl (overlap_fill HPDDM_EPS P A) _ _) as [[[ia ja] a] iPrev].
  cbn [fst snd _sym _ia _ja _a app length plus] in *.
  split; [reflexivity|]. split; [rewrite length_fill_nat; lia|].
  split; [exact J|]. split; [exact V|].
  intros k Hk. rewrite rdn_fill_nat by lia.
  destruct (Nat.leb_spec iPrev k) as [Hp|Hp]; cbn [andb].
  - replace (k <? dof + 1)%nat with true by (symmetry; apply Nat.ltb_lt; lia).
    rewrite J, length_map. f_equal. f_equal.
    assert (E : seq 0 dof = seq 0 k ++ seq k (dof - k)).
    { rewrite <- seq_app. f_equal. lia. }
    rewrite E, List.filter_app, (listed_false k (dof - k)), app_nil_r; [reflexivity|].
    intros j Hj Hin.
    assert (j < iPrev)%nat; [|lia].
    apply F; [lia|]. now apply bool_decide_eq_true.
  - rewrite K by lia. now rewrite Nat.sub_0_r.
Qed.

Lemma csr_row_scaleIntoOverlap (i : nat) :
  (i < dof)%nat ->
  csr_row (scaleIntoOverlap HPDDM_EPS P A) i
  = if bool_decide (i ∈ intoOverlap HPDDM_EPS P)
    then overlap_row HPDDM_EPS P A i else [].
Proof.
  intros Hi.
  destruct scaleIntoOverlap_closed as (_ & _ & J & V & K).
  unfold csr_row, row_range. rewrite J, V, !K by lia.
  rewrite Nat.add_1_r, listed_S, flat_map_app, length_app.
  destruct (listed_split i Hi) as (rest & E).
  rewrite E, !flat_map_app. clear E.
  set (u := rows (listed i)).
  set (v := rows (if bool_decide (i ∈ intoOverlap HPDDM_EPS P) then [i] else [])).
  set (w := rows rest).
  replace (length u + length v - length u)%nat with (length v) by lia.
  assert (Ev : (if bool_decide (i ∈ intoOverlap HPDDM_EPS P)
                then overlap_row HPDDM_EPS P A i else []) = v).
  { subst v. destruct (bool_decide _); cbn [flat_map];
      [symmetry; apply app_nil_r | reflexivity]. }
  rewrite Ev. etransitivity; [|apply (map_nth_slice u v w (0%nat, 0))].
  apply map_ext_in. intros p Hp. apply in_seq in Hp.
  assert (Hl : (p < length (u ++ v ++ w))%nat) by (rewrite !length_app; lia).
  unfold rdn, rd.
  rewrite (nth_indep _ 0%nat (fst (0%nat, 0))) by now rewrite length_map.
  rewrite (nth_indep _ 0 (snd (0%nat, 0))) by now rewrite length_map.
  rewrite !map_nth. now destruct (nth p (u ++ v ++ w) (0%nat, 0)).
Qed.

End OverlapRows.

Lemma overlap_row_spec (HPDDM_EPS : Q) (P : Schwarz) (A : MatrixCSR) (i j : nat) (v : Q) :
  In (j, v) (overlap_row HPDDM_EPS P A i)
  <-> exists p, In p (row_range A i) /\ j = rdn (_ja A) p
                /\ v = rd (_d P) i * rd (_d P) j * rd (_a A) p
                /\ HPDDM_EPS < Kabs v /\ j ∈ intoOverlap HPDDM_EPS P.
Proof.
  unfold overlap_row. rewrite in_flat_map. split.
  - intros (p & Hp & Hin).
    destruct (Qltb _ _ && bool_decide _) eqn:E; [|contradiction].
    destruct Hin as [[= <- <-]|[]].
    apply andb_true_iff in E. destruct E as (Hv%Qltb_lt & Hj%bool_decide_eq_true).
    exists p. auto.
  - intros (p & Hp & -> & -> & Hv & Hj). exists p. split; [exact Hp|].
    cbv zeta. apply Qltb_lt in Hv. rewrite Hv.
    rewrite bool_decide_true by exact Hj. now left.
Qed.

(** X11: the matrix that [scaleIntoOverlap] builds is a well-formed
    compressed matrix of [dof] rows with the symmetry flag of the input: its
    row pointers start at 0, do not decrease and end at the number of stored
    entries, there are as many values as column indices, and every column
    index is below [dof]. *)
Theorem scaleIntoOverlap_well_formed (HPDDM_EPS : Q) (P : Schwarz) (A : MatrixCSR) :
  let B := scaleIntoOverlap HPDDM_EPS P A in
  _sym B = _sym A
  /\ length (_ia B) = (Subdomain_dof P + 1)%nat
  /\ rdn (_ia B) 0 = 0%nat
  /\ (forall i, (i < Subdomain_dof P)%nat -> (rdn (_ia B) i <= rdn (_ia B) (i + 1))%nat)
  /\ rdn (_ia B) (Subdomain_dof P) = length (_ja B)
  /\ length (_a B) = length (_ja B)
  /\ Forall (fun j => (j < Subdomain_dof P)%nat) (_ja B).
Proof.
  intros B. subst B.
  destruct (scaleIntoOverlap_closed HPDDM_EPS P A) as (S & L & J & V & K).
  split; [exact S|]. split; [exact L|]. split; [now rewrite K by lia|].
  split; [|split; [|split]].
  - intros i Hi. rewrite !K by lia.
    rewrite Nat.add_1_r, listed_S, flat_map_app, length_app. lia.
  - rewrite K, J, length_map by lia. reflexivity.
  - now rewrite J, V, !length_map.
  - rewrite J, <- intoOverlap_listed. apply Forall_forall. intros j Hj.
    apply list_elem_of_In, in_map_iff in Hj. destruct Hj as ([j' v] & <- & Hin).
    apply in_flat_map in Hin. destruct Hin as (i & _ & Hin).
    apply overlap_row_spec in Hin. destruct Hin as (p & _ & _ & _ & _ & Hj).
    now apply intoOverlap_spec in Hj.
Qed.

(** X12: the entries of the matrix of [scaleIntoOverlap].  An index is in
    the overlap when a neighbour lists it and its weight exceeds
    [HPDDM_EPS].  Row [i] of the result holds the column [j] with the value
    [v] exactly when [i] and [j] are in the overlap, row [i] of the input
    stores an entry [a] in column [j], [v] is [d[i] * d[j] * a], and the
    magnitude of [v] exceeds [HPDDM_EPS]; every row off the overlap is
    empty. *)
Theorem scaleIntoOverlap_entries (HPDDM_EPS : Q) (P : Schwarz) (A : MatrixCSR) :
  let B := scaleIntoOverlap HPDDM_EPS P A in
  let overlap i :=
    (i < Subdomain_dof P)%nat /\ HPDDM_EPS < rd (_d P) i
    /\ exists nb, nb ∈ Subdomain_map P /\ i ∈ nb.2 in
  forall i j v, (i < Subdomain_dof P)%nat ->
    In (j, v) (csr_row B i)
    <-> overlap i /\ overlap j /\ HPDDM_EPS < Kabs v
        /\ exists p, In p (row_range A i) /\ j = rdn (_ja A) p
                     /\ v = rd (_d P) i * rd (_d P) j * rd (_a A) p.
Proof.
  intros B overlap i j v Hi. subst B overlap. cbv beta.
  rewrite csr_row_scaleIntoOverlap by exact Hi.
  rewrite <- !intoOverlap_spec.
  case_bool_decide as Hin.
  - rewrite overlap_row_spec. split.
    + intros (p & Hp & Hj & Hv & Habs & Hjo). eauto 10.
    + intros (_ & Hjo & Habs & p & Hp & Hj & Hv). eauto 10.
  - split; [intros []|]. intros (Hio & _). contradiction.
Qed.


(** The second row of the example keeps its diagonal entry, scaled by 1/4. *)
Lemma scaleIntoOverlap_entries_witness :
  let overlap i :=
    (i < 2)%nat /\ ExampleOverlap.EPS < rd [1; 1 # 2] i
    /\ exists nb, nb ∈ [(1%nat, [1%nat])] /\ i ∈ nb.2 in
  In (1%nat, 1 # 2)
     (csr_row (scaleIntoOverlap ExampleOverlap.EPS ExampleOverlap.P5 ExampleOverlap.A3) 1)
  <-> overlap 1%nat /\ overlap 1%nat /\ ExampleOverlap.EPS < Kabs (1 # 2)
      /\ exists p, In p (row_range ExampleOverlap.A3 1)
                   /\ 1%nat = rdn (_ja ExampleOverlap.A3) p
                   /\ 1 # 2 = rd [1; 1 # 2] 1 * rd [1; 1 # 2] 1 * rd (_a ExampleOverlap.A3) p.
Proof.
  apply (scaleIntoOverlap_entries ExampleOverlap.EPS ExampleOverlap.P5 ExampleOverlap.A3
           1 1 (1 # 2)).
  cbn. lia.
Defined.

Lemma scaleIntoOverlap_position (HPDDM_EPS : Q) (P : Schwarz) (A : MatrixCSR) (i p : nat) :
  (i < Subdomain_dof P)%nat ->
  In p (row_range (scaleIntoOverlap HPDDM_EPS P A) i) ->
  i ∈ intoOverlap HPDDM_EPS P
  /\ rdn (_ja (scaleIntoOverlap HPDDM_EPS P A)) p ∈ intoOverlap HPDDM_EPS P.
Proof.
  intros Hi Hp.
  apply (in_map (fun p => (rdn (_ja (scaleIntoOverlap HPDDM_EPS P A)) p,
                           rd (_a (scaleIntoOverlap HPDDM_EPS P A)) p))) in Hp.
  fold (csr_row (scaleIntoOverlap HPDDM_EPS P A) i) in Hp.
  rewrite csr_row_scaleIntoOverlap in Hp by exact Hi.
  case_bool_decide as Hin; [|contradiction].
  split; [exact Hin|].
  apply overlap_row_spec in Hp. now destruct Hp as (q & _ & _ & _ & _ & Hj).
Qed.

(** X13: the matrix of [scaleIntoOverlap] acts on the overlap only: its
    product with a vector vanishes at every index off the overlap, and two
    vectors that agree on the overlap have the same product, for a general
    matrix and for a symmetric one stored by its lower triangle. *)
Theorem scaleIntoOverlap_product (HPDDM_EPS : Q) (P : Schwarz) (A : MatrixCSR) :
  let B := scaleIntoOverlap HPDDM_EPS P A in
  (forall x i, (i < Subdomain_dof P)%nat -> i ∉ intoOverlap HPDDM_EPS P ->
     rd (Wrapper.spmv B (Subdomain_dof P) x) i = 0)
  /\ forall x y, (forall j, j ∈ intoOverlap HPDDM_EPS P -> rd x j = rd y j) ->
       Wrapper.spmv B (Subdomain_dof P) x = Wrapper.spmv B (Subdomain_dof P) y.
Proof.
  intros B. split.
  - intros x i Hi Hout. unfold Wrapper.spmv. rewrite rd_map_seq by exact Hi.
    cbn [plus].
    assert (Hrow : Wrapper.row_mul B x i = 0).
    { unfold Wrapper.row_mul.
      destruct (row_range B i) as [|p l] eqn:E; [reflexivity|].
      exfalso. apply Hout.
      apply (scaleIntoOverlap_position HPDDM_EPS P A i p Hi).
      fold B. rewrite E. now left. }
    assert (Hmir : Wrapper.mirror_mul B (Subdomain_dof P) x i = 0).
    { unfold Wrapper.mirror_mul. rewrite flat_map_nil; [reflexivity|].
      intros r Hr. apply in_seq in Hr. apply flat_map_nil. intros p Hp.
      destruct (scaleIntoOverlap_position HPDDM_EPS P A r p) as (_ & Hj);
        [lia | exact Hp |].
      fold B in Hj. destruct (Nat.eqb_spec (rdn (_ja B) p) i) as [E|E];
        [|reflexivity].
      exfalso. apply Hout. now rewrite <- E. }
    rewrite Hrow, Hmir. now destruct (_sym B).
  - intros x y Hxy. unfold Wrapper.spmv. apply map_ext_in. intros i Hi.
    apply in_seq in Hi.
    assert (Hrow : Wrapper.row_mul B x i = Wrapper.row_mul B y i).
    { unfold Wrapper.row_mul. f_equal. apply map_ext_in. intros p Hp.
      destruct (scaleIntoOverlap_position HPDDM_EPS P A i p) as (_ & Hj);
        [lia | exact Hp |].
      fold B in Hj. now rewrite (Hxy _ Hj). }
    assert (Hmir : Wrapper.mirror_mul B (Subdomain_dof P) x i
                   = Wrapper.mirror_mul B (Subdomain_dof P) y i).
    { unfold Wrapper.mirror_mul. f_equal. apply flat_map_ext_in. intros r Hr.
      apply in_seq in Hr. apply flat_map_ext_in. intros p Hp.
      destruct (scaleIntoOverlap_position HPDDM_EPS P A r p) as (Hro & _);
        [lia | exact Hp |].
      now rewrite (Hxy _ Hro). }
    now rewrite Hrow, Hmir.
Qed.

(** ** multiplicityScaling with equal values *)

Lemma Qsum_uniform (s : Q) (rs : list K) :
  Forall (fun r => r == s) rs ->
  Qsum rs == inject_Z (Z.of_nat (length rs)) * s.
Proof.
  unfold Qsum. induction 1 as [|r rs Hr _ IH]; cbn [foldr length].
  - ring.
  - rewrite IH, Hr, Nat2Z.inj_succ, <- Z.add_1_l, inject_Z_plus. ring.
Qed.

(** X14: [multiplicityScaling] yields the inverse of the multiplicity, up
    to the roundings, when the values agree: at an index whose value before
    the call is at least [HPDDM_EPS] and for which every neighbour that
    shares it sends that same value, the weight [w] is positive and the
    reciprocal of [w * (1 + n)] lies between [update_lo u ^ n] and
    [update_hi u ^ n], where [n] is the number of neighbours that share the
    index and [u] the unit roundoff.  Without rounding the weight is
    [1 / (1 + n)]. *)
Theorem multiplicityScaling_uniform
    (HPDDM_EPS u : Q) (fl : Q -> Q) (P : Schwarz) (rbuff : list (list K))
    (order : list nat) (d : list K) (idx : nat) :
  rounding u fl ->
  0 < HPDDM_EPS ->
  (Subdomain_dof P <= length d)%nat ->
  map_wf (Subdomain_map P) ->
  (idx < Subdomain_dof P)%nat ->
  HPDDM_EPS <= rd d idx ->
  Forall (fun r => r == rd d idx) (received (Subdomain_map P) rbuff order idx) ->
  let w := rd (multiplicityScaling HPDDM_EPS fl P rbuff order d).2 idx in
  let n := Z.of_nat (length (sharing (Subdomain_map P) order idx)) in
  0 < w
  /\ update_lo u ^ n * (w * (1 + inject_Z n)) <= 1
  /\ 1 <= update_hi u ^ n * (w * (1 + inject_Z n)).
Proof.
  intros Hfl Heps Hlen Hwf Hidx Hs Hrs w n. subst w n.
  unfold multiplicityScaling. cbn [snd].
  rewrite rd_scale_neighbours
    by (rewrite length_store_at_0, length_replicate; lia).
  rewrite rd_store_at_0 by now rewrite length_replicate.
  rewrite rd_replicate_1 by exact Hidx.
  rewrite <- (length_received _ rbuff) by exact Hwf.
  set (rs := received (Subdomain_map P) rbuff order idx) in *.
  assert (Hpos : 0 < rd d idx) by lra.
  rewrite foldl_rescale_large
    by (unfold Kabs; rewrite Qabs_pos; [exact Hs | lra]).
  assert (Hnn : Forall (fun r => 0 <= r) rs).
  { eapply Forall_impl; [exact Hrs|]. cbv beta. intros r Hr. rewrite Hr. lra. }
  destruct (quotients_bracket fl u Hfl (rd d idx) rs Hpos Hnn) as (_ & W0 & _ & L & H).
  rewrite (Qsum_uniform _ _ Hrs) in L, H.
  set (W := foldl (fun w r => quotient fl (rd d idx) r w) 1 rs) in *.
  set (n := Z.of_nat (length rs)) in *.
  assert (Hn : 0 <= inject_Z n).
  { change 0 with (inject_Z 0). rewrite <- Zle_Qle. lia. }
  destruct (update_factors fl u Hfl) as (F0 & _ & F2).
  pose proof (Qpower_0_lt (update_lo u) n F0) as Plo.
  pose proof (Qpower_0_lt (update_hi u) n ltac:(lra)) as Phi.
  set (lo := update_lo u ^ n) in *. set (hi := update_hi u ^ n) in *.
  set (s := rd d idx) in *.
  assert (E : W * (s + inject_Z n * s) == W * (1 + inject_Z n) * s) by ring.
  rewrite E in L, H.
  set (Y := W * (1 + inject_Z n)) in *.
  assert (E' : W * (1 + inject_Z n) == Y) by reflexivity.
  split; [exact W0|]. split.
  - apply Qnot_lt_le. intros Hc. assert (s < lo * Y * s) by nra. nra.
  - apply Qnot_lt_le. intros Hc. assert (hi * Y * s < s) by nra. nra.
Qed.

(** With [binary64] as the rounding, an index shared with two neighbours
    gets the number of [double] nearest to 1/3 as its weight, as on the
    floats of the kernel. *)
Lemma multiplicityScaling_uniform_witness :
  let w := rd (multiplicityScaling ExampleScaling.EPS binary64 ExampleScaling.Pmid
                 [[1]; [1]] [0; 1]%nat [1; 1]).2 0 in
  w == 6004799503160661 # 18014398509481984
  /\ w == Q_of_float (quotient64 1%float 1%float (quotient64 1%float 1%float 1%float))
  /\ 0 < w
  /\ update_lo u64 ^ 2 * (w * (1 + inject_Z 2)) <= 1
  /\ 1 <= update_hi u64 ^ 2 * (w * (1 + inject_Z 2)).
Proof.
  split; [vm_compute; reflexivity|]. split; [vm_compute; reflexivity|].
  apply (multiplicityScaling_uniform ExampleScaling.EPS u64 binary64 ExampleScaling.Pmid
           [[1]; [1]] [0; 1]%nat [1; 1] 0).
  - apply binary64_rounding.
  - reflexivity.
  - simpl. lia.
  - repeat constructor; apply not_elem_of_nil.
  - simpl. lia.
  - unfold Qle. simpl. lia.
  - repeat constructor.
Defined.

(** ** The sums of [computeError] *)

Lemma Qsum_zero {X : Type} (g : X -> Q) (l : list X) :
  (forall x, In x l -> g x == 0) -> Qsum (map g l) == 0.
Proof.
  unfold Qsum. induction l as [|x l IH]; intros H; cbn [map foldr]; [reflexivity|].
  rewrite IH by (intros y Hy; apply H; now right).
  rewrite (H x) by now left. ring.
Qed.

Lemma Qsum_map_nonneg {X : Type} (g : X -> Q) (l : list X) :
  (forall x, In x l -> 0 <= g x) -> 0 <= Qsum (map g l).
Proof.
  intros H. apply Qsum_nonneg, Forall_forall. intros y Hy.
  apply list_elem_of_In, in_map_iff in Hy. destruct Hy as (x & <- & Hx). now apply H.
Qed.

Lemma norm_nonneg (x : Q) : 0 <= norm x.
Proof. unfold norm. nra. Qed.

(** X15: [computeError] fills [2 * mu] sums; with a scaling that is
    nowhere negative no sum is negative, so that the square roots taken
    afterwards are defined; and when the global product of [x], scaled and
    exchanged, equals [f] at every index, the sum of the residual of every
    right-hand side is 0. *)
Theorem computeError_sums
    (HPDDM_EPS HPDDM_PEN : Q) (exchange : nat -> nat -> list K -> list K)
    (P : Schwarz) (x f : buffer) (mu : nat) (s : state) :
  x <> b_tmp -> f <> b_tmp ->
  let storage := (computeError HPDDM_EPS HPDDM_PEN exchange P x f mu s).1 in
  let r := residual exchange P (clock s) mu (mem s x) (mem s f) in
  length storage = (2 * mu)%nat
  /\ ((forall i, (i < Subdomain_dof P)%nat -> 0 <= rd (_d P) i) ->
      forall k, 0 <= rd storage k)
  /\ ((forall k, (k < mu * Subdomain_dof P)%nat -> rd r k == 0) ->
      forall nu, (nu < mu)%nat -> rd storage (2 * nu + 1) == 0).
Proof.
  intros Hx Hf storage r. subst storage. unfold computeError. cbn [fst].
  match goal with |- context [mem ?t b_tmp] => set (s1 := t) end.
  assert (Htmp : mem s1 b_tmp = r).
  { subst s1 r. unfold residual, seq_step, kernel. cbn [mem]. mem_simpl.
    rewrite GMV_value, !preserves_GMV by assumption.
    unfold do_new. cbn [mem clock]. now mem_simpl. }
  rewrite Htmp. clearbody r. clear Htmp.
  destruct (error_row_fold HPDDM_EPS HPDDM_PEN P r (mem s1 f) mu (Subdomain_dof P))
    as (Hlen & Hsum).
  set (st := foldl _ _ _) in *. clearbody st.
  split; [exact Hlen|]. split.
  - intros Hd k.
    destruct (Nat.lt_ge_cases k (2 * mu)) as [Hk|Hk].
    + destruct (Hsum (k / 2)%nat) as (H0 & H1).
      { apply Nat.Div0.div_lt_upper_bound. lia. }
      pose proof (Nat.div_mod_eq k 2) as Hdm.
      pose proof (Nat.mod_upper_bound k 2 ltac:(lia)) as Hm.
      destruct (Nat.eq_dec (k mod 2) 0%nat) as [E|E].
      * replace k with (2 * (k / 2))%nat at 1 by lia. rewrite H0.
        apply Qsum_map_nonneg. intros i Hi. apply in_seq in Hi.
        unfold rhs_term.
        destruct (row_skipped _ _ _ _); [apply Qle_refl|].
        destruct (Qltb _ _);
          (apply Qmult_le_0_compat; [apply Hd; lia | apply norm_nonneg]).
      * replace k with (2 * (k / 2) + 1)%nat at 1 by lia. rewrite H1.
        apply Qsum_map_nonneg. intros i Hi. apply in_seq in Hi.
        unfold res_term.
        destruct (row_skipped _ _ _ _); [apply Qle_refl|].
        destruct (isBoundaryCond _ _ _); [apply Qle_refl|].
        apply Qmult_le_0_compat; [apply Hd; lia | apply norm_nonneg].
    + unfold rd. rewrite nth_overflow by lia. apply Qle_refl.
  - intros Hr nu Hnu. destruct (Hsum nu Hnu) as (_ & H1). rewrite H1.
    apply Qsum_zero. intros i Hi. apply in_seq in Hi.
    unfold res_term.
    destruct (row_skipped _ _ _ _); [reflexivity|].
    destruct (isBoundaryCond _ _ _); [reflexivity|].
    unfold norm. rewrite Hr by nia. ring.
Qed.

Lemma computeError_sums_witness :
  let storage := ExampleError.sums in
  let r := residual Example.exchange1 ExampleError.P3 0 1 [1] [1] in
  length storage = 2%nat
  /\ ((forall i, (i < 1)%nat -> 0 <= rd [1] i) -> forall k, 0 <= rd storage k)
  /\ ((forall k, (k < 1 * 1)%nat -> rd r k == 0) ->
      forall nu, (nu < 1)%nat -> rd storage (2 * nu + 1) == 0).
Proof.
  apply (computeError_sums ExampleError.EPS ExampleError.PEN Example.exchange1
           ExampleError.P3 b_in b_work 1 ExampleError.state3); discriminate.
Defined.

(** ** What [solveGEVP] leaves behind *)

(** X16: next to the deflation vectors and [geneo_nu], [solveGEVP] changes
    the matrix [A]: its index arrays are taken away exactly when its
    sparsity is that of the pattern, or of the matrix of the subdomain when
    no pattern is given, while its values and its symmetry flag stay.  The
    eigensolver is handed the right-hand side matrix of the caller, and the
    matrix of [scaleIntoOverlap] when there is none.  No option other than
    [geneo_nu] changes, and the vectors past the achieved number are those
    of the eigensolver. *)
Theorem solveGEVP_effects
    (HPDDM_EPS HPDDM_PEN : Q)
    (Eps_solve : Q -> nat -> nat -> MatrixCSR -> MatrixCSR -> bool -> list (list K) * nat)
    (sameSparsity : MatrixCSR -> MatrixCSR -> bool)
    (P : Schwarz) (o : gmap string Q) (A : MatrixCSR) (nu : nat) (threshold : Q)
    (B pattern : option MatrixCSR) :
  let r := solveGEVP HPDDM_EPS HPDDM_PEN Eps_solve sameSparsity P o A nu threshold B pattern in
  let free := sameSparsity (default (Subdomain_a P) pattern) A in
  let solved := Eps_solve threshold (Subdomain_dof P) nu A
                  (default (scaleIntoOverlap HPDDM_EPS P A) B) free in
  (forall key, key <> "geneo_nu" -> gevp_opt r !! key = o !! key)
  /\ _sym (gevp_A r) = _sym A /\ _a (gevp_A r) = _a A
  /\ (if free then _ia (gevp_A r) = [] /\ _ja (gevp_A r) = [] else gevp_A r = A)
  /\ length (gevp_ev r) = length solved.1
  /\ forall k, (gevp_nu r <= k)%nat -> nth k (gevp_ev r) [] = nth k solved.1 [].
Proof.
  intros r free solved. subst r. unfold solveGEVP, gevp_solved.
  assert (Hfree : gevp_free sameSparsity P A pattern = free) by now destruct pattern.
  assert (Hrhs : gevp_rhs HPDDM_EPS P A B = default (scaleIntoOverlap HPDDM_EPS P A) B)
    by now destruct B.
  rewrite Hfree, Hrhs. fold solved.
  destruct solved as [ev achieved]. cbn [gevp_nu gevp_opt gevp_ev gevp_A fst snd].
  split; [intros key Hk; now apply lookup_insert_ne|].
  split; [now destruct free|].
  split; [now destruct free|].
  split; [destruct free; cbn; auto|].
  split.
  - rewrite length_app, length_map, <- length_app, take_drop. reflexivity.
  - intros k Hk. destruct (Nat.lt_ge_cases k (length ev)) as [Hl|Hl].
    + rewrite app_nth2 by (rewrite length_map, length_take; lia).
      rewrite length_map, length_take, !nth_lookup, lookup_drop.
      replace (achieved + (k - achieved `min` length ev))%nat with k by lia.
      reflexivity.
    + rewrite !nth_overflow; [reflexivity | |]; try lia.
      rewrite length_app, length_map, length_take, length_drop. lia.
Qed.

(** ** GMV, vector by vector *)

Lemma rd_flat_map_seq (m : nat) (g : nat -> list K) (n k i : nat) :
  (forall j, length (g j) = m) -> (k < n)%nat -> (i < m)%nat ->
  rd (flat_map g (seq 0 n)) (k * m + i) = rd (g k) i.
Proof.
  intros Hg Hk Hi. rewrite flat_map_concat_map, Nat.add_comm.
  rewrite (rd_concat m) by
    (try exact Hi; apply Forall_forall; intros z Hz;
     apply list_elem_of_In, in_map_iff in Hz; destruct Hz as (j & <- & _); apply Hg).
  rewrite (nth_indep _ [] (g 0%nat)) by (rewrite length_map, length_seq; lia).
  rewrite map_nth, seq_nth by lia. reflexivity.
Qed.

(** X17: [GMV] handles [mu] vectors: before the halo exchange, the entry
    [i] of the vector [k] of [out] is the entry [i] of the product of the
    matrix of the subdomain with the vector [k] of the input, scaled by
    [d[i]]. *)
Theorem GMV_vectors (exchange : nat -> nat -> list K -> list K) (P : Schwarz)
    (in_ out : buffer) (mu : nat) (s : state) :
  let y := rescaled P mu
             (Wrapper.csrmm (Subdomain_dof P) mu (Subdomain_a P) (mem s in_) (mem s out)) in
  mem (GMV exchange P in_ out mu s) out = exchanged exchange P (clock s) mu y
  /\ forall k i, (k < mu)%nat -> (i < Subdomain_dof P)%nat ->
       rd y (k * Subdomain_dof P + i)
       = rd (_d P) i
         * rd (Wrapper.spmv (Subdomain_a P) (Subdomain_dof P)
                 (drop (k * Subdomain_dof P) (mem s in_))) i.
Proof.
  intros y. split.
  - rewrite GMV_value. reflexivity.
  - intros k i Hk Hi. subst y. unfold rescaled, Wrapper.diag.
    assert (Hj : (k * Subdomain_dof P + i < Subdomain_dof P * mu)%nat) by nia.
    rewrite rd_store_at_0 by now rewrite length_map, length_seq.
    rewrite rd_map_seq by exact Hj. cbn [plus].
    rewrite Nat.add_comm, Nat.Div0.mod_add, Nat.mod_small by exact Hi.
    f_equal. unfold Wrapper.csrmm.
    rewrite rd_store_at_0
      by (rewrite (length_flat_map_seq (Subdomain_dof P)); [nia|];
          intros j; apply length_spmv).
    rewrite Nat.add_comm.
    apply (rd_flat_map_seq (Subdomain_dof P)); [|exact Hk|exact Hi].
    intros j. apply length_spmv.
Qed.

(** ** The temporary of the balancing round *)

(** X18: the balancing round of [apply] allocates a temporary of [dof]
    entries and calls [GMV] on it with [mu]: the product, its scaling and its
    exchange write [mu * dof] entries, which is beyond the end of the
    temporary as soon as [mu] exceeds 1.  The temporary of [computeError]
    holds the [mu * dof] entries that [GMV] writes. *)
Theorem balancing_round_temporary
    (callSolver exchange : nat -> nat -> list K -> list K) (HPDDM_EPS HPDDM_PEN : Q)
    (P : Schwarz) (excluded : bool) (work x f : buffer) (mu fuse : nat) (s : state) :
  let dof := Subdomain_dof P in
  let s0 := do_new b_tmp dof s in
  let s1 := GMV exchange P work b_tmp mu s0 in
  balancing_round callSolver exchange P excluded work mu fuse s
  = do_axpy P Wrapper.d__2 b_tmp work
      (deflation callSolver exchange P excluded None b_tmp fuse s1)
  /\ length (mem s0 b_tmp) = dof
  /\ length (mem s1 b_tmp) = Nat.max (mu * dof) dof
  /\ ((1 < mu)%nat -> (0 < dof)%nat ->
      (length (mem s0 b_tmp) < length (mem s1 b_tmp))%nat)
  /\ length (mem (computeError HPDDM_EPS HPDDM_PEN exchange P x f mu s).2 b_tmp)
     = (mu * dof)%nat.
Proof.
  intros dof s0 s1.
  assert (H0 : length (mem s0 b_tmp) = dof).
  { subst s0. unfold do_new. cbn [mem]. mem_simpl. apply length_replicate. }
  assert (H1 : length (mem s1 b_tmp) = Nat.max (mu * dof) dof).
  { subst s1. rewrite GMV_value, length_GMV_result. now rewrite H0. }
  split; [reflexivity|]. split; [exact H0|]. split; [exact H1|]. split.
  - intros Hmu Hdof. rewrite H0, H1. nia.
  - unfold computeError. cbn [snd]. unfold seq_step.
    rewrite mem_kernel_eq. unfold Wrapper.axpy.
    rewrite length_store_at_0, length_map, length_seq.
    rewrite GMV_value, length_GMV_result.
    unfold do_new. cbn [mem]. mem_simpl. rewrite length_replicate. lia.
Qed.

(** ** The diagonal entry in [computeError] *)

(** X19: in a row whose column indices increase and that stores its
    diagonal entry, the entry that [computeError] compares with
    [HPDDM_EPS * HPDDM_PEN] is the diagonal entry: for a general matrix the
    search with [std::upper_bound] stops right after it, and for a symmetric
    matrix, of which the row stores no column beyond the diagonal, it is the
    last entry.  The row is left out exactly when the magnitude of its
    diagonal entry exceeds the product. *)
Theorem row_stop_diagonal (HPDDM_EPS HPDDM_PEN : Q) (P : Schwarz) (i p : nat) :
  let A := Subdomain_a P in
  let lo := rdn (_ia A) i in
  let hi := rdn (_ia A) (i + 1) in
  (lo <= p < hi)%nat -> (hi <= length (_ja A))%nat ->
  rdn (_ja A) p = i ->
  (forall q q', (lo <= q)%nat -> (q < q')%nat -> (q' < hi)%nat ->
     (rdn (_ja A) q < rdn (_ja A) q')%nat) ->
  (_sym A = true -> forall q, (lo <= q < hi)%nat -> (rdn (_ja A) q <= i)%nat) ->
  row_stop P i = (p + 1)%nat
  /\ (row_skipped HPDDM_EPS HPDDM_PEN P i = true
      <-> HPDDM_EPS * HPDDM_PEN < Kabs (rd (_a A) p)).
Proof.
  intros A lo hi Hp Hhi Hd Hinc Hsym.
  assert (Hstop : row_stop P i = (p + 1)%nat).
  { unfold row_stop. fold A lo hi. destruct (_sym A) eqn:Es; cbn [negb].
    - destruct (Nat.eq_dec (p + 1)%nat hi) as [E|E]; [now rewrite E|].
      exfalso. specialize (Hsym eq_refl (p + 1)%nat ltac:(lia)).
      specialize (Hinc p (p + 1)%nat ltac:(lia) ltac:(lia) ltac:(lia)). lia.
    - unfold upper_bound.
      assert (Hn : forall q, (q < hi - lo)%nat ->
                nth q (take (hi - lo) (drop lo (_ja A))) 0%nat = rdn (_ja A) (lo + q)).
      { intros q Hq. unfold rdn.
        rewrite !nth_lookup, lookup_take_lt, lookup_drop by lia. reflexivity. }
      rewrite (leading_prefix _ _ (p - lo)).
      + lia.
      + rewrite length_take, length_drop. lia.
      + intros q Hq. rewrite Hn by lia. apply Nat.leb_le.
        destruct (Nat.eq_dec (lo + q)%nat p) as [E|E]; [rewrite E; lia|].
        specialize (Hinc (lo + q)%nat p ltac:(lia) ltac:(lia) ltac:(lia)). lia.
      + rewrite length_take, length_drop. intros H.
        rewrite Hn by lia. apply Nat.leb_gt.
        specialize (Hinc p (lo + S (p - lo))%nat ltac:(lia) ltac:(lia) ltac:(lia)).
        lia. }
  split; [exact Hstop|].
  unfold row_skipped. rewrite Hstop, Qltb_lt.
  replace (p + 1 - 1)%nat with p by lia. reflexivity.
Qed.

(** The diagonal entry of the second row of the example is its second
    entry. *)
Lemma row_stop_diagonal_witness :
  row_stop ExampleOverlap.P5 1 = 4%nat
  /\ (row_skipped ExampleOverlap.EPS ExampleOverlap.PEN ExampleOverlap.P5 1 = true
      <-> ExampleOverlap.EPS * ExampleOverlap.PEN < Kabs (rd (_a ExampleOverlap.A3) 3)).
Proof.
  apply (row_stop_diagonal ExampleOverlap.EPS ExampleOverlap.PEN ExampleOverlap.P5 1 3).
  - vm_compute. lia.
  - vm_compute. lia.
  - reflexivity.
  - intros q q' H1 H2 H3.
    assert (q = 2%nat) as -> by (vm_compute in H1, H3; lia).
    assert (q' = 3%nat) as -> by (vm_compute in H3; lia).
    vm_compute. lia.
  - discriminate.
Defined.
